(** * go-besu: private transactions and privacy groups

    A shallow embedding of the Go packages [privacy] (privacy.go) and
    [types] (private transaction and private receipt) of go-besu, with
    the properties its specification states about them.

    Conventions.
    - A Go [byte] is a [Byte.byte]; a [[]byte] that is only read is a
      [list byte].
    - Go's [int] is 64 bits wide (the literal [0xffffffff] in
      [PublicKey.Hash] does not fit a 32-bit [int]); fixed-width integers
      are [Z] with the wrap-around of every conversion written out.
    - A [*big.Int] is a location of a store of [Z]; a slice is a window
      on a backing array of a store of arrays. *)

From stdpp Require Import gmap strings list fin_maps sorting pretty.
From Stdlib Require Import ZArith Lia.
From Stdlib.Strings Require Import Ascii Byte.

Local Open Scope Z_scope.
Set Warnings "-register-all".

(** ** Fixed-width integers *)

Module Int.

(** Conversion to a signed integer of [w] bits: keeps the low [w] bits
    and reads them in two's complement. *)
Definition signed (w : Z) (x : Z) : Z :=
  (x + 2 ^ (w - 1)) `mod` 2 ^ w - 2 ^ (w - 1).

(** Conversion to an unsigned integer of [w] bits. *)
Definition unsigned (w : Z) (x : Z) : Z := x `mod` 2 ^ w.

Definition int32 : Z → Z := signed 32.
Definition int64 : Z → Z := signed 64.
(** Go's [int] on the platforms the package compiles for. *)
Definition int : Z → Z := int64.
Definition uint64 : Z → Z := unsigned 64.
Definition uint8 : Z → Z := unsigned 8.

Definition in_int32 (x : Z) : Prop := - 2 ^ 31 ≤ x < 2 ^ 31.

End Int.

(** ** Bytes *)

Definition byte_to_Z (b : byte) : Z := Z.of_N (Byte.to_N b).

Definition byte_of_Z (z : Z) : byte :=
  default "000"%byte (Byte.of_N (Z.to_N (Int.uint8 z))).

(** [signExtend8to32]: the byte read as a two's complement number. *)
Definition sign_extend_8 (b : byte) : Z := Int.signed 8 (byte_to_Z b).

(** Big-endian reading of a byte string: [new(big.Int).SetBytes]. *)
Definition be_value (buf : list byte) : Z :=
  fold_left (λ acc b, acc * 256 + byte_to_Z b) buf 0.

Fixpoint be_bytes_aux (fuel : nat) (n : Z) (acc : list byte) : list byte :=
  match fuel with
  | O => acc
  | S fuel' =>
      if n <=? 0 then acc
      else be_bytes_aux fuel' (n / 256) (byte_of_Z n :: acc)
  end.

(** Shortest big-endian byte string of a natural number, empty for zero:
    [Bytes] of a [big.Int], on the absolute value. The fuel is the number of
    bits, never fewer than the number of bytes. *)
Definition be_bytes (n : Z) : list byte :=
  be_bytes_aux (Z.to_nat (Z.log2 n) + 1) n [].

(** The bytes of a Go string (UTF-8; the strings of this package are ASCII). *)
Definition bytes_of_string (s : string) : list byte :=
  (λ a, byte_of_Z (Z.of_N (Ascii.N_of_ascii a))) <$> String.list_ascii_of_string s.

(** Lower-case hexadecimal digits of a byte string. *)
Definition hex_digit (n : Z) : ascii :=
  default "0"%char
    (String.list_ascii_of_string "0123456789abcdef" !! Z.to_nat n).
Definition to_hex (bs : list byte) : string :=
  String.string_of_list_ascii
    (bs ≫= λ b, [hex_digit (byte_to_Z b / 16); hex_digit (byte_to_Z b `mod` 16)]).

(** ** Keccak-256 (golang.org/x/crypto/sha3, [NewLegacyKeccak256])

    The permutation Keccak-f[1600] on 25 lanes of 64 bits, the sponge at
    rate 136 with the original padding byte [0x01], and 32 bytes of
    output. *)

Module sha3.

Definition lane : Type := Z.
Definition mask64 (x : Z) : lane := Z.land x 0xffffffffffffffff.

Definition rotl (x : lane) (n : Z) : lane :=
  mask64 (Z.lor (Z.shiftl x n) (Z.shiftr x (64 - n))).

Definition rc : list lane :=
  [ 0x0000000000000001; 0x0000000000008082; 0x800000000000808a;
    0x8000000080008000; 0x000000000000808b; 0x0000000080000001;
    0x8000000080008081; 0x8000000000008009; 0x000000000000008a;
    0x0000000000000088; 0x0000000080008009; 0x000000008000000a;
    0x000000008000808b; 0x800000000000008b; 0x8000000000008089;
    0x8000000000008003; 0x8000000000008002; 0x8000000000000080;
    0x000000000000800a; 0x800000008000000a; 0x8000000080008081;
    0x8000000000008080; 0x0000000080000001; 0x8000000080008008 ].

(** Rotation offsets and lane moves of the rho and pi steps, in the order
    in which the moves chain from lane 1. *)
Definition rotc : list Z :=
  [1; 3; 6; 10; 15; 21; 28; 36; 45; 55; 2; 14;
   27; 41; 56; 8; 25; 43; 62; 18; 39; 61; 20; 44].
Definition piln : list nat :=
  [10; 7; 11; 17; 18; 3; 5; 16; 8; 21; 24; 4;
   15; 23; 19; 13; 12; 2; 20; 14; 22; 9; 6; 1]%nat.

Definition get (st : list lane) (i : nat) : lane := default 0 (st !! i).

Definition theta (st : list lane) : list lane :=
  let bc := (λ i : nat,
    Z.lxor (get st i) (Z.lxor (get st (i + 5)) (Z.lxor (get st (i + 10))
      (Z.lxor (get st (i + 15)) (get st (i + 20)))))) <$> seq 0 5 in
  imap (λ j a,
    let i := (j `mod` 5)%nat in
    Z.lxor a (Z.lxor (get bc ((i + 4) `mod` 5)%nat)
                     (rotl (get bc ((i + 1) `mod` 5)%nat) 1))) st.

Definition rho_pi (st : list lane) : list lane :=
  fst (fold_left (λ '(s, t) '(j, r), (<[j := rotl t r]> s, get s j))
         (zip piln rotc) (st, get st 1)).

Definition chi (st : list lane) : list lane :=
  imap (λ j a,
    let row := (j - j `mod` 5)%nat in
    let i := (j `mod` 5)%nat in
    Z.lxor a (Z.land (Z.lxor (get st (row + (i + 1) `mod` 5)%nat) 0xffffffffffffffff)
                     (get st (row + (i + 2) `mod` 5)%nat))) st.

Definition iota (c : lane) (st : list lane) : list lane :=
  <[0%nat := Z.lxor (get st 0) c]> st.

Definition round (st : list lane) (c : lane) : list lane :=
  iota c (chi (rho_pi (theta st))).

Definition keccakF1600 (st : list lane) : list lane := fold_left round rc st.

(** Little-endian reading and writing of a lane. *)
Definition lane_of_bytes (bs : list byte) : lane :=
  fold_right (λ b acc, byte_to_Z b + 256 * acc) 0 bs.
Definition bytes_of_lane (x : lane) : list byte :=
  (λ i : nat, byte_of_Z (Z.shiftr x (8 * Z.of_nat i))) <$> seq 0 8.

Definition rate : nat := 136.

(** Padding of the legacy Keccak: [0x01], zeros, and [0x80] on the last
    byte of the block. *)
Definition pad (msg : list byte) : list byte :=
  let q := (rate - length msg `mod` rate)%nat in
  if decide (q = 1%nat) then msg ++ ["129"%byte]
  else msg ++ ["001"%byte] ++ replicate (q - 2) "000"%byte ++ ["128"%byte].

Fixpoint lanes_of_block (n : nat) (block : list byte) : list lane :=
  match n with
  | O => []
  | S n' => lane_of_bytes (take 8 block) :: lanes_of_block n' (drop 8 block)
  end.

Definition xor_block (st : list lane) (block : list byte) : list lane :=
  let ls := lanes_of_block 17 block in
  imap (λ j a, Z.lxor a (get ls j)) st.

Fixpoint absorb (blocks : nat) (msg : list byte) (st : list lane) : list lane :=
  match blocks with
  | O => st
  | S n => absorb n (drop rate msg) (keccakF1600 (xor_block st (take rate msg)))
  end.

(** [hw := sha3.NewLegacyKeccak256(); hw.Write(msg); hw.Sum(nil)] *)
Definition Keccak256 (msg : list byte) : list byte :=
  let padded := pad msg in
  let st := absorb (length padded / rate) padded (replicate 25 0) in
  take 32 (concat (bytes_of_lane <$> st)).

End sha3.

(** ** encoding/base64, [StdEncoding.EncodeToString] *)

Module base64.

Definition alphabet : list Ascii.ascii :=
  String.list_ascii_of_string
    "ABCDEFGHIJKLMNOPQRSTUVWXYZabcdefghijklmnopqrstuvwxyz0123456789+/".

Definition digit (i : Z) : Ascii.ascii :=
  default "="%char (alphabet !! Z.to_nat (Z.land i 63)).

Fixpoint encode (src : list byte) : list Ascii.ascii :=
  match src with
  | [] => []
  | [a] =>
      let v := Z.shiftl (byte_to_Z a) 16 in
      [digit (Z.shiftr v 18); digit (Z.shiftr v 12); "="%char; "="%char]
  | [a; b] =>
      let v := Z.lor (Z.shiftl (byte_to_Z a) 16) (Z.shiftl (byte_to_Z b) 8) in
      [digit (Z.shiftr v 18); digit (Z.shiftr v 12); digit (Z.shiftr v 6);
       "="%char]
  | a :: b :: c :: rest =>
      let v := Z.lor (Z.lor (Z.shiftl (byte_to_Z a) 16)
                            (Z.shiftl (byte_to_Z b) 8)) (byte_to_Z c) in
      digit (Z.shiftr v 18) :: digit (Z.shiftr v 12) :: digit (Z.shiftr v 6)
        :: digit v :: encode rest
  end.

Definition EncodeToString (src : list byte) : string :=
  String.string_of_list_ascii (encode src).

End base64.

(** ** Errors and panics *)

(** A Go [error] is its message. *)
Definition error : Type := string.

Inductive panic : Type :=
| PanicMessage (msg : string)          (* [panic(msg)] *)
| PanicNilDereference                  (* read or write through a nil pointer *)
| PanicTypeAssertion (want : string)   (* [v.(T)] on a value that is no [T] *)
| PanicIndexOutOfRange.

(** What a call does: it returns, or it panics. *)
Inductive result (A : Type) : Type :=
| Done (a : A)
| Panic (p : panic).
Arguments Done {A} a.
Arguments Panic {A} p.

Global Instance result_ret : MRet result := @Done.
Global Instance result_bind : MBind result := λ A B f r,
  match r with
  | Done a => f a
  | Panic p => Panic p
  end.

(** ** Dynamic values

    What an [interface{}] holds in the maps this repository reads: the
    values [encoding/json] decodes into an [interface{}] (nil, bool,
    float64, string, [[]interface{}], [map[string]interface{}]), and byte
    slices, which only a caller that builds the map by hand can put
    there. *)
Inductive iface : Type :=
| INil
| IBool (b : bool)
| IFloat64 (bits : Z)
| IString (s : string)
| IBytes (b : list byte)
| IList (l : list iface)
| IMap (m : gmap string iface).

(** [m[key]] on a [map[string]interface{}]: nil when the key is absent. *)
Definition index (m : gmap string iface) (key : string) : iface :=
  default INil (m !! key).

(** [v.(string)] *)
Definition assert_string (v : iface) : result string :=
  match v with
  | IString s => Done s
  | _ => Panic (PanicTypeAssertion "string")
  end.

(** [v.([]interface{})] *)
Definition assert_list (v : iface) : result (list iface) :=
  match v with
  | IList l => Done l
  | _ => Panic (PanicTypeAssertion "[]interface {}")
  end.

(** [v.([]byte)] *)
Definition assert_bytes (v : iface) : result (list byte) :=
  match v with
  | IBytes b => Done b
  | _ => Panic (PanicTypeAssertion "[]uint8")
  end.

(** ** Libraries the packages call and this development leaves abstract *)

(** [base64.StdEncoding.DecodeString] *)
Class Base64Decoder : Type := {
  base64_DecodeString : string → error + list byte;
}.

(** [common.Address.Hex] and [hexutil.DecodeUint64] of go-ethereum. *)
Class Hexutil : Type := {
  common_Address_Hex : list byte → string;
  hexutil_DecodeUint64 : string → error + Z;
}.

(** ** Canonical encoding: RLP as the Ethereum Yellow Paper defines it *)

Module RLP.

(** An item is a byte string or a list of items. *)
Inductive item : Type :=
| Str (b : list byte)
| List (l : list item).

(** The header of a payload of [size] bytes: one byte [short + size] below
    56 bytes, else [long + n] followed by the [n] big-endian bytes of the
    size. *)
Definition header (short long : Z) (size : nat) : list byte :=
  if decide (size < 56)%nat then [byte_of_Z (short + Z.of_nat size)]
  else
    let n := be_bytes (Z.of_nat size) in
    byte_of_Z (long + Z.of_nat (length n)) :: n.

Definition encode_str (b : list byte) : list byte :=
  match b with
  | [x] => if decide (byte_to_Z x < 128) then [x] else header 128 183 1 ++ b
  | _ => header 128 183 (length b) ++ b
  end.

Fixpoint encode (i : item) : list byte :=
  match i with
  | Str b => encode_str b
  | List l =>
      let payload := concat (map encode l) in
      header 192 247 (length payload) ++ payload
  end.

(** A non-negative integer is the byte string of its shortest big-endian
    form; zero is the empty string. *)
Definition of_int (n : Z) : item := Str (be_bytes n).

(** An optional byte array that is absent is the empty string. *)
Definition of_optional (a : option (list byte)) : item := Str (default [] a).

End RLP.

(** ** github.com/ethereum/go-ethereum/rlp: [rlp.Encode]

    The encoder picks a writer by the dynamic type of the value. The
    values this repository hands to it have the types below. The encoder
    collects the whole encoding before it writes anything, so a failed
    call writes nothing. Sizes are written by [putint], which switches on
    the width of a [uint64]; [be_bytes] is that function without the
    bound. *)

Module rlp.

Inductive value : Type :=
| Uint (i : Z)                          (* uint, uint64 *)
| BigIntPtr (p : option Z)              (* *big.Int: nil, or the number *)
| AddressPtr (p : option (list byte))   (* *common.Address: nil, or 20 bytes *)
| Bytes (b : list byte)                 (* []byte, PublicKey, *PublicKey *)
| String (s : string)
| Slice (l : list value).               (* []interface{}, [][]byte, []*PublicKey *)

(** [puthead] *)
Definition puthead (smalltag largetag : Z) (size : nat) : list byte :=
  if decide (size < 56)%nat then [byte_of_Z (smalltag + Z.of_nat size)]
  else
    let s := be_bytes (Z.of_nat size) in
    byte_of_Z (largetag + Z.of_nat (length s)) :: s.

(** [writeUint] *)
Definition writeUint (i : Z) : list byte :=
  if decide (i = 0) then ["128"%byte]
  else if decide (i < 128) then [byte_of_Z i]
  else
    let s := be_bytes i in
    byte_of_Z (128 + Z.of_nat (length s)) :: s.

(** [writeBytes] *)
Definition writeBytes (b : list byte) : list byte :=
  match b with
  | [x] =>
      if decide (byte_to_Z x ≤ 127) then [x] else puthead 128 183 1 ++ b
  | _ => puthead 128 183 (length b) ++ b
  end.

(** [writeBigInt] *)
Definition writeBigInt (i : Z) : error + list byte :=
  if decide (i < 0) then inl "rlp: cannot encode negative *big.Int"
  else if decide (i = 0) then inr ["128"%byte]
  else inr (writeBytes (be_bytes i)).

Fixpoint encode (v : value) : error + list byte :=
  match v with
  | Uint i => inr (writeUint i)
  | BigIntPtr None => inr ["128"%byte]
  | BigIntPtr (Some i) => writeBigInt i
  | AddressPtr None => inr ["128"%byte]
  | AddressPtr (Some a) => inr (writeBytes a)
  | Bytes b => inr (writeBytes b)
  | String s => inr (writeBytes (bytes_of_string s))
  | Slice l =>
      let payload :=
        (fix elements (l : list value) : error + list byte :=
           match l with
           | [] => inr []
           | x :: l' =>
               match encode x with
               | inl e => inl e
               | inr bx =>
                   match elements l' with
                   | inl e => inl e
                   | inr bl => inr (bx ++ bl)
                   end
               end
           end) l in
      match payload with
      | inl e => inl e
      | inr bs => inr (puthead 192 247 (length bs) ++ bs)
      end
  end.

(** [rlp.Encode(w, val)]: the error, and what [w] has received. *)
Definition Encode (val : value) : option error * list byte :=
  match encode val with
  | inl e => (Some e, [])
  | inr bs => (None, bs)
  end.

End rlp.

(** ** Package privacy: public keys and their ordering *)

Module privacy.

(** [type PublicKey []byte]. The package passes keys by pointer,
    [*PublicKey], reads through the pointer and never writes through it;
    a pointer is modelled by the key it points to and is taken to be
    non-nil (a nil participant makes [Hash] panic). *)
Abbreviation PublicKey := (list byte).

(** One turn of the loop of [PublicKey.Hash]:
    [result = int(int32((31*result + int((int32(v)<<24)>>24)) & 0xffffffff))]. *)
Definition Hash_step (result : Z) (v : byte) : Z :=
  Int.int
    (Int.int32
       (Z.land
          (Int.int (31 * result
                    + Int.int (Z.shiftr (Int.int32 (Z.shiftl (Int.int32 (byte_to_Z v)) 24)) 24)))
          0xffffffff)).

(** [func (pub PublicKey) Hash() int] *)
Definition Hash (pub : PublicKey) : Z := fold_left Hash_step pub 1.

(** [sort.Ints]: the keys in increasing order. *)
Definition sort_Ints (keys : list Z) : list Z := merge_sort Z.le keys.

(** The first loop of [sort]: [hashMap[participants[i].Hash()] = participants[i]],
    a later participant replacing an earlier one with the same hash. *)
Definition hashMap_of (participants : list PublicKey) : gmap Z PublicKey :=
  fold_left (λ m p, <[Hash p := p]> m) participants ∅.

(** [sort], given the order [range_order] in which [for k := range hashMap]
    visits the keys (Go leaves that order unspecified). A key missing from
    the map would read as the nil key; that does not happen, since the keys
    come from the map. *)
Definition sort_from (range_order : list Z) (participants : list PublicKey)
  : list PublicKey :=
  let hashMap := hashMap_of participants in
  let keys := sort_Ints range_order in
  (λ v, default [] (hashMap !! v)) <$> keys.

(** The keys of the map in one order. *)
Definition keys_of (participants : list PublicKey) : list Z :=
  (map_to_list (hashMap_of participants)).*1.

(** [func (p *Privacy) sort(participants []*PublicKey) []*PublicKey], with
    one enumeration of the map fixed. [sort_from_range_order] shows that
    every other enumeration gives the same list. *)
Definition sort (participants : list PublicKey) : list PublicKey :=
  sort_from (keys_of participants) participants.

(** [common.Hash{}] *)
Definition zero_Hash : list byte := replicate 32 "000"%byte.

(** [rlpHash] of privacy.go: the zero hash when the encoder fails. *)
Definition rlpHash (x : rlp.value) : list byte :=
  match rlp.Encode x with
  | (Some _, _) => zero_Hash
  | (None, written) => sha3.Keccak256 written
  end.

(** [type Group struct] *)
Record Group : Type := mkGroup {
  ID : string;
  Name : string;
  Description : string;
  Type_ : string;
  Members : list PublicKey;
}.

(** [func (pub PublicKey) ToString() string] *)
Definition ToString (pub : PublicKey) : string := base64.EncodeToString pub.

(** [func ToPublicKey(key string) (PublicKey, error)] *)
Definition ToPublicKey `{Base64Decoder} (key : string) : error + PublicKey :=
  base64_DecodeString key.

(** *** The RPC client

    An operation that talks to the node is a tree: it returns, or it
    issues one [client.CallContext(ctx, &result, method, args...)] and goes
    on with the error or the decoded response. *)

(** The arguments this package passes to [CallContext]. *)
Inductive rpc_arg : Type :=
| ArgString (s : string)
| ArgStrings (l : list string)            (* []string *)
| ArgPublicKeys (l : list PublicKey)      (* []*PublicKey *)
| ArgMap (m : gmap string rpc_arg).       (* map[string]interface{} *)

Inductive rpc (A : Type) : Type :=
| Return (a : A)
| CallContext (method : string) (args : list rpc_arg)
    (k : error + iface → rpc A).
Arguments Return {A} a.
Arguments CallContext {A} method args k.

(** Running an operation against a node. *)
Fixpoint run {A} (client : string → list rpc_arg → error + iface)
    (op : rpc A) : A :=
  match op with
  | Return a => a
  | CallContext method args k => run client (k (client method args))
  end.

(** The requests an operation issues against a node, in order. *)
Fixpoint requests {A} (client : string → list rpc_arg → error + iface)
    (op : rpc A) : list (string * list rpc_arg) :=
  match op with
  | Return _ => []
  | CallContext method args k =>
      (method, args) :: requests client (k (client method args))
  end.

(** *** What the client sends

    go-ethereum's client marshals the arguments of [CallContext] with
    [encoding/json] into the [params] array of the request. *)
Inductive json : Type :=
| JNull
| JString (s : string)
| JArray (l : list json)
| JObject (fields : gmap string json).

(** [json.Marshal] of a key, a [PublicKey] also behind a pointer: a byte
    slice is written as the string of its base64 text in the standard
    encoding, and a nil slice as [null]. The model does not record whether
    an empty slice is nil, so what an empty key is written as is left
    open. *)
Definition marshal_key (p : PublicKey) : option json :=
  if decide (p = []) then None
  else Some (JString (base64.EncodeToString p)).

(** [json.Marshal] of an argument that is no map. A [[]string] of this
    package is made by [make] and is written as an array also when it is
    empty. A slice of keys comes from the caller: an empty one is written
    as [null] when it is nil and as the empty array otherwise, which is
    left open. A map inside a map does not occur. *)
Definition marshal_plain (a : rpc_arg) : option json :=
  match a with
  | ArgString s => Some (JString s)
  | ArgStrings l => Some (JArray (JString <$> l))
  | ArgPublicKeys l =>
      if decide (l = []) then None else JArray <$> mapM marshal_key l
  | ArgMap _ => None
  end.

(** [json.Marshal] of an argument: a map is written as an object. *)
Definition marshal (a : rpc_arg) : option json :=
  match a with
  | ArgMap m =>
      if decide (map_Forall (λ _ v, is_Some (marshal_plain v)) m)
      then Some (JObject (omap marshal_plain m))
      else None
  | _ => marshal_plain a
  end.

(** The requests as the client sends them, in order: the method, and the
    [params] array. *)
Definition sent {A} (client : string → list rpc_arg → error + iface)
    (op : rpc A) : list (string * option (list json)) :=
  (λ r, (r.1, mapM marshal r.2)) <$> requests client op.

(** Decoding of a response into a [[]map[string]interface{}]: JSON null is
    the nil slice, an array of objects (or nulls) the slice of maps, and
    anything else an error of the client. *)
Definition as_maps (v : iface) : error + list (gmap string iface) :=
  match v with
  | INil => inr []
  | IList l =>
      foldr (λ x acc,
               match x, acc with
               | IMap m, inr ms => inr (m :: ms)
               | INil, inr ms => inr (∅ :: ms)
               | _, inr _ => inl "json: cannot unmarshal into Go value of type map[string]interface {}"
               | _, inl e => inl e
               end) (inr []) l
  | _ => inl "json: cannot unmarshal into Go value of type []map[string]interface {}"
  end.

(** The loop over [ms] in [FindPrivacyGroup]: an entry that is no string
    panics, an entry that does not decode is skipped. *)
Fixpoint decode_members `{Base64Decoder} (ms : list iface)
    (members : list PublicKey) : result (list PublicKey) :=
  match ms with
  | [] => Done members
  | v :: ms' =>
      s ← assert_string v;
      match ToPublicKey s with
      | inl _ => decode_members ms' members
      | inr m => decode_members ms' (members ++ [m])
      end
  end.

(** [func (p *Privacy) FindPrivacyGroup(participants []*PublicKey) ( *Group, error)].
    [publicKeysString] is filled and then not used: the call passes
    [participants]. *)
Definition FindPrivacyGroup `{Base64Decoder} (participants : list PublicKey)
  : rpc (result (option Group * option error)) :=
  let publicKeysString := ToString <$> participants in
  CallContext "priv_findPrivacyGroup" [ArgPublicKeys participants] (λ rsp,
    Return
      match rsp with
      | inl err => Done (None, Some err)
      | inr v =>
          match as_maps v with
          | inl err => Done (None, Some err)
          | inr [] => Done (None, None)
          | inr (rsp0 :: _) =>
              ms ← assert_list (index rsp0 "members");
              members ← decode_members ms [];
              id ← assert_string (index rsp0 "privacyGroupId");
              name ← assert_string (index rsp0 "name");
              description ← assert_string (index rsp0 "description");
              type ← assert_string (index rsp0 "type");
              Done (Some {| ID := id; Name := name; Description := description;
                            Type_ := type; Members := members |}, None)
          end
      end).

(** [getCreatePrivacyGroupArgs] *)
Definition getCreatePrivacyGroupArgs (publicKeys : list PublicKey)
    (name : string) : gmap string rpc_arg :=
  let publicKeysString := ToString <$> publicKeys in
  <["name" := ArgString name]>
    (<["addresses" := ArgStrings publicKeysString]> ∅).

(** [func (p *Privacy) CreatePrivacyGroup(members []*PublicKey, name string) ( *Group, error)] *)
Definition CreatePrivacyGroup (members : list PublicKey) (name : string)
  : rpc (result (option Group * option error)) :=
  let args := getCreatePrivacyGroupArgs members name in
  CallContext "priv_createPrivacyGroup" [ArgMap args] (λ rsp,
    Return
      match rsp with
      | inl err => Done (None, Some err)
      | inr createPrivacyGroupRsp =>
          id ← assert_string createPrivacyGroupRsp;
          Done (Some {| ID := id; Name := name; Description := "";
                        Type_ := ""; Members := members |}, None)
      end).

(** [func (p *Privacy) FindRootPrivacyGroup(participants []*PublicKey) *Group] *)
Definition FindRootPrivacyGroup (participants : list PublicKey) : Group :=
  let sortParticipants := sort participants in
  let hash := rlpHash (rlp.Slice (rlp.Bytes <$> sortParticipants)) in
  {| ID := base64.EncodeToString hash; Name := ""; Description := "";
     Type_ := ""; Members := [] |}.

(** [func (p *Privacy) PrivateNonce(account common.Address, privacyGroup *Group) (uint64, error)].
    The arguments of the call are evaluated first: [privacyGroup.ID] on a
    nil group panics before a request is issued. The response is decoded
    into an [interface{}] and asserted to be a string. *)
Definition PrivateNonce `{Hexutil} (account : list byte)
    (privacyGroup : option Group) : rpc (result (Z * option error)) :=
  match privacyGroup with
  | None => Return (Panic PanicNilDereference)
  | Some group =>
      CallContext "priv_getTransactionCount"
        [ArgString (common_Address_Hex account); ArgString (ID group)] (λ rsp,
        Return
          match rsp with
          | inl err => Done (0, Some err)
          | inr getTransactionCountRsp =>
              s ← assert_string getTransactionCountRsp;
              match hexutil_DecodeUint64 s with
              | inl err => Done (0, Some err)
              | inr nonce => Done (nonce, None)
              end
          end)
  end.

(** [func (p *Privacy) PrivateNonceByParticipants(account common.Address, participants []*PublicKey) (uint64, error)] *)
Definition PrivateNonceByParticipants `{Hexutil} (account : list byte)
    (participants : list PublicKey) : rpc (result (Z * option error)) :=
  let rootGroup := FindRootPrivacyGroup participants in
  PrivateNonce account (Some rootGroup).

End privacy.

(** go-ethereum: [common], [hexutil], [core/types] and [math/big] as far
    as the receipt mapping calls them. [json_decode_Log] is the first
    half of the generated [UnmarshalJSON] of [types.Log]: it decodes the
    input into a local value and checks the required fields. *)
Class Geth : Type := {
  Log : Type;
  json_decode_Log : list byte → error + Log;
  common_HexToAddress : string → list byte;
  common_HexToHash : string → list byte;
  hexutil_Decode : string → error + list byte;
  types_BytesToBloom : list byte → result (list byte);
  big_SetString : string → Z → Z;
}.

(** ** Package types: the private transaction and the private receipt *)

(** [crypto.Sign]: the signature over a digest, or an error. *)
Class Signer : Type := {
  PrivateKey : Type;
  crypto_Sign : list byte → PrivateKey → error + list byte;
}.

Module types.

(** *** The store

    Objects live in four stores, each a list indexed by location;
    allocation appends. A pointer is [None] (nil) or a location. *)

Abbreviation loc := nat.

(** A slice: nil, or a window [off, off + len) on the backing array at
    [base], which may grow up to [cap]. *)
Record slice : Type := mkSlice {
  base : option loc;
  off : nat;
  len : nat;
  cap : nat;
}.

Definition nil_slice : slice := mkSlice None 0 0 0.

(** [type txdata struct] *)
Record txdata : Type := mkTxdata {
  AccountNonce : Z;            (* uint64 *)
  Price : option loc;          (* *big.Int *)
  GasLimit : Z;                (* uint64 *)
  Recipient : option loc;      (* *common.Address, an array of 20 bytes *)
  Amount : option loc;         (* *big.Int *)
  Payload : slice;             (* []byte *)
  V : option loc;              (* *big.Int *)
  R : option loc;
  S : option loc;
  PrivateFrom : slice;         (* []byte *)
  PrivateFor : slice;          (* [][]byte: a window on an array of slices *)
  Restriction : string;
}.

Record store : Type := mkStore {
  bigs : list Z;                   (* the big.Int objects *)
  arrays : list (list byte);       (* the byte arrays *)
  vectors : list (list slice);     (* the arrays of byte slices *)
  txs : list txdata;               (* the PrivateTransaction objects *)
}.

Definition empty_store : store := mkStore [] [] [] [].

(** Statements run on the store and return or panic. *)
Definition M (A : Type) : Type := store → result (A * store).

Global Instance M_ret : MRet M := λ A a σ, Done (a, σ).
Global Instance M_bind : MBind M := λ A B f m σ,
  match m σ with
  | Done (a, σ') => f a σ'
  | Panic p => Panic p
  end.

Definition get_store : M store := λ σ, Done (σ, σ).
Definition throw {A} (p : panic) : M A := λ _, Panic p.

(** **** Reading *)

Definition big_value (σ : store) (p : option loc) : option Z :=
  l ← p; bigs σ !! l.

Definition array_value (σ : store) (p : option loc) : option (list byte) :=
  l ← p; arrays σ !! l.

(** The bytes a slice shows. *)
Definition slice_bytes (σ : store) (s : slice) : list byte :=
  take (len s) (drop (off s) (default [] (array_value σ (base s)))).

(** The byte strings a [[][]byte] shows. *)
Definition slices_bytes (σ : store) (s : slice) : list (list byte) :=
  slice_bytes σ <$>
    take (len s) (drop (off s) (default [] (l ← base s; vectors σ !! l))).

(** Reading through a pointer; nil panics. A location outside the store
    does not arise from allocation and is treated like nil. *)
Definition load_big (p : option loc) : M Z := λ σ,
  match big_value σ p with
  | Some z => Done (z, σ)
  | None => Panic PanicNilDereference
  end.

Definition load_tx (p : option loc) : M txdata := λ σ,
  match l ← p; txs σ !! l with
  | Some d => Done (d, σ)
  | None => Panic PanicNilDereference
  end.

(** **** Allocating and writing *)

(** [new(big.Int)] followed by a setter. *)
Definition new_big (z : Z) : M loc := λ σ,
  Done (length (bigs σ),
        mkStore (bigs σ ++ [z]) (arrays σ) (vectors σ) (txs σ)).

(** [make([]byte, n)] filled with [bs]. *)
Definition new_array (bs : list byte) : M loc := λ σ,
  Done (length (arrays σ),
        mkStore (bigs σ) (arrays σ ++ [bs]) (vectors σ) (txs σ)).

(** [&PrivateTransaction{Data: d}] *)
Definition new_tx (d : txdata) : M loc := λ σ,
  Done (length (txs σ),
        mkStore (bigs σ) (arrays σ) (vectors σ) (txs σ ++ [d])).

Definition store_big (p : option loc) (z : Z) : M unit := λ σ,
  match p with
  | Some l =>
      if decide (l < length (bigs σ))%nat
      then Done ((), mkStore (<[l := z]> (bigs σ)) (arrays σ) (vectors σ) (txs σ))
      else Panic PanicNilDereference
  | None => Panic PanicNilDereference
  end.

Definition store_tx (l : loc) (d : txdata) : M unit := λ σ,
  Done ((), mkStore (bigs σ) (arrays σ) (vectors σ) (<[l := d]> (txs σ))).

(** What a caller that still holds a byte array can do to it:
    [a[i] = x]. *)
Definition write_array (l : loc) (i : nat) (x : byte) (σ : store) : store :=
  mkStore (bigs σ)
    (<[l := <[i := x]> (default [] (arrays σ !! l))]> (arrays σ))
    (vectors σ) (txs σ).

(** **** math/big *)

(** [z.Set(x)] *)
Definition big_Set (z x : option loc) : M unit :=
  v ← load_big x; store_big z v.

(** [x.Uint64()]: the low 64 bits of the absolute value. *)
Definition big_Uint64 (x : Z) : Z := Int.uint64 (Z.abs x).

(** **** common *)

(** [common.CopyBytes] *)
Definition CopyBytes (b : slice) : M slice :=
  match base b with
  | None => (mret nil_slice : M slice)
  | Some _ =>
      σ ← get_store;
      l ← new_array (slice_bytes σ b);
      (mret (mkSlice (Some l) 0 (len b) (len b)) : M slice)
  end.

(** *** The transaction *)

(** [newTransaction] *)
Definition newTransaction (nonce : Z) (to : option loc) (amount : option loc)
    (gasLimit : Z) (gasPrice : option loc) (data privateFrom privateFor : slice)
  : M (option loc) :=
  data ← (if decide (0 < len data)%nat then CopyBytes data
          else (mret data : M slice));
  dAmount ← new_big 0;
  dPrice ← new_big 0;
  dV ← new_big 0;
  dR ← new_big 0;
  dS ← new_big 0;
  let d := {|
    AccountNonce := nonce;
    Recipient := to;
    Payload := data;
    Amount := Some dAmount;
    GasLimit := gasLimit;
    Price := Some dPrice;
    PrivateFrom := privateFrom;
    PrivateFor := privateFor;
    Restriction := "restricted";
    V := Some dV;
    R := Some dR;
    S := Some dS;
  |} in
  _ ← (if decide (amount ≠ None) then big_Set (Amount d) amount
       else (mret () : M unit));
  _ ← (if decide (gasPrice ≠ None) then big_Set (Price d) gasPrice
       else (mret () : M unit));
  tx ← new_tx d;
  (mret (Some tx) : M (option loc)).

(** [NewContractCreation] *)
Definition NewContractCreation (nonce : Z) (amount : option loc) (gasLimit : Z)
    (gasPrice : option loc) (data privateFrom privateFor : slice)
  : M (option loc) :=
  newTransaction nonce None amount gasLimit gasPrice data privateFrom privateFor.

(** [rlpHash] of package types: the error of the encoder is dropped and
    the digest is taken of what has been written. *)
Definition rlpHash (x : rlp.value) : list byte :=
  sha3.Keccak256 (snd (rlp.Encode x)).

(** The values [hash] puts into the [[]interface{}], pointers and slices
    read at the time of the call. *)
Definition hash_fields (σ : store) (d : txdata) (chainID : option loc)
  : list rlp.value :=
  [ rlp.Uint (AccountNonce d);
    rlp.BigIntPtr (big_value σ (Price d));
    rlp.Uint (GasLimit d);
    rlp.AddressPtr (array_value σ (Recipient d));
    rlp.BigIntPtr (big_value σ (Amount d));
    rlp.Bytes (slice_bytes σ (Payload d));
    rlp.BigIntPtr (big_value σ chainID); rlp.Uint 0; rlp.Uint 0;
    rlp.Bytes (slice_bytes σ (PrivateFrom d));
    rlp.Slice (rlp.Bytes <$> slices_bytes σ (PrivateFor d));
    rlp.String (Restriction d) ].

(** [hash] *)
Definition hash (tx : option loc) (chainID : option loc) : M (list byte) :=
  d ← load_tx tx;
  σ ← get_store;
  (mret (rlpHash (rlp.Slice (hash_fields σ d chainID))) : M (list byte)).

(** [crypto.SignatureLength] *)
Definition SignatureLength : nat := 65.

(** [signatureValues]. The one-byte slice [[]byte{sig[64] + 27}] is a
    temporary; the addition is on bytes and wraps at 256. *)
Definition signatureValues (tx : option loc) (sig : slice)
  : M (option loc * option loc * option loc * option error) :=
  if decide (len sig ≠ SignatureLength) then
    throw (PanicMessage ("wrong size for signature: got " +:+ pretty (len sig)
                         +:+ ", want " +:+ pretty SignatureLength))
  else
    σ ← get_store;
    let sig := slice_bytes σ sig in
    r ← new_big (be_value (take 32 sig));
    s ← new_big (be_value (take 32 (drop 32 sig)));
    v ← new_big
          (be_value [byte_of_Z (byte_to_Z (default "000"%byte (sig !! 64%nat)) + 27)]);
    (mret (Some r, Some s, Some v, None)
     : M (option loc * option loc * option loc * option error)).

(** [withSignature] *)
Definition withSignature (tx : option loc) (sig : slice) (chainID : option loc)
  : M (option loc * option error) :=
  '(r, s, v, err) ← signatureValues tx sig;
  match err with
  | Some err => (mret (None, Some err) : M (option loc * option error))
  | None =>
      vz ← load_big v;
      cz ← load_big chainID;
      let newV :=
        Int.uint64 (Int.uint64 (big_Uint64 vz + Int.uint64 (big_Uint64 cz * 2)) + 8) in
      d ← load_tx tx;
      cpy ← new_tx d;
      nv ← new_big newV;
      _ ← store_tx cpy
            (mkTxdata (AccountNonce d) (Price d) (GasLimit d) (Recipient d)
               (Amount d) (Payload d) (Some nv) r s (PrivateFrom d)
               (PrivateFor d) (Restriction d));
      (mret (Some cpy, None) : M (option loc * option error))
  end.

(** [func (tx *PrivateTransaction) SignTx(chainID *big.Int, prv *ecdsa.PrivateKey)].
    The signature [crypto.Sign] returns is a fresh slice. *)
Definition SignTx `{Signer} (tx : option loc) (chainID : option loc)
    (prv : PrivateKey) : M (option loc * option error) :=
  h ← hash tx chainID;
  match crypto_Sign h prv with
  | inl err => (mret (None, Some err) : M (option loc * option error))
  | inr bs =>
      a ← new_array bs;
      let sig := mkSlice (Some a) 0 (length bs) (length bs) in
      withSignature tx sig chainID
  end.

(** **** The store after a signature has been attached

    Closed forms of what [withSignature] allocates, used to state what it
    returns. *)

Definition sig_r (sig : list byte) : Z := be_value (take 32 sig).
Definition sig_s (sig : list byte) : Z := be_value (take 32 (drop 32 sig)).
Definition sig_v (sig : list byte) : Z :=
  be_value [byte_of_Z (byte_to_Z (default "000"%byte (sig !! 64%nat)) + 27)].

(** [v.Uint64() + chainID.Uint64()*2 + 8] on [uint64]. *)
Definition folded_v (v c : Z) : Z :=
  Int.uint64 (Int.uint64 (big_Uint64 v + Int.uint64 (big_Uint64 c * 2)) + 8).

(** The copy of [d] whose [R], [S] and [V] are the three objects
    allocated from location [n] on, [V] after the temporary [v]. *)
Definition signed_txdata (d : txdata) (n : nat) : txdata :=
  mkTxdata (AccountNonce d) (Price d) (GasLimit d) (Recipient d) (Amount d)
    (Payload d) (Some (n + 3)%nat) (Some n) (Some (n + 1)%nat)
    (PrivateFrom d) (PrivateFor d) (Restriction d).

Definition signed_store (σ : store) (d : txdata) (c : Z) (sig : list byte)
  : store :=
  mkStore
    (bigs σ ++ [sig_r sig; sig_s sig; sig_v sig; folded_v (sig_v sig) c])
    (arrays σ) (vectors σ)
    (txs σ ++ [signed_txdata d (length (bigs σ))]).

(** The digest [SignTx] signs. *)
Definition digest (σ : store) (d : txdata) (chainID : option loc) : list byte :=
  rlpHash (rlp.Slice (hash_fields σ d chainID)).

(** The unsigned fields of two transactions are the same values, pointers
    and slices. *)
Definition same_unsigned_fields (d d' : txdata) : Prop :=
  AccountNonce d' = AccountNonce d ∧ Price d' = Price d
  ∧ GasLimit d' = GasLimit d ∧ Recipient d' = Recipient d
  ∧ Amount d' = Amount d ∧ Payload d' = Payload d
  ∧ PrivateFrom d' = PrivateFrom d ∧ PrivateFor d' = PrivateFor d
  ∧ Restriction d' = Restriction d.

(** Every object of [σ] is in [σ'], with the content it had. *)
Definition preserved (σ σ' : store) : Prop :=
  bigs σ `prefix_of` bigs σ' ∧ arrays σ `prefix_of` arrays σ'
  ∧ vectors σ `prefix_of` vectors σ' ∧ txs σ `prefix_of` txs σ'.

(** Writes a caller does, one after the other. *)
Definition write_arrays (ws : list (loc * nat * byte)) (σ : store) : store :=
  fold_left (λ σ w, write_array w.1.1 w.1.2 w.2 σ) ws σ.

(** *** The receipt *)

(** [type PrivateReceipt struct]. [Logs] holds pointers. *)
Record PrivateReceipt `{Geth} : Type := mkPrivateReceipt {
  PostState : list byte;
  Status : Z;
  Bloom : list byte;
  Logs : list (option Log);
  TxHash : list byte;
  ContractAddress : list byte;
  BlockHash : list byte;
  BlockNumber : option Z;
  TransactionIndex : Z;
  Receipt_PrivateFrom : privacy.PublicKey;
  Receipt_PrivateFor : list privacy.PublicKey;
  Receipt_Restriction : string;
  CommitmentHash : list byte;
  Output : list byte;
}.

(** [func (l *Log) UnmarshalJSON(input []byte) error] of go-ethereum, as
    generated: the input is decoded into a local value, an error of that
    step is returned before the receiver is touched, and the fields are
    then assigned through the receiver. Returns the receiver's new
    pointee and the error. *)
Definition Log_UnmarshalJSON `{Geth} (l : option Log) (input : list byte)
  : result (option Log * option error) :=
  match json_decode_Log input with
  | inl err => Done (l, Some err)
  | inr dec =>
      match l with
      | None => Panic PanicNilDereference
      | Some _ => Done (Some dec, None)
      end
  end.

(** The loop over [r["privateFor"]]. *)
Fixpoint decode_privateFor `{Base64Decoder} (vs : list iface)
    (privateFor : list privacy.PublicKey) : result (list privacy.PublicKey) :=
  match vs with
  | [] => Done privateFor
  | v :: vs' =>
      s ← assert_string v;
      match privacy.ToPublicKey s with
      | inl _ => decode_privateFor vs' privateFor
      | inr key => decode_privateFor vs' (privateFor ++ [key])
      end
  end.

(** The loop over [r["logs"]]: [var log *types.Log] is nil when
    [UnmarshalJSON] is called on it. *)
Fixpoint decode_logs `{Geth} (vs : list iface) (logs : list (option Log))
  : result (list (option Log)) :=
  match vs with
  | [] => Done logs
  | v :: vs' =>
      let log : option Log := None in
      input ← assert_bytes v;
      '(log, err) ← Log_UnmarshalJSON log input;
      match err with
      | Some _ => decode_logs vs' logs
      | None => decode_logs vs' (logs ++ [log])
      end
  end.

Definition zero_Address : list byte := replicate 20 "000"%byte.

(** [MarshalPrivateReceipt] *)
Definition MarshalPrivateReceipt `{Base64Decoder, Geth} (r : gmap string iface)
  : result (error + PrivateReceipt) :=
  contractAddress ←
    match r !! "contractAddress" with
    | Some v => s ← assert_string v; Done (common_HexToAddress s)
    | None => Done zero_Address
    end;
  output ←
    match r !! "output" with
    | Some v =>
        s ← assert_string v;
        Done (match hexutil_Decode s with inr b => b | inl _ => [] end)
    | None => Done []
    end;
  if decide (r !! "commitmentHash" = None) then
    Done (inl "commitmentHash not found")
  else
  s ← assert_string (index r "commitmentHash");
  let commitmentHash := common_HexToHash s in
  if decide (r !! "transactionHash" = None) then
    Done (inl "transactionHash not found")
  else
  s ← assert_string (index r "transactionHash");
  let transactionHash := common_HexToHash s in
  if decide (r !! "privateFrom" = None) then
    Done (inl "privateFrom not found")
  else
  s ← assert_string (index r "privateFrom");
  match privacy.ToPublicKey s with
  | inl err => Done (inl err)
  | inr privateFrom =>
  if decide (r !! "privateFor" = None) then
    Done (inl "privateFor not found")
  else
  vs ← assert_list (index r "privateFor");
  privateFor ← decode_privateFor vs [];
  status ←
    match r !! "status" with
    | Some v =>
        s ← assert_string v;
        Done (if decide (s = "0x1") then 1 else 0)
    | None => Done 0
    end;
  if decide (r !! "logs" = None) then
    Done (inl "logs not found")
  else
  vs ← assert_list (index r "logs");
  logs ← decode_logs vs [];
  if decide (r !! "logsBloom" = None) then
    Done (inl "logsBloom not found")
  else
  logsBloomString ← assert_string (index r "logsBloom");
  match hexutil_Decode logsBloomString with
  | inl err =>
      Done (inl ("failed to Decode " +:+ logsBloomString +:+ ", err: " +:+ err))
  | inr logsBloomBytes =>
  logsBloom ← types_BytesToBloom logsBloomBytes;
  blockHash ←
    match r !! "blockHash" with
    | Some v => s ← assert_string v; Done (common_HexToHash s)
    | None => Done privacy.zero_Hash
    end;
  blockNumber ←
    match r !! "blockNumber" with
    | Some v => s ← assert_string v; Done (Some (big_SetString s 16))
    | None => Done None
    end;
  transactionIndex ←
    match r !! "transactionIndex" with
    | Some v => s ← assert_string v; Done (big_Uint64 (big_SetString s 16))
    | None => Done 0
    end;
  Done (inr {|
    PostState := [];
    Status := status;
    Bloom := logsBloom;
    Logs := logs;
    TxHash := transactionHash;
    ContractAddress := contractAddress;
    BlockHash := blockHash;
    BlockNumber := blockNumber;
    TransactionIndex := transactionIndex;
    Receipt_PrivateFrom := privateFrom;
    Receipt_PrivateFor := privateFor;
    Receipt_Restriction := "restricted";
    CommitmentHash := commitmentHash;
    Output := output;
  |})
  end
  end.

(** **** Well-formed pointers and what else a caller can do *)

(** A pointer to a [big.Int] is nil or points into the store. *)
Definition valid_big (σ : store) (p : option loc) : Prop :=
  match p with
  | Some l => (l < length (bigs σ))%nat
  | None => True
  end.

(** A pointer to a byte array is nil or points into the store. *)
Definition valid_array (σ : store) (p : option loc) : Prop :=
  match p with
  | Some l => (l < length (arrays σ))%nat
  | None => True
  end.

(** A byte slice is nil or a window on an array of the store. *)
Definition valid_slice (σ : store) (s : slice) : Prop :=
  valid_array σ (base s).

(** A [[][]byte] is nil or a window on an array of valid byte slices. *)
Definition valid_slices (σ : store) (s : slice) : Prop :=
  match base s with
  | Some l =>
      ∃ v, vectors σ !! l = Some v ∧ Forall (valid_slice σ) v
  | None => True
  end.

(** Every pointer of a transaction points into the store. *)
Definition valid_txdata (σ : store) (d : txdata) : Prop :=
  valid_big σ (Price d) ∧ valid_big σ (Amount d)
  ∧ valid_array σ (Recipient d)
  ∧ valid_slice σ (Payload d) ∧ valid_slice σ (PrivateFrom d)
  ∧ valid_slices σ (PrivateFor d).

(** What a caller that still holds a [*big.Int] can do to it:
    [x.SetInt64(z)] and the like. *)
Definition write_big (l : loc) (z : Z) (σ : store) : store :=
  mkStore (<[l := z]> (bigs σ)) (arrays σ) (vectors σ) (txs σ).

(** **** The encoding for the wire

    [rlp.EncodeToBytes(tx)] on a [*PrivateTransaction], as the README
    calls it on the signed transaction. The encoder walks the exported
    fields of a struct in the order of their declaration:
    [PrivateTransaction] has the one field [Data], and [txdata] the
    twelve fields below. A nil transaction is written as the empty
    list. *)
Definition txdata_fields (σ : store) (d : txdata) : list rlp.value :=
  [ rlp.Uint (AccountNonce d);
    rlp.BigIntPtr (big_value σ (Price d));
    rlp.Uint (GasLimit d);
    rlp.AddressPtr (array_value σ (Recipient d));
    rlp.BigIntPtr (big_value σ (Amount d));
    rlp.Bytes (slice_bytes σ (Payload d));
    rlp.BigIntPtr (big_value σ (V d));
    rlp.BigIntPtr (big_value σ (R d));
    rlp.BigIntPtr (big_value σ (S d));
    rlp.Bytes (slice_bytes σ (PrivateFrom d));
    rlp.Slice (rlp.Bytes <$> slices_bytes σ (PrivateFor d));
    rlp.String (Restriction d) ].

Definition EncodeToBytes (σ : store) (tx : option loc) : error + list byte :=
  match l ← tx; txs σ !! l with
  | Some d => rlp.encode (rlp.Slice [rlp.Slice (txdata_fields σ d)])
  | None => rlp.encode (rlp.Slice [])
  end.

(** **** Shapes of a response map *)

(** The entry under [key] is absent or a string. *)
Definition optional_string (r : gmap string iface) (key : string) : Prop :=
  ∀ v, r !! key = Some v → ∃ s, v = IString s.

(** The entry under [key] is a string. *)
Definition has_string (r : gmap string iface) (key : string) : Prop :=
  ∃ s, r !! key = Some (IString s).

(** The map passes everything [MarshalPrivateReceipt] does before it
    looks at [key]: the optional entries before it are strings when
    present, the required entries before it are present with the type
    asserted on them, and [privateFrom] decodes. *)
Definition passes_before_commitmentHash (r : gmap string iface) : Prop :=
  optional_string r "contractAddress" ∧ optional_string r "output".

Definition passes_before_transactionHash (r : gmap string iface) : Prop :=
  passes_before_commitmentHash r ∧ has_string r "commitmentHash".

Definition passes_before_logs `{Base64Decoder} (r : gmap string iface) : Prop :=
  passes_before_transactionHash r ∧ has_string r "transactionHash"
  ∧ (∃ s key, r !! "privateFrom" = Some (IString s)
              ∧ privacy.ToPublicKey s = inr key)
  ∧ (∃ vs, r !! "privateFor" = Some (IList vs)
           ∧ Forall (λ v, ∃ s, v = IString s) vs)
  ∧ optional_string r "status".

(** A log entry that the loop skips: a byte slice that [UnmarshalJSON]
    returns an error for. *)
Definition skipped `{Geth} (v : iface) : Prop :=
  ∃ b e, v = IBytes b ∧ json_decode_Log b = inl e.

(** The mapping has returned a receipt. *)
Definition returns_receipt `{Geth} (res : result (error + PrivateReceipt))
  : bool :=
  match res with
  | Done (inr _) => true
  | _ => false
  end.

(** The message of an error names a field. *)
Definition names (field : string) (msg : error) : bool :=
  match String.index 0 field msg with
  | Some _ => true
  | None => false
  end.

End types.

(** ** The specification's own words

    Definitions that follow the text of the specification, to be compared
    with the functions above. *)

Module spec.

(** The recurrence of the ordering hash:
    [acc = (31*acc + signExtend8to32(byte)) mod 2^32], read as signed. *)
Definition accumulate (acc : Z) (b : byte) : Z :=
  Int.signed 32 ((31 * acc + sign_extend_8 b) `mod` 2 ^ 32).

(** The key that survives for the accumulator value [h]: the last
    participant with that value, every earlier one being overwritten. *)
Definition survivor (h : Z) (participants : list privacy.PublicKey)
  : option privacy.PublicKey :=
  last (filter (λ p, privacy.Hash p = h) participants).

(** The field sequence of the signing digest, in its fixed order: nonce,
    gasPrice, gasLimit, recipient (or the empty marker), value, payload,
    chainId, the literal 0, the literal 0, privateFrom, privateFor as a
    nested list of byte strings, restriction. *)
Definition signing_fields (nonce gasPrice gasLimit : Z)
    (recipient : option (list byte)) (value : Z) (payload : list byte)
    (chainId : Z) (privateFrom : list byte) (privateFor : list (list byte))
    (restriction : string) : RLP.item :=
  RLP.List
    [ RLP.of_int nonce; RLP.of_int gasPrice; RLP.of_int gasLimit;
      RLP.of_optional recipient; RLP.of_int value; RLP.Str payload;
      RLP.of_int chainId; RLP.of_int 0; RLP.of_int 0;
      RLP.Str privateFrom; RLP.List (RLP.Str <$> privateFor);
      RLP.Str (bytes_of_string restriction) ].

(** [signingDigest]: the digest function applied to the canonical
    encoding of the field sequence. *)
Definition signingDigest (fields : RLP.item) : list byte :=
  sha3.Keccak256 (RLP.encode fields).

End spec.

(** ** Sample data *)

Module sample.

(** The three privacy-manager keys of the README, decoded from base64:
    [A1aVtMxLCUHmBVHXoZzzBgPbW/wj5axDpW9X8l91SGo=],
    [Ko2bVqD+nNlNYL5EE7y3IdOnviftjiizpjRt+HTuFBs=] and
    [k2zXEin4Ip/qBGlRkJejnGWdP9cjkK+DAvKNW31L2C8=]. *)
Definition privateFrom : list byte :=
  [x03; x56; x95; xb4; xcc; x4b; x09; x41; xe6; x05; x51; xd7; xa1; x9c; xf3;
   x06; x03; xdb; x5b; xfc; x23; xe5; xac; x43; xa5; x6f; x57; xf2; x5f; x75;
   x48; x6a].
Definition privateFor1 : list byte :=
  [x2a; x8d; x9b; x56; xa0; xfe; x9c; xd9; x4d; x60; xbe; x44; x13; xbc; xb7;
   x21; xd3; xa7; xbe; x27; xed; x8e; x28; xb3; xa6; x34; x6d; xf8; x74; xee;
   x14; x1b].
Definition privateFor2 : list byte :=
  [x93; x6c; xd7; x12; x29; xf8; x22; x9f; xea; x04; x69; x51; x90; x97; xa3;
   x9c; x65; x9d; x3f; xd7; x23; x90; xaf; x83; x02; xf2; x8d; x5b; x7d; x4b;
   xd8; x2f].

(** The call data of the README: selector [0121b93f] and the argument 2. *)
Definition data : list byte :=
  [x01; x21; xb9; x3f] ++ replicate 31 x00 ++ [x02].

(** The store of a caller before it builds the transaction: the network
    id 2018 and the gas price 0 as [big.Int] objects, the call data and
    the three keys as byte arrays, and the array of the two [privateFor]
    slices. *)
Definition caller_store : types.store :=
  types.mkStore [2018; 0]
    [data; privateFrom; privateFor1; privateFor2]
    [[types.mkSlice (Some 2%nat) 0 32 32; types.mkSlice (Some 3%nat) 0 32 32]]
    [].

Definition data_slice : types.slice := types.mkSlice (Some 0%nat) 0 36 36.
Definition privateFrom_slice : types.slice := types.mkSlice (Some 1%nat) 0 32 32.
Definition privateFor_slice : types.slice := types.mkSlice (Some 0%nat) 0 2 2.

(** The store after
    [NewContractCreation(0, nil, 3000000, gasPrice, data, privateFrom, privateFor)]:
    the transaction is object 0. *)
Definition besutx_store : types.store :=
  Eval vm_compute in
    match types.NewContractCreation 0 None 3000000 (Some 1%nat) data_slice
            privateFrom_slice privateFor_slice caller_store with
    | Done (_, σ) => σ
    | Panic _ => caller_store
    end.

(** The fields of that transaction. *)
Definition besutx : types.txdata :=
  Eval vm_compute in
    default
      (types.mkTxdata 0 None 0 None None types.nil_slice None None None
         types.nil_slice types.nil_slice "")
      (types.txs besutx_store !! 0%nat).

(** A store with one more [big.Int]. *)
Definition with_big (z : Z) (σ : types.store) : types.store :=
  types.mkStore (types.bigs σ ++ [z]) (types.arrays σ) (types.vectors σ)
    (types.txs σ).

(** A raw signature of 65 bytes with the given last byte, as a byte array
    appended to the store, and the slice on it. *)
Definition raw_signature (last : byte) : list byte :=
  replicate 32 x11 ++ replicate 32 x22 ++ [last].
Definition with_array (a : list byte) (σ : types.store) : types.store :=
  types.mkStore (types.bigs σ) (types.arrays σ ++ [a]) (types.vectors σ)
    (types.txs σ).
Definition whole (σ : types.store) (n : nat) : types.slice :=
  types.mkSlice (Some (length (types.arrays σ))) 0 n n.

(** A stand-in for [crypto.Sign] that depends on the digest only: the
    digest twice, and the recovery id 0. *)
Definition stub_signer : Signer :=
  {| PrivateKey := unit;
     crypto_Sign := λ h _, inr (take 64 (h ++ h) ++ [x00]) |}.

(** The store after [besutx.SignTx(networkID, privateKey)] with that
    signer: the signed transaction is object 1. *)
Definition signed_besutx_store : types.store :=
  Eval vm_compute in
    match @types.SignTx stub_signer (Some 0%nat) (Some 0%nat) () besutx_store with
    | Done (_, σ) => σ
    | Panic _ => besutx_store
    end.

(** A signing primitive that returns 64 bytes. *)
Definition short_signer : Signer :=
  {| PrivateKey := unit;
     crypto_Sign := λ h _, inr (take 64 (h ++ h)) |}.

(** A decoder of base64 for input in canonical form: groups of four
    characters of the alphabet, the last one padded with [=]. (The
    decoder of Go also skips line breaks.) *)
Definition base64_value (c : ascii) : option Z :=
  (λ i : nat, Z.of_nat i) <$>
    list_find (λ a, a = c) base64.alphabet ≫= λ p, Some p.1.

Definition is_pad (c : ascii) : bool := Ascii.eqb c "="%char.

Fixpoint base64_decode (cs : list ascii) : option (list byte) :=
  match cs with
  | [] => Some []
  | a :: b :: c :: d :: rest =>
      va ← base64_value a;
      vb ← base64_value b;
      if is_pad c && is_pad d then
        match rest with
        | [] => Some [byte_of_Z (Z.lor (Z.shiftl va 2) (Z.shiftr vb 4))]
        | _ => None
        end
      else
        vc ← base64_value c;
        if is_pad d then
          match rest with
          | [] => Some [byte_of_Z (Z.lor (Z.shiftl va 2) (Z.shiftr vb 4));
                        byte_of_Z (Z.lor (Z.shiftl vb 4) (Z.shiftr vc 2))]
          | _ => None
          end
        else
          vd ← base64_value d;
          tail ← base64_decode rest;
          Some (byte_of_Z (Z.lor (Z.shiftl va 2) (Z.shiftr vb 4))
                :: byte_of_Z (Z.lor (Z.shiftl vb 4) (Z.shiftr vc 2))
                :: byte_of_Z (Z.lor (Z.shiftl vc 6) vd) :: tail)
  | _ => None
  end.

Definition canonical_base64 : Base64Decoder :=
  {| base64_DecodeString := λ s,
       match base64_decode (String.list_ascii_of_string s) with
       | Some bs => inr bs
       | None => inl "illegal base64 data"
       end |}.

(** Hexadecimal digits to bytes, two digits a byte. *)
Definition hex_value (c : ascii) : option Z :=
  (λ i : nat, Z.of_nat (i `mod` 16)) <$>
    list_find (λ a, a = c)
      (String.list_ascii_of_string "0123456789abcdefABCDEF") ≫= λ p,
        Some (if decide (p.1 < 16)%nat then p.1 else (p.1 - 6)%nat).

Fixpoint hex_decode (cs : list ascii) : option (list byte) :=
  match cs with
  | [] => Some []
  | a :: b :: rest =>
      va ← hex_value a;
      vb ← hex_value b;
      tail ← hex_decode rest;
      Some (byte_of_Z (16 * va + vb) :: tail)
  | _ => None
  end.

(** The digits after the prefix [0x]. *)
Definition strip_0x (s : string) : option (list ascii) :=
  match String.list_ascii_of_string s with
  | "0"%char :: "x"%char :: cs => Some cs
  | _ => None
  end.

(** The last [n] bytes, padded with zeros on the left. *)
Definition right_aligned (n : nat) (bs : list byte) : list byte :=
  replicate (n - length bs) x00 ++ drop (length bs - n) bs.

(** Stand-ins for the functions of go-ethereum. The log decoder rejects
    what does not open a JSON object, and accepts everything else. *)
Definition stub_geth : Geth :=
  {| Log := list byte;
     json_decode_Log := λ input,
       match input with
       | "{"%byte :: _ => inr input
       | _ => inl "invalid character looking for beginning of value"
       end;
     common_HexToAddress := λ s,
       right_aligned 20 (default [] (strip_0x s ≫= hex_decode));
     common_HexToHash := λ s,
       right_aligned 32 (default [] (strip_0x s ≫= hex_decode));
     hexutil_Decode := λ s,
       match strip_0x s ≫= hex_decode with
       | Some bs => inr bs
       | None => inl "invalid hex string"
       end;
     types_BytesToBloom := λ bs,
       if decide (length bs ≤ 256)%nat then Done (right_aligned 256 bs)
       else Panic (PanicMessage "bloom bytes too big");
     big_SetString := λ s base,
       be_value (default [] (hex_decode (String.list_ascii_of_string s)));
  |}.

(** A receipt response with every required field but [logs]. *)
Definition response_without_logs : gmap string iface :=
  list_to_map
    [ ("contractAddress", IString "0xaa56458ec6440e480f38be8de3a1abca3a95b7ea");
      ("output", IString "0x");
      ("commitmentHash", IString "0x11");
      ("transactionHash", IString "0x22");
      ("privateFrom", IString "A1aVtMxLCUHmBVHXoZzzBgPbW/wj5axDpW9X8l91SGo=");
      ("privateFor",
       IList [IString "Ko2bVqD+nNlNYL5EE7y3IdOnviftjiizpjRt+HTuFBs="]);
      ("status", IString "0x1");
      ("logsBloom", IString "0x00") ].

(** The same response with a list of log entries. *)
Definition response_with_logs (logs : list iface) : gmap string iface :=
  <["logs" := IList logs]> response_without_logs.

(** A stand-in for the two functions of [Hexutil]: the address in lower
    case without checksum, and numbers of hexadecimal digits after
    [0x]. *)
Definition stub_hexutil : Hexutil :=
  {| common_Address_Hex := λ a, "0x" +:+ to_hex a;
     hexutil_DecodeUint64 := λ s,
       match strip_0x s with
       | Some cs =>
           match mapM hex_value cs with
           | Some ds => inr (fold_left (λ acc d, acc * 16 + d) ds 0)
           | None => inl "invalid hex string"
           end
       | None => inl "hex string without 0x prefix"
       end |}.

(** The account of the README. *)
Definition fromAddress : list byte :=
  [xfe; x3b; x55; x7e; x8f; xb6; x2b; x89; xf4; x91; x6b; x72; x1b; xe5; x5c;
   xeb; x82; x8d; xbd; x73].

(** A record of a [priv_findPrivacyGroup] response, the second of its
    three members no base64. *)
Definition group_record : gmap string iface :=
  list_to_map
    [ ("privacyGroupId", IString "DyAOiF/ynpc+JXa2YAGB0bCitSlOMNm+ShmB/7M6C4w=");
      ("name", IString "Group");
      ("description", IString "two nodes");
      ("type", IString "PANTHEON");
      ("members",
       IList [IString "A1aVtMxLCUHmBVHXoZzzBgPbW/wj5axDpW9X8l91SGo=";
              IString "not base64";
              IString "Ko2bVqD+nNlNYL5EE7y3IdOnviftjiizpjRt+HTuFBs="]) ].

(** A node that answers every request with the same response. *)
Definition node (response : error + iface)
  : string → list privacy.rpc_arg → error + iface :=
  λ _ _, response.

(** Two distinct keys with the same ordering hash, 992. *)
Definition colliding1 : list byte := [x00; x1f].
Definition colliding2 : list byte := [x01; x00].

End sample.

(** * Properties *)

(** ** Fixed-width integers and bytes *)

Lemma signed_small w x :
  0 < w → - 2 ^ (w - 1) ≤ x < 2 ^ (w - 1) → Int.signed w x = x.
Proof.
  intros Hw Hx. unfold Int.signed.
  assert (2 ^ w = 2 * 2 ^ (w - 1)) as E.
  { rewrite <- Z.pow_succ_r by lia. f_equal. lia. }
  rewrite Z.mod_small; lia.
Qed.

Lemma signed_range w x :
  0 < w → - 2 ^ (w - 1) ≤ Int.signed w x < 2 ^ (w - 1).
Proof.
  intros Hw. unfold Int.signed.
  assert (2 ^ w = 2 * 2 ^ (w - 1)) as E.
  { rewrite <- Z.pow_succ_r by lia. f_equal. lia. }
  assert (0 < 2 ^ (w - 1)) by (apply Z.pow_pos_nonneg; lia).
  pose proof (Z.mod_pos_bound (x + 2 ^ (w - 1)) (2 ^ w)). lia.
Qed.

Lemma signed_mod w x : 0 < w → Int.signed w (x `mod` 2 ^ w) = Int.signed w x.
Proof.
  intros Hw. unfold Int.signed.
  assert (0 < 2 ^ w) by (apply Z.pow_pos_nonneg; lia).
  rewrite Z.add_mod_idemp_l by lia. reflexivity.
Qed.

Lemma byte_to_Z_range b : 0 ≤ byte_to_Z b < 256.
Proof.
  unfold byte_to_Z. pose proof (Byte.to_N_bounded b). lia.
Qed.

Lemma byte_to_of_Z z : byte_to_Z (byte_of_Z z) = z `mod` 256.
Proof.
  unfold byte_to_Z, byte_of_Z, Int.uint8, Int.unsigned.
  change (2 ^ 8) with 256.
  pose proof (Z.mod_pos_bound z 256 eq_refl) as [H0 H1].
  destruct (Byte.of_N (Z.to_N (z `mod` 256))) as [b|] eqn:E.
  - apply Byte.to_of_N in E. simpl. rewrite E. lia.
  - apply Byte.of_N_None_iff in E. lia.
Qed.

Lemma byte_of_to_Z b : byte_of_Z (byte_to_Z b) = b.
Proof.
  unfold byte_to_Z, byte_of_Z, Int.uint8, Int.unsigned.
  change (2 ^ 8) with 256.
  pose proof (Byte.to_N_bounded b).
  rewrite Z.mod_small by lia. rewrite N2Z.id, Byte.of_to_N. reflexivity.
Qed.

(** [be_value] reads back what [be_bytes] writes: the fuel of
    [be_bytes] never runs out before the number does. *)
Lemma be_value_from acc l :
  fold_left (λ acc b, acc * 256 + byte_to_Z b) l acc
  = acc * 256 ^ Z.of_nat (length l) + be_value l.
Proof.
  unfold be_value. revert acc.
  induction l as [|b l IH]; intros acc; [simpl; lia|].
  cbn [fold_left length]. rewrite IH, (IH (0 * 256 + byte_to_Z b)).
  rewrite Nat2Z.inj_succ, Z.pow_succ_r by lia. lia.
Qed.

Lemma be_value_app l1 l2 :
  be_value (l1 ++ l2) = be_value l1 * 256 ^ Z.of_nat (length l2) + be_value l2.
Proof.
  unfold be_value at 1. rewrite fold_left_app. apply be_value_from.
Qed.

Lemma be_value_be_bytes_aux fuel n acc :
  0 ≤ n < 2 ^ Z.of_nat fuel →
  be_value (be_bytes_aux fuel n acc)
  = n * 256 ^ Z.of_nat (length acc) + be_value acc.
Proof.
  revert n acc. induction fuel as [|fuel IH]; intros n acc Hn; simpl.
  - simpl in Hn. assert (n = 0) as -> by lia. lia.
  - destruct (Z.leb_spec n 0); [assert (n = 0) as -> by lia; lia|].
    rewrite Nat2Z.inj_succ, Z.pow_succ_r in Hn by lia.
    rewrite IH.
    + change (byte_of_Z n :: acc) with ([byte_of_Z n] ++ acc).
      rewrite be_value_app. simpl length.
      rewrite Nat2Z.inj_succ, Z.pow_succ_r by lia.
      unfold be_value at 1. simpl. rewrite byte_to_of_Z.
      pose proof (Z.div_mod n 256). lia.
    + split; [apply Z.div_pos; lia|].
      apply Z.div_lt_upper_bound; lia.
Qed.

Lemma be_value_be_bytes n : 0 ≤ n → be_value (be_bytes n) = n.
Proof.
  intros Hn. unfold be_bytes. rewrite be_value_be_bytes_aux.
  - simpl. unfold be_value. simpl. lia.
  - split; [done|]. destruct (decide (n = 0)) as [->|]; [done|].
    replace (Z.of_nat (Z.to_nat (Z.log2 n) + 1)) with (Z.succ (Z.log2 n))
      by (pose proof (Z.log2_nonneg n); lia).
    apply Z.log2_spec. lia.
Qed.

(** ** The library models on known values *)

Section known_values.

(** Keccak-256 of the empty input and of [abc]. *)
Example Keccak256_empty :
  to_hex (sha3.Keccak256 [])
  = "c5d2460186f7233c927e7db2dcc703c0e500b653ca82273b7bfad8045d85a470".
Proof. vm_compute. reflexivity. Qed.

Example Keccak256_abc :
  to_hex (sha3.Keccak256 (bytes_of_string "abc"))
  = "4e03657aea45a94fc7d47ba826c8d667c0d1e6e33a64a036ec44f58fa12d6c45".
Proof. vm_compute. reflexivity. Qed.

(** The canonical encoding of the string [dog], of the list of [cat] and
    [dog], of the empty list, and of the integers 0, 15 and 1024. *)
Example RLP_examples :
  to_hex (RLP.encode (RLP.Str (bytes_of_string "dog"))) = "83646f67"
  ∧ to_hex (RLP.encode (RLP.List [RLP.Str (bytes_of_string "cat");
                                  RLP.Str (bytes_of_string "dog")]))
    = "c88363617483646f67"
  ∧ to_hex (RLP.encode (RLP.List [])) = "c0"
  ∧ to_hex (RLP.encode (RLP.of_int 0)) = "80"
  ∧ to_hex (RLP.encode (RLP.of_int 15)) = "0f"
  ∧ to_hex (RLP.encode (RLP.of_int 1024)) = "820400".
Proof. repeat split; vm_compute; reflexivity. Qed.

(** The keys of the README in base64, both ways. *)
Example base64_README :
  privacy.ToString sample.privateFrom
  = "A1aVtMxLCUHmBVHXoZzzBgPbW/wj5axDpW9X8l91SGo="
  ∧ privacy.ToString sample.privateFor1
    = "Ko2bVqD+nNlNYL5EE7y3IdOnviftjiizpjRt+HTuFBs="
  ∧ privacy.ToString sample.privateFor2
    = "k2zXEin4Ip/qBGlRkJejnGWdP9cjkK+DAvKNW31L2C8="
  ∧ @privacy.ToPublicKey sample.canonical_base64
      "k2zXEin4Ip/qBGlRkJejnGWdP9cjkK+DAvKNW31L2C8="
    = inr sample.privateFor2.
Proof. repeat split; vm_compute; reflexivity. Qed.

(** The root privacy group of the first two keys of the README. *)
Example FindRootPrivacyGroup_README :
  privacy.ID (privacy.FindRootPrivacyGroup
                [sample.privateFrom; sample.privateFor1])
  = "DyAOiF/ynpc+JXa2YAGB0bCitSlOMNm+ShmB/7M6C4w=".
Proof. vm_compute. reflexivity. Qed.

End known_values.

(** ** The ordering hash *)

Section hash.
Import privacy.

(** The two shifts of [Hash] extend the sign of the byte. *)
Lemma shifts_sign_extend (v : byte) :
  Z.shiftr (Int.int32 (Z.shiftl (Int.int32 (byte_to_Z v)) 24)) 24
  = sign_extend_8 v.
Proof.
  pose proof (byte_to_Z_range v) as Hv.
  unfold Int.int32, sign_extend_8.
  rewrite (signed_small 32 (byte_to_Z v)) by lia.
  rewrite Z.shiftl_mul_pow2, Z.shiftr_div_pow2 by lia.
  unfold Int.signed. change (2 ^ (32 - 1)) with 2147483648.
  change (2 ^ 32) with 4294967296. change (2 ^ 24) with 16777216.
  change (2 ^ (8 - 1)) with 128. change (2 ^ 8) with 256.
  destruct (decide (byte_to_Z v < 128)).
  - rewrite !Z.mod_small by lia.
    replace (byte_to_Z v * 16777216 + 2147483648 - 2147483648)
      with (byte_to_Z v * 16777216) by lia.
    rewrite Z.div_mul by lia. lia.
  - replace (byte_to_Z v * 16777216 + 2147483648)
      with ((byte_to_Z v - 128) * 16777216 + 1 * 4294967296) by lia.
    rewrite Z.mod_add by lia. rewrite Z.mod_small by lia.
    replace ((byte_to_Z v - 128) * 16777216 - 2147483648)
      with ((byte_to_Z v - 256) * 16777216) by lia.
    rewrite Z.div_mul by lia.
    replace (byte_to_Z v + 128) with (byte_to_Z v - 128 + 1 * 256) by lia.
    rewrite Z.mod_add by lia. rewrite Z.mod_small by lia. lia.
Qed.

Lemma sign_extend_8_range v : -128 ≤ sign_extend_8 v < 128.
Proof. apply (signed_range 8). lia. Qed.

(** One turn of the loop is one step of the recurrence, as long as the
    accumulator is a 32-bit value; it then stays one. *)
Lemma Hash_step_accumulate acc v :
  Int.in_int32 acc → Hash_step acc v = spec.accumulate acc v.
Proof.
  unfold Int.in_int32. intros Hacc.
  pose proof (sign_extend_8_range v) as Hv.
  unfold Hash_step, spec.accumulate. rewrite shifts_sign_extend.
  unfold Int.int, Int.int64, Int.int32.
  rewrite (signed_small 64 (sign_extend_8 v)) by lia.
  rewrite (signed_small 64 (31 * acc + sign_extend_8 v)) by lia.
  change 0xffffffff with (Z.ones 32). rewrite Z.land_ones by lia.
  apply signed_small; [lia|].
  pose proof (signed_range 32 ((31 * acc + sign_extend_8 v) `mod` 2 ^ 32)).
  lia.
Qed.

Lemma accumulate_in_int32 acc v : Int.in_int32 (spec.accumulate acc v).
Proof. apply (signed_range 32). lia. Qed.

Lemma fold_Hash_step pub acc :
  Int.in_int32 acc →
  fold_left Hash_step pub acc = fold_left spec.accumulate pub acc
  ∧ Int.in_int32 (fold_left Hash_step pub acc).
Proof.
  revert acc. induction pub as [|v pub IH]; intros acc Hacc; simpl.
  - done.
  - rewrite Hash_step_accumulate by done.
    apply IH, accumulate_in_int32.
Qed.

(** [Hash] computes the recurrence of the specification from 1. *)
Lemma Hash_accumulate pub : Hash pub = fold_left spec.accumulate pub 1.
Proof. apply fold_Hash_step. unfold Int.in_int32. lia. Qed.

Lemma Hash_in_int32 pub : Int.in_int32 (Hash pub).
Proof. apply fold_Hash_step. unfold Int.in_int32. lia. Qed.

End hash.

(** ** The deterministic ordering *)

Section ordering.
Import privacy.

Implicit Types (participants ps : list PublicKey) (h : Z).

Lemma hashMap_of_snoc ps p :
  hashMap_of (ps ++ [p]) = <[Hash p := p]> (hashMap_of ps).
Proof. unfold hashMap_of. by rewrite fold_left_app. Qed.

(** The map holds, under every hash, the last participant with it. *)
Lemma hashMap_of_lookup ps h : hashMap_of ps !! h = spec.survivor h ps.
Proof.
  unfold spec.survivor.
  induction ps as [|p ps IH] using rev_ind; [done|].
  rewrite hashMap_of_snoc, filter_app, filter_cons, filter_nil.
  destruct (decide (Hash p = h)) as [E|E].
  - rewrite last_snoc. subst h. apply lookup_insert_eq.
  - rewrite app_nil_r. by rewrite lookup_insert_ne.
Qed.

Lemma survivor_Some h ps q :
  spec.survivor h ps = Some q → Hash q = h ∧ q ∈ ps.
Proof.
  intros Hq. apply last_Some_elem_of, list_elem_of_filter in Hq. done.
Qed.

Lemma survivor_is_Some ps p :
  p ∈ ps → is_Some (spec.survivor (Hash p) ps).
Proof.
  intros Hp. apply last_is_Some. intros E.
  assert (p ∈ filter (λ q, Hash q = Hash p) ps) as Hin
    by (by apply list_elem_of_filter).
  rewrite E in Hin. by apply not_elem_of_nil in Hin.
Qed.

Lemma elem_of_keys_of ps h : h ∈ keys_of ps ↔ is_Some (hashMap_of ps !! h).
Proof.
  unfold keys_of. rewrite list_elem_of_fmap. split.
  - intros [[k q] [-> Hkq]]. apply elem_of_map_to_list in Hkq. by exists q.
  - intros [q Hq]. exists (h, q). split; [done|].
    by apply elem_of_map_to_list.
Qed.

Lemma sorted_le_NoDup_lt (l : list Z) :
  Sorted Z.le l → NoDup l → StronglySorted Z.lt l.
Proof.
  intros Hs%Sorted_StronglySorted; [|apply _].
  induction Hs as [|x l Hl IH Hx]; intros Hnd; [constructor|].
  apply NoDup_cons in Hnd as [Hnotin Hnd].
  constructor; [by apply IH|].
  rewrite Forall_forall in Hx |- *. intros y Hy.
  specialize (Hx y Hy). assert (x ≠ y) by (intros ->; done). lia.
Qed.

(** [sort.Ints] returns the same list for every order of the same keys. *)
Lemma sort_Ints_Permutation (ks ks' : list Z) :
  ks ≡ₚ ks' → sort_Ints ks = sort_Ints ks'.
Proof.
  intros Hp. unfold sort_Ints.
  apply (Sorted_unique Z.le); try apply Sorted_merge_sort; try apply _.
  by rewrite !merge_sort_Permutation.
Qed.

Lemma sort_Ints_strictly_ascending (ks : list Z) :
  NoDup ks → StronglySorted Z.lt (sort_Ints ks).
Proof.
  intros Hnd. apply sorted_le_NoDup_lt.
  - apply Sorted_merge_sort; apply _.
  - unfold sort_Ints. by rewrite merge_sort_Permutation.
Qed.

(** The order in which the [range] over the map visits the keys does not
    show in the result of [sort]. *)
Lemma sort_from_range_order ks ps :
  ks ≡ₚ keys_of ps → sort_from ks ps = sort ps.
Proof.
  intros Hp. unfold sort, sort_from.
  by rewrite (sort_Ints_Permutation _ _ Hp).
Qed.

(** The hashes of the sorted participants are the sorted keys. *)
Lemma Hash_sort ps : Hash <$> sort ps = sort_Ints (keys_of ps).
Proof.
  unfold sort, sort_from.
  rewrite <- list_fmap_compose.
  rewrite <- (list_fmap_id (sort_Ints (keys_of ps))) at 2.
  apply Forall_fmap_ext, Forall_forall. intros h Hh. simpl.
  unfold sort_Ints in Hh. rewrite merge_sort_Permutation in Hh.
  apply elem_of_keys_of in Hh as [q Hq]. rewrite Hq. simpl.
  rewrite hashMap_of_lookup in Hq. by apply survivor_Some in Hq as [? ?].
Qed.

Lemma elem_of_sort ps q :
  q ∈ sort ps ↔ ∃ h, spec.survivor h ps = Some q.
Proof.
  unfold sort, sort_from.
  rewrite list_elem_of_fmap. split.
  - intros [h [-> Hh]]. exists h.
    unfold sort_Ints in Hh. rewrite merge_sort_Permutation in Hh.
    apply elem_of_keys_of in Hh as [q' Hq']. rewrite Hq'. simpl.
    by rewrite <- hashMap_of_lookup.
  - intros [h Hq]. exists h. rewrite hashMap_of_lookup, Hq. split; [done|].
    unfold sort_Ints. rewrite merge_sort_Permutation.
    apply elem_of_keys_of. rewrite hashMap_of_lookup. by exists q.
Qed.

(** When participants with equal hashes are equal, the survivor of a hash
    does not depend on the order of the participants. *)
Lemma survivor_Permutation ps ps' h :
  (∀ p q, p ∈ ps → q ∈ ps → Hash p = Hash q → p = q) →
  ps ≡ₚ ps' → spec.survivor h ps = spec.survivor h ps'.
Proof.
  intros Hinj Hp.
  assert (∀ l, l ≡ₚ ps → ∀ q,
            spec.survivor h l = Some q ↔ q ∈ ps ∧ Hash q = h) as Hchar.
  { intros l Hl q. split.
    - intros [? ?]%survivor_Some. by rewrite <- Hl.
    - intros [Hq <-]. rewrite <- Hl in Hq.
      destruct (survivor_is_Some l q Hq) as [q' Hq'].
      rewrite Hq'. f_equal. apply survivor_Some in Hq' as [? ?].
      apply Hinj; by rewrite <- ?Hl. }
  destruct (spec.survivor h ps) as [q|] eqn:E.
  - symmetry. apply (Hchar ps' (symmetry Hp)), (Hchar ps); done.
  - destruct (spec.survivor h ps') as [q|] eqn:E'; [|done].
    apply (Hchar ps' (symmetry Hp)), (Hchar ps) in E'; [|done]. congruence.
Qed.

(** Participants with distinct hashes: equal hashes, equal keys. *)
Lemma NoDup_Hash_injective ps :
  NoDup (Hash <$> ps) →
  ∀ p q, p ∈ ps → q ∈ ps → Hash p = Hash q → p = q.
Proof.
  intros Hnd p q Hp Hq E.
  apply list_elem_of_lookup in Hp as [i Hi].
  apply list_elem_of_lookup in Hq as [j Hj].
  assert (i = j) as ->; [|congruence].
  eapply (NoDup_lookup _ _ _ _ Hnd); rewrite list_lookup_fmap.
  - by rewrite Hi.
  - rewrite Hj. simpl. by rewrite E.
Qed.

Lemma sort_Permutation ps ps' :
  (∀ p q, p ∈ ps → q ∈ ps → Hash p = Hash q → p = q) →
  ps ≡ₚ ps' → sort ps = sort ps'.
Proof.
  intros Hinj Hp.
  assert (hashMap_of ps = hashMap_of ps') as E.
  { apply map_eq. intros h. rewrite !hashMap_of_lookup.
    by apply survivor_Permutation. }
  unfold sort, sort_from, keys_of. by rewrite E.
Qed.

End ordering.

(** ** Claims on the ordering and on the root group *)

Section ordering_claims.
Import privacy.

(** C4. The accumulator of every key is the fold of the recurrence
    [acc = (31*acc + signExtend8to32(byte)) mod 2^32], read as signed.
    Of the participants that fold to one value the ordering keeps one
    key, the last one supplied (a collision overwrites), so that the
    sorted list holds one key per accumulator value, every value of the
    input is represented, and the keys stand in strictly ascending order
    of their accumulators. *)
Theorem sort_one_key_per_hash_ascending (participants : list PublicKey) :
  (∀ pub, Hash pub = fold_left spec.accumulate pub 1)
  ∧ (∀ q, q ∈ sort participants ↔
          ∃ h, spec.survivor h participants = Some q)
  ∧ (∀ p, p ∈ participants →
          ∃ q, q ∈ sort participants ∧ Hash q = Hash p ∧ q ∈ participants)
  ∧ (∀ p q, p ∈ sort participants → q ∈ sort participants →
            Hash p = Hash q → p = q)
  ∧ StronglySorted Z.lt (Hash <$> sort participants).
Proof.
  split; [apply Hash_accumulate|].
  split; [apply elem_of_sort|].
  split; [|split].
  - intros p Hp. destruct (survivor_is_Some _ _ Hp) as [q Hq].
    exists q. pose proof (survivor_Some _ _ _ Hq) as [? ?].
    split; [|done]. apply elem_of_sort. eauto.
  - intros p q [hp Hp]%elem_of_sort [hq Hq]%elem_of_sort E.
    pose proof (survivor_Some _ _ _ Hp) as [? _].
    pose proof (survivor_Some _ _ _ Hq) as [? _].
    assert (hp = hq) by congruence. subst. congruence.
  - rewrite Hash_sort. apply sort_Ints_strictly_ascending.
    apply NoDup_fst_map_to_list.
Qed.

(** Of two colliding keys the later one survives, in either order. *)
Lemma sort_one_key_per_hash_ascending_witness :
  sort [sample.colliding1; [xff]; sample.colliding2]
    = [[xff]; sample.colliding2]
  ∧ sort [sample.colliding2; [xff]; sample.colliding1]
    = [[xff]; sample.colliding1]
  ∧ StronglySorted Z.lt
      (Hash <$> sort [sample.colliding1; [xff]; sample.colliding2]).
Proof.
  split; [vm_compute; reflexivity|]. split; [vm_compute; reflexivity|].
  apply (sort_one_key_per_hash_ascending
           [sample.colliding1; [xff]; sample.colliding2]).
Defined.

(** C2, as stated, fails: two participants whose keys collide in the
    ordering hash give one root group id in one order and another id in
    the other order. *)
Lemma FindRootPrivacyGroup_order_counterexample :
  ¬ (∀ participants participants' : list PublicKey,
       participants ≠ [] → participants ≡ₚ participants' →
       ID (FindRootPrivacyGroup participants)
       = ID (FindRootPrivacyGroup participants')).
Proof.
  intros H.
  specialize (H [sample.colliding1; sample.colliding2]
                [sample.colliding2; sample.colliding1]).
  assert (ID (FindRootPrivacyGroup [sample.colliding1; sample.colliding2])
          ≠ ID (FindRootPrivacyGroup [sample.colliding2; sample.colliding1]))
    as Hne by (vm_compute; discriminate).
  apply Hne, H; [discriminate|]. apply Permutation_swap.
Qed.

(** C2, amended. When participants with equal ordering hashes are equal
    keys, every permutation of the participants gives the same root
    group, and so the same id. *)
Theorem FindRootPrivacyGroup_Permutation
    (participants participants' : list PublicKey) :
  (∀ p q, p ∈ participants → q ∈ participants → Hash p = Hash q → p = q) →
  participants ≡ₚ participants' →
  ID (FindRootPrivacyGroup participants)
  = ID (FindRootPrivacyGroup participants').
Proof.
  intros Hinj Hp. unfold FindRootPrivacyGroup.
  by rewrite (sort_Permutation _ _ Hinj Hp).
Qed.

(** The three keys of the README, in two of their orders. *)
Lemma FindRootPrivacyGroup_Permutation_witness :
  ID (FindRootPrivacyGroup
        [sample.privateFrom; sample.privateFor1; sample.privateFor2])
  = ID (FindRootPrivacyGroup
          [sample.privateFor2; sample.privateFor1; sample.privateFrom]).
Proof.
  apply FindRootPrivacyGroup_Permutation.
  - apply NoDup_Hash_injective.
    assert (Hash <$> [sample.privateFrom; sample.privateFor1; sample.privateFor2]
            = [-487930036; 2130677321; 568079351]) as ->
      by (vm_compute; reflexivity).
    apply (bool_decide_unpack _). vm_compute. exact I.
  - etrans; [apply Permutation_swap|].
    etrans; [apply perm_skip, Permutation_swap|].
    apply Permutation_swap.
Defined.

End ordering_claims.

(** ** The encoder of go-ethereum against the canonical encoding *)

Section encoder.

Lemma be_bytes_aux_length_ge fuel n acc :
  (length acc ≤ length (be_bytes_aux fuel n acc))%nat.
Proof.
  revert n acc. induction fuel as [|fuel IH]; intros n acc; simpl; [lia|].
  destruct (n <=? 0); [lia|].
  etrans; [|apply IH]. simpl. lia.
Qed.

Lemma be_bytes_aux_length_le (k : nat) fuel n acc :
  n < 256 ^ Z.of_nat k →
  (length (be_bytes_aux fuel n acc) ≤ k + length acc)%nat.
Proof.
  revert k n acc. induction fuel as [|fuel IH]; intros k n acc Hn; simpl; [lia|].
  destruct (Z.leb_spec n 0) as [|Hpos]; [lia|].
  destruct k as [|k]; [simpl in Hn; lia|].
  etrans; [apply (IH k)|simpl; lia].
  rewrite Nat2Z.inj_succ, Z.pow_succ_r in Hn by lia.
  apply Z.div_lt_upper_bound; lia.
Qed.

Lemma be_bytes_0 : be_bytes 0 = [].
Proof. reflexivity. Qed.

Lemma be_bytes_pos n :
  0 < n →
  be_bytes n = be_bytes_aux (Z.to_nat (Z.log2 n)) (n / 256) [byte_of_Z n].
Proof.
  intros Hn. unfold be_bytes.
  replace (Z.to_nat (Z.log2 n) + 1)%nat with (S (Z.to_nat (Z.log2 n))) by lia.
  simpl. destruct (Z.leb_spec n 0); [lia|done].
Qed.

Lemma be_bytes_small n : 0 < n < 256 → be_bytes n = [byte_of_Z n].
Proof.
  intros Hn. rewrite be_bytes_pos by lia.
  rewrite Z.div_small by lia. by destruct (Z.to_nat (Z.log2 n)).
Qed.

Lemma be_bytes_length_ge_2 n : 256 ≤ n → (2 ≤ length (be_bytes n))%nat.
Proof.
  intros Hn. rewrite be_bytes_pos by lia.
  assert (8 ≤ Z.log2 n) by (apply (Z.log2_le_pow2 n 8); lia).
  destruct (Z.to_nat (Z.log2 n)) as [|fuel] eqn:E; [lia|]. simpl.
  assert (0 < n / 256) by (apply Z.div_str_pos; lia).
  destruct (Z.leb_spec (n / 256) 0); [lia|].
  etrans; [|apply be_bytes_aux_length_ge]. simpl. lia.
Qed.

Lemma be_bytes_length_le (k : nat) n :
  n < 256 ^ Z.of_nat k → (length (be_bytes n) ≤ k)%nat.
Proof.
  intros Hn. unfold be_bytes.
  etrans; [by apply (be_bytes_aux_length_le k)|]. simpl. lia.
Qed.

(** The header of the encoder is the header of the canonical encoding. *)
Lemma puthead_header small large size :
  rlp.puthead small large size = RLP.header small large size.
Proof. reflexivity. Qed.

Lemma writeBytes_encode_str b : rlp.writeBytes b = RLP.encode_str b.
Proof.
  destruct b as [|x [|y b]]; try reflexivity.
  unfold rlp.writeBytes, RLP.encode_str.
  repeat case_decide; try reflexivity; lia.
Qed.

(** A [uint64] is written as the canonical encoding of the integer. *)
Lemma writeUint_of_int i :
  0 ≤ i < 2 ^ 64 → rlp.writeUint i = RLP.encode (RLP.of_int i).
Proof.
  intros Hi. unfold rlp.writeUint, RLP.of_int. simpl.
  destruct (decide (i = 0)) as [->|]; [reflexivity|].
  destruct (decide (i < 128)).
  - rewrite be_bytes_small by lia. unfold RLP.encode_str.
    rewrite byte_to_of_Z, Z.mod_small by lia. by rewrite decide_True by lia.
  - pose proof (be_bytes_length_le 8 i ltac:(simpl; lia)) as Hle.
    destruct (decide (i < 256)).
    + rewrite be_bytes_small by lia. unfold RLP.encode_str.
      rewrite byte_to_of_Z, Z.mod_small by lia.
      by rewrite decide_False by lia.
    + pose proof (be_bytes_length_ge_2 i ltac:(lia)) as Hge.
      destruct (be_bytes i) as [|x [|y b]] eqn:E; simpl in Hge; try lia.
      unfold RLP.encode_str, RLP.header.
      rewrite decide_True by (simpl in *; lia). reflexivity.
Qed.

(** A non-negative [big.Int] is written as the canonical encoding of the
    integer; a negative one makes the encoder fail. *)
Lemma writeBigInt_of_int i :
  0 ≤ i → rlp.writeBigInt i = inr (RLP.encode (RLP.of_int i)).
Proof.
  intros Hi. unfold rlp.writeBigInt.
  rewrite decide_False by lia.
  destruct (decide (i = 0)) as [->|]; [reflexivity|].
  by rewrite writeBytes_encode_str.
Qed.

Lemma writeBigInt_negative i : i < 0 → is_Some (fst (rlp.Encode (rlp.BigIntPtr (Some i)))).
Proof.
  intros Hi. unfold rlp.Encode. simpl. unfold rlp.writeBigInt.
  by rewrite decide_True by lia.
Qed.

(** A slice is written as the list of what its elements are written as. *)
Lemma encode_Slice (vs : list rlp.value) (items : list RLP.item) :
  Forall2 (λ v i, rlp.encode v = inr (RLP.encode i)) vs items →
  rlp.encode (rlp.Slice vs) = inr (RLP.encode (RLP.List items)).
Proof.
  intros H.
  assert ((fix elements (l : list rlp.value) : error + list byte :=
             match l with
             | [] => inr []
             | x :: l' =>
                 match rlp.encode x with
                 | inl e => inl e
                 | inr bx =>
                     match elements l' with
                     | inl e => inl e
                     | inr bl => inr (bx ++ bl)
                     end
                 end
             end) vs = inr (concat (map RLP.encode items))) as E.
  { induction H as [|v i vs items Hv _ IH]; [done|].
    rewrite Hv, IH. reflexivity. }
  simpl. rewrite E. reflexivity.
Qed.

Lemma encode_Bytes_slice (bs : list (list byte)) :
  rlp.encode (rlp.Slice (rlp.Bytes <$> bs))
  = inr (RLP.encode (RLP.List (RLP.Str <$> bs))).
Proof.
  apply encode_Slice. apply Forall2_fmap, Forall2_same_length_lookup_2; [done|].
  intros i x y Hx Hy. simplify_eq. simpl. by rewrite writeBytes_encode_str.
Qed.

End encoder.

(** ** The store *)

Section store.
Import types.

Lemma insert_snoc {A} (l : list A) x y :
  <[length l := y]> (l ++ [x]) = l ++ [y].
Proof. rewrite insert_app_r_alt by lia. by rewrite Nat.sub_diag. Qed.

Lemma lookup_snoc {A} (l : list A) x : (l ++ [x]) !! length l = Some x.
Proof. by apply list_lookup_middle. Qed.

Lemma lookup_app_Some {A} (l more : list A) i x :
  l !! i = Some x → (l ++ more) !! i = Some x.
Proof. intros H. rewrite lookup_app_l; [done|]. by eapply lookup_lt_Some. Qed.

(** Allocation leaves what a valid pointer reads. *)
Lemma big_value_app σ p z more a v t :
  big_value σ p = Some z →
  big_value (mkStore (bigs σ ++ more) a v t) p = Some z.
Proof.
  destruct p as [l|]; [|done]. simpl. apply lookup_app_Some.
Qed.

End store.

(** ** Signing *)

Section signing.
Import types.

(** With a signature of 65 bytes, a transaction and a chain id,
    [withSignature] returns a new transaction and no error. *)
Lemma withSignature_Done σ tx sig chainID d c :
  txs σ !! tx = Some d → len sig = SignatureLength →
  big_value σ chainID = Some c →
  withSignature (Some tx) sig chainID σ
  = Done ((Some (length (txs σ)), None),
          signed_store σ d c (slice_bytes σ sig)).
Proof.
  intros Htx Hlen Hc.
  unfold withSignature, signatureValues.
  rewrite decide_False by (intros ?; done).
  unfold mbind, M_bind, get_store, new_big, mret, M_ret. simpl.
  unfold load_big at 1. unfold big_value at 1. simpl.
  rewrite lookup_snoc.
  unfold load_big. rewrite <- !app_assoc. simpl.
  rewrite (big_value_app σ chainID c _ _ _ _ Hc).
  unfold load_tx. simpl. rewrite Htx.
  unfold new_tx, store_tx. simpl.
  rewrite insert_snoc. unfold signed_store, signed_txdata.
  rewrite !length_app. simpl. rewrite <- !app_assoc. simpl.
  repeat f_equal; lia.
Qed.

(** A signature of another length makes [signatureValues], and so
    [withSignature], panic. *)
Lemma withSignature_wrong_size σ tx sig chainID :
  len sig ≠ SignatureLength →
  withSignature tx sig chainID σ
  = Panic (PanicMessage ("wrong size for signature: got " +:+ pretty (len sig)
                         +:+ ", want 65")).
Proof.
  intros Hlen. unfold withSignature, signatureValues.
  by rewrite decide_True.
Qed.

(** [withSignature] never returns an error. *)
Lemma withSignature_returns σ tx sig chainID res σ' :
  withSignature tx sig chainID σ = Done (res, σ') →
  len sig = SignatureLength
  ∧ ∃ l d, tx = Some l ∧ txs σ !! l = Some d
      ∧ res = (Some (length (txs σ)), None)
      ∧ ∃ c, σ' = signed_store σ d c (slice_bytes σ sig).
Proof.
  intros Hrun.
  destruct (decide (len sig = SignatureLength)) as [Hlen|Hlen];
    [|by rewrite withSignature_wrong_size in Hrun].
  split; [done|].
  revert Hrun. unfold withSignature, signatureValues.
  rewrite decide_False by (intros ?; done).
  unfold mbind, M_bind, get_store, new_big, mret, M_ret. simpl.
  unfold load_big at 1. unfold big_value at 1. simpl.
  rewrite lookup_snoc.
  unfold load_big. rewrite <- !app_assoc. simpl.
  destruct (big_value _ chainID) as [c|] eqn:Hc; [|done].
  unfold load_tx. simpl.
  destruct tx as [l|]; [|done]. simpl.
  destruct (txs σ !! l) as [d|] eqn:Hd; [|done].
  unfold new_tx, store_tx. simpl. rewrite insert_snoc.
  intros [= <- <-]. exists l, d. repeat split; try done.
  exists c. unfold signed_store, signed_txdata.
  rewrite !length_app. simpl. rewrite <- !app_assoc. simpl.
  repeat f_equal; lia.
Qed.

Lemma SignTx_unfold `{Signer} σ tx chainID prv d :
  txs σ !! tx = Some d →
  SignTx (Some tx) chainID prv σ
  = match crypto_Sign (digest σ d chainID) prv with
    | inl err => Done ((None, Some err), σ)
    | inr bs =>
        withSignature (Some tx)
          (mkSlice (Some (length (arrays σ))) 0 (length bs) (length bs))
          chainID
          (mkStore (bigs σ) (arrays σ ++ [bs]) (vectors σ) (txs σ))
    end.
Proof.
  intros Htx. unfold SignTx, hash, digest.
  unfold mbind, M_bind, load_tx, get_store, mret, M_ret. simpl.
  rewrite Htx. by destruct (crypto_Sign _ prv).
Qed.

Lemma SignTx_nil `{Signer} σ tx chainID prv :
  (l ← tx; txs σ !! l) = None →
  SignTx tx chainID prv σ = Panic PanicNilDereference.
Proof.
  intros Htx. unfold SignTx, hash.
  assert (load_tx tx σ = Panic PanicNilDereference) as E
    by (unfold load_tx; by rewrite Htx).
  unfold mbind, M_bind. by rewrite E.
Qed.

End signing.

(** ** Claims on signing *)

Section signing_claims.
Import types.

Lemma sig_v_value sig (recoveryId : byte) :
  sig !! 64%nat = Some recoveryId →
  sig_v sig = (byte_to_Z recoveryId + 27) `mod` 256.
Proof.
  intros H. unfold sig_v, be_value. rewrite H. simpl.
  by rewrite byte_to_of_Z.
Qed.

(** The arithmetic of [newV], with every wrap-around collected. *)
Lemma folded_v_exact v c :
  0 ≤ v < 256 →
  folded_v v c = (v + 2 * (Z.abs c `mod` 2 ^ 64) + 8) `mod` 2 ^ 64.
Proof.
  intros Hv. unfold folded_v, big_Uint64, Int.uint64, Int.unsigned.
  rewrite (Z.abs_eq v) by lia. rewrite (Z.mod_small v) by lia.
  rewrite Z.add_mod_idemp_r by lia. rewrite Z.add_mod_idemp_l by lia.
  f_equal. lia.
Qed.

Lemma signed_store_V σ d c sig :
  big_value (signed_store σ d c sig) (V (signed_txdata d (length (bigs σ))))
  = Some (folded_v (sig_v sig) c).
Proof.
  unfold signed_store, signed_txdata, big_value. simpl.
  rewrite lookup_app_r by lia.
  by replace (length (bigs σ) + 3 - length (bigs σ))%nat with 3%nat by lia.
Qed.

Lemma signed_store_tx σ d c sig :
  txs (signed_store σ d c sig) !! length (txs σ)
  = Some (signed_txdata d (length (bigs σ))).
Proof. apply lookup_snoc. Qed.

(** C1, as stated, fails, also when the last byte is a recovery id of
    the signing primitive (0 to 3): [newV] is [uint64] arithmetic on
    [chainID.Uint64()] and wraps at [2^64]. With the chain id [2^63] and
    the recovery id 0 the doubled chain id wraps to 0 and the stored [v]
    is 35, not [2^64 + 35]. *)
Lemma withSignature_v_counterexample :
  ¬ (∀ σ tx sig chainID d c (recoveryId : byte),
       txs σ !! tx = Some d → len sig = SignatureLength →
       slice_bytes σ sig !! 64%nat = Some recoveryId →
       byte_to_Z recoveryId ≤ 3 →
       big_value σ chainID = Some c →
       ∃ cpy σ' d',
         withSignature (Some tx) sig chainID σ = Done ((Some cpy, None), σ')
         ∧ txs σ' !! cpy = Some d'
         ∧ big_value σ' (V d')
           = Some ((byte_to_Z recoveryId + 27) + c * 2 + 8)).
Proof.
  intros H.
  destruct (H (sample.with_big (2 ^ 63)
                 (sample.with_array (sample.raw_signature x00)
                    sample.besutx_store))
              0%nat (sample.whole sample.besutx_store 65) (Some 7%nat)
              sample.besutx (2 ^ 63) x00)
    as (cpy & σ' & d' & Hrun & Hd' & Hv); try reflexivity.
  { vm_compute. discriminate. }
  vm_compute in Hrun. injection Hrun as <- <-.
  vm_compute in Hd'. injection Hd' as <-.
  vm_compute in Hv. discriminate Hv.
Qed.

(** The byte addition [sig[64] + 27] wraps at 256 as well: with the last
    byte 255 and the chain id 2018 the stored [v] is 4070, not 4326. *)
Example withSignature_v_last_byte_255 :
  ∃ σ' d',
    withSignature (Some 0%nat) (sample.whole sample.besutx_store 65)
      (Some 0%nat)
      (sample.with_array (sample.raw_signature xff) sample.besutx_store)
    = Done ((Some 1%nat, None), σ')
    ∧ txs σ' !! 1%nat = Some d'
    ∧ big_value σ' (V d') = Some 4070.
Proof.
  vm_compute. eexists _, _. split; [reflexivity|]. split; reflexivity.
Qed.

(** C1, amended. For every transaction, chain id [c] and raw signature of
    65 bytes whose last byte is the recovery id, signing stores
    [v = ((recoveryId + 27) mod 2^8 + 2 * (|c| mod 2^64) + 8) mod 2^64].
    When the recovery id is at most 228 and [c] is non-negative with
    [(recoveryId + 27) + c*2 + 8 < 2^64], this is
    [(recoveryId + 27) + c*2 + 8]; for chain id 2018 and recovery id 0
    (recovery byte 27) it is 4071. *)
Theorem withSignature_v σ tx sig chainID d c (recoveryId : byte) :
  txs σ !! tx = Some d → len sig = SignatureLength →
  slice_bytes σ sig !! 64%nat = Some recoveryId →
  big_value σ chainID = Some c →
  ∃ cpy σ' d',
    withSignature (Some tx) sig chainID σ = Done ((Some cpy, None), σ')
    ∧ txs σ' !! cpy = Some d'
    ∧ big_value σ' (V d')
      = Some (((byte_to_Z recoveryId + 27) `mod` 2 ^ 8
               + 2 * (Z.abs c `mod` 2 ^ 64) + 8) `mod` 2 ^ 64)
    ∧ (byte_to_Z recoveryId ≤ 228 → 0 ≤ c →
       (byte_to_Z recoveryId + 27) + c * 2 + 8 < 2 ^ 64 →
       big_value σ' (V d') = Some ((byte_to_Z recoveryId + 27) + c * 2 + 8))
    ∧ (byte_to_Z recoveryId = 0 → c = 2018 →
       big_value σ' (V d') = Some 4071).
Proof.
  intros Htx Hlen Hrec Hc.
  eexists _, _, _. split; [by apply withSignature_Done|].
  split; [apply signed_store_tx|].
  rewrite signed_store_V, (sig_v_value _ _ Hrec).
  pose proof (byte_to_Z_range recoveryId) as Hr.
  rewrite folded_v_exact by (apply Z.mod_pos_bound; lia).
  change (2 ^ 8) with 256.
  assert (∀ c', byte_to_Z recoveryId ≤ 228 → 0 ≤ c' →
            byte_to_Z recoveryId + 27 + c' * 2 + 8 < 2 ^ 64 →
            ((byte_to_Z recoveryId + 27) `mod` 256
             + 2 * (Z.abs c' `mod` 2 ^ 64) + 8) `mod` 2 ^ 64
            = byte_to_Z recoveryId + 27 + c' * 2 + 8) as Hin.
  { intros c' ? ? ?. rewrite Z.abs_eq by lia.
    rewrite (Z.mod_small (_ + 27)) by lia.
    rewrite (Z.mod_small c') by lia. rewrite Z.mod_small by lia. lia. }
  split; [done|]. split.
  - intros. f_equal. by apply Hin.
  - intros E ->. f_equal. rewrite Hin by (rewrite ?E; lia). rewrite E. lia.
Qed.

(** The transaction of the README, chain id 2018, and a signature whose
    recovery id is 0: the stored [v] is 4071. *)
Lemma withSignature_v_witness :
  ∃ cpy σ' d',
    withSignature (Some 0%nat)
      (sample.whole sample.besutx_store 65) (Some 0%nat)
      (sample.with_array (sample.raw_signature x00) sample.besutx_store)
    = Done ((Some cpy, None), σ')
    ∧ txs σ' !! cpy = Some d'
    ∧ big_value σ' (V d') = Some 4071.
Proof.
  destruct (withSignature_v
              (sample.with_array (sample.raw_signature x00) sample.besutx_store)
              0%nat (sample.whole sample.besutx_store 65) (Some 0%nat)
              sample.besutx 2018 x00)
    as (cpy & σ' & d' & Hrun & Hd' & _ & _ & Hv); try reflexivity.
  exists cpy, σ', d'. split; [exact Hrun|]. split; [exact Hd'|].
  apply Hv; reflexivity.
Defined.

(** The same through [SignTx], the raw signature being what the signing
    primitive returns for the digest. *)
Lemma SignTx_stores_v `{Signer} σ tx chainID (prv : PrivateKey) d c bs
    (recoveryId : byte) :
  txs σ !! tx = Some d → big_value σ chainID = Some c →
  crypto_Sign (digest σ d chainID) prv = inr bs →
  length bs = SignatureLength → bs !! 64%nat = Some recoveryId →
  ∃ cpy σ' d',
    SignTx (Some tx) chainID prv σ = Done ((Some cpy, None), σ')
    ∧ txs σ' !! cpy = Some d'
    ∧ big_value σ' (V d')
      = Some (((byte_to_Z recoveryId + 27) `mod` 2 ^ 8
               + 2 * (Z.abs c `mod` 2 ^ 64) + 8) `mod` 2 ^ 64).
Proof.
  intros Htx Hc Hsig Hlen Hrec.
  rewrite (SignTx_unfold _ _ _ _ _ Htx), Hsig.
  eexists _, _, _. split.
  { apply withSignature_Done; [exact Htx|exact Hlen|].
    destruct chainID; exact Hc. }
  split; [apply signed_store_tx|].
  rewrite signed_store_V. f_equal.
  assert (slice_bytes
            (mkStore (bigs σ) (arrays σ ++ [bs]) (vectors σ) (txs σ))
            (mkSlice (Some (length (arrays σ))) 0 (length bs) (length bs))
          = bs) as ->.
  { unfold slice_bytes, array_value. simpl.
    rewrite lookup_snoc. simpl. by rewrite take_ge. }
  rewrite (sig_v_value _ _ Hrec).
  pose proof (byte_to_Z_range recoveryId).
  by rewrite folded_v_exact by (apply Z.mod_pos_bound; lia).
Qed.

End signing_claims.

Section sign_claims.
Import types.

(** C5, as stated, fails: a signing primitive that hands back 64 bytes
    makes [SignTx] panic; no error value reaches the caller. *)
Lemma SignTx_wrong_size_counterexample :
  ¬ (∀ (signer : Signer) σ tx chainID (prv : PrivateKey) d bs,
       txs σ !! tx = Some d →
       crypto_Sign (digest σ d chainID) prv = inr bs →
       length bs ≠ SignatureLength →
       ∃ err σ', SignTx (Some tx) chainID prv σ = Done ((None, Some err), σ')).
Proof.
  intros H.
  destruct (H sample.short_signer sample.besutx_store 0%nat (Some 0%nat) ()
              sample.besutx _ eq_refl eq_refl) as (err & σ' & Hrun).
  - vm_compute. discriminate.
  - vm_compute in Hrun. discriminate Hrun.
Qed.

(** C5, amended. When the raw signature the signing primitive returns is
    not exactly 65 bytes, [SignTx] panics with the message
    [wrong size for signature: got n, want 65]: nothing is returned to
    the caller, neither an error nor a transaction. [SignTx] returns
    normally on a raw signature only when it has exactly 65 bytes, and
    then with a signed transaction and no error. *)
Theorem SignTx_wrong_size `{Signer} σ tx chainID (prv : PrivateKey) d bs :
  txs σ !! tx = Some d →
  crypto_Sign (digest σ d chainID) prv = inr bs →
  (length bs ≠ SignatureLength →
   SignTx (Some tx) chainID prv σ
   = Panic (PanicMessage ("wrong size for signature: got "
                          +:+ pretty (length bs) +:+ ", want 65")))
  ∧ (∀ res σ', SignTx (Some tx) chainID prv σ = Done (res, σ') →
       length bs = SignatureLength ∧ ∃ cpy, res = (Some cpy, None)).
Proof.
  intros Htx Hsig. rewrite (SignTx_unfold _ _ _ _ _ Htx), Hsig. split.
  - intros Hlen. by rewrite withSignature_wrong_size.
  - intros res σ' Hrun.
    apply withSignature_returns in Hrun as (Hlen & l & d' & _ & _ & -> & _).
    split; [done|]. by eexists.
Qed.

Lemma SignTx_wrong_size_witness :
  @SignTx sample.short_signer (Some 0%nat) (Some 0%nat) () sample.besutx_store
  = Panic (PanicMessage "wrong size for signature: got 64, want 65").
Proof.
  apply (@SignTx_wrong_size sample.short_signer sample.besutx_store 0%nat
           (Some 0%nat) () sample.besutx _ eq_refl eq_refl).
  vm_compute. discriminate.
Defined.

(** C6. A successful [SignTx] returns a transaction object that did not
    exist before the call; its unsigned fields (nonce, gasPrice,
    gasLimit, recipient, value, payload, privateFrom, privateFor,
    restriction) are those of the input; the input transaction has the
    fields it had, and every object that existed before the call (the
    big integers and byte arrays the fields point to among them) has the
    content it had. *)
Theorem SignTx_new_instance `{Signer} σ tx chainID (prv : PrivateKey) cpy σ' :
  SignTx tx chainID prv σ = Done ((Some cpy, None), σ') →
  ∃ l d d',
    tx = Some l ∧ txs σ !! l = Some d
    ∧ txs σ !! cpy = None ∧ txs σ' !! cpy = Some d'
    ∧ same_unsigned_fields d d'
    ∧ txs σ' !! l = Some d
    ∧ preserved σ σ'.
Proof.
  intros Hrun.
  destruct (l ← tx; txs σ !! l) as [d|] eqn:Htx;
    [|by rewrite SignTx_nil in Hrun].
  destruct tx as [l|]; [|done]. simpl in Htx.
  rewrite (SignTx_unfold _ _ _ _ _ Htx) in Hrun.
  destruct (crypto_Sign _ prv) as [err|bs]; [done|].
  apply withSignature_returns
    in Hrun as (_ & l' & d0 & [= <-] & Hd0 & [= ->] & c & ->).
  simpl in Hd0. assert (d0 = d) as -> by congruence.
  exists l, d, (signed_txdata d (length (bigs σ))).
  split; [done|]. split; [done|].
  split; [by apply lookup_ge_None_2|].
  split; [apply lookup_snoc|].
  split; [by repeat split|].
  split; [by apply lookup_app_Some|].
  unfold preserved, signed_store. simpl.
  repeat split; try done; by eexists.
Qed.

(** The transaction of the README, signed by the stand-in signer. *)
Lemma SignTx_new_instance_witness :
  ∃ l d d',
    Some 0%nat = Some l ∧ txs sample.besutx_store !! l = Some d
    ∧ txs sample.besutx_store !! 1%nat = None
    ∧ txs sample.signed_besutx_store !! 1%nat = Some d'
    ∧ same_unsigned_fields d d'
    ∧ txs sample.signed_besutx_store !! l = Some d
    ∧ preserved sample.besutx_store sample.signed_besutx_store.
Proof.
  apply (@SignTx_new_instance sample.stub_signer sample.besutx_store
           (Some 0%nat) (Some 0%nat) () 1%nat sample.signed_besutx_store).
  vm_compute. reflexivity.
Defined.

End sign_claims.

(** ** Construction *)

Section construction.
Import types.

Lemma write_array_others l i x σ :
  bigs (write_array l i x σ) = bigs σ
  ∧ vectors (write_array l i x σ) = vectors σ
  ∧ txs (write_array l i x σ) = txs σ
  ∧ ∀ l', l' ≠ l → arrays (write_array l i x σ) !! l' = arrays σ !! l'.
Proof.
  repeat split. intros l' Hl'. unfold write_array. simpl.
  by rewrite list_lookup_insert_ne.
Qed.

(** Writes to other arrays leave an array as it is. *)
Lemma write_arrays_lookup ws σ l :
  Forall (λ w : loc * nat * byte, w.1.1 ≠ l) ws →
  arrays (write_arrays ws σ) !! l = arrays σ !! l.
Proof.
  unfold write_arrays. revert σ.
  induction ws as [|w ws IH]; intros σ Hws; [done|].
  apply Forall_cons in Hws as [Hw Hws]. simpl. rewrite IH by done.
  by apply write_array_others.
Qed.

Lemma slice_bytes_whole σ l a n :
  arrays σ !! l = Some a →
  slice_bytes σ (mkSlice (Some l) 0 n n) = take n a.
Proof. intros H. unfold slice_bytes, array_value. simpl. by rewrite H. Qed.

Lemma slice_bytes_empty σ s : len s = 0%nat → slice_bytes σ s = [].
Proof. intros H. unfold slice_bytes. by rewrite H. Qed.

Lemma take_slice_bytes σ s : take (len s) (slice_bytes σ s) = slice_bytes σ s.
Proof. unfold slice_bytes. rewrite take_take. f_equal. lia. Qed.

(** What [CopyBytes] does to a slice with elements. *)
Lemma CopyBytes_Done σ b :
  ∃ s σ',
    CopyBytes b σ = Done (s, σ')
    ∧ bigs σ' = bigs σ ∧ vectors σ' = vectors σ ∧ txs σ' = txs σ
    ∧ arrays σ `prefix_of` arrays σ'
    ∧ slice_bytes σ' s = slice_bytes σ b
    ∧ ∀ ws, Forall (λ w : loc * nat * byte, (w.1.1 < length (arrays σ))%nat) ws →
        slice_bytes (write_arrays ws σ') s = slice_bytes σ b.
Proof.
  unfold CopyBytes. destruct (base b) as [l|] eqn:Hb.
  - eexists _, _. split; [reflexivity|]. simpl.
    repeat split; try done; [by eexists|..].
    + rewrite (slice_bytes_whole _ _ (slice_bytes σ b)) by apply lookup_snoc.
      apply take_slice_bytes.
    + intros ws Hws.
      rewrite (slice_bytes_whole _ _ (slice_bytes σ b)).
      * apply take_slice_bytes.
      * rewrite write_arrays_lookup; [apply lookup_snoc|].
        eapply Forall_impl; [exact Hws|]. simpl. lia.
  - exists nil_slice, σ. split; [reflexivity|].
    assert (slice_bytes σ b = []) as ->.
    { unfold slice_bytes, array_value. rewrite Hb. simpl.
      by rewrite drop_nil, take_nil. }
    repeat split; try done.
Qed.

End construction.

Section construction_claims.
Import types.

(** The first statement of [newTransaction]: the payload is a copy when
    the data has elements, and the empty data itself otherwise. *)
Lemma newTransaction_data σ data :
  ∃ s σ1,
    (if decide (0 < len data)%nat then CopyBytes data
     else (mret data : M slice)) σ = Done (s, σ1)
    ∧ bigs σ1 = bigs σ ∧ vectors σ1 = vectors σ ∧ txs σ1 = txs σ
    ∧ arrays σ `prefix_of` arrays σ1
    ∧ slice_bytes σ1 s = slice_bytes σ data
    ∧ ∀ ws, Forall (λ w : loc * nat * byte, (w.1.1 < length (arrays σ))%nat) ws →
        slice_bytes (write_arrays ws σ1) s = slice_bytes σ data.
Proof.
  destruct (decide (0 < len data)%nat) as [Hlen|Hlen].
  - apply CopyBytes_Done.
  - exists data, σ. split; [reflexivity|].
    repeat split; try done.
    intros ws _. rewrite !slice_bytes_empty by lia. done.
Qed.

Lemma write_arrays_others ws σ :
  bigs (write_arrays ws σ) = bigs σ
  ∧ vectors (write_arrays ws σ) = vectors σ
  ∧ txs (write_arrays ws σ) = txs σ.
Proof.
  unfold write_arrays. revert σ. induction ws as [|w ws IH]; intros σ; [done|].
  simpl. destruct (IH (write_array w.1.1 w.1.2 w.2 σ)) as (-> & -> & ->).
  done.
Qed.

Lemma slice_bytes_ext σ σ' s :
  arrays σ = arrays σ' → slice_bytes σ s = slice_bytes σ' s.
Proof. intros E. unfold slice_bytes, array_value. by rewrite E. Qed.

Lemma write_arrays_ext ws σ σ' :
  arrays σ = arrays σ' →
  arrays (write_arrays ws σ) = arrays (write_arrays ws σ').
Proof.
  unfold write_arrays. revert σ σ'.
  induction ws as [|w ws IH]; intros σ σ' E; [done|].
  simpl. apply IH. unfold write_array. simpl. by rewrite E.
Qed.

(** [d.Amount.Set(amount)] under its guard, on a fresh zero. *)
Lemma big_Set_guarded σ n p :
  bigs σ !! n = Some 0 →
  (p = None ∨ is_Some (big_value σ p)) →
  (if decide (p ≠ None) then big_Set (Some n) p else (mret () : M unit)) σ
  = Done ((), mkStore (<[n := default 0 (big_value σ p)]> (bigs σ))
                (arrays σ) (vectors σ) (txs σ)).
Proof.
  intros Hn Hp. destruct (decide (p ≠ None)) as [Hne|Heq].
  - destruct Hp as [->|[z Hz]]; [done|].
    unfold big_Set, mbind, M_bind, load_big, store_big. rewrite Hz. simpl.
    by rewrite decide_True by (by eapply lookup_lt_Some).
  - assert (p = None) as -> by (by destruct p; [destruct Heq|]).
    simpl. rewrite list_insert_id by done. by destruct σ.
Qed.

Lemma big_value_default_app σ p more a v t :
  (p = None ∨ is_Some (big_value σ p)) →
  big_value (mkStore (bigs σ ++ more) a v t) p = big_value σ p
  ∧ ∀ n z, (length (bigs σ) ≤ n)%nat →
      big_value (mkStore (<[n := z]> (bigs σ ++ more)) a v t) p = big_value σ p.
Proof.
  intros [->|[z Hz]]; [done|]. rewrite Hz.
  split; [by apply big_value_app|]. intros n z' Hn.
  destruct p as [l|]; [|done]. simpl in *.
  pose proof (lookup_lt_Some _ _ _ Hz).
  rewrite list_lookup_insert_ne by lia. by apply lookup_app_Some.
Qed.

(** C7. [newTransaction] returns a transaction whose value and gasPrice
    are zero when the argument is nil (and the number the argument points
    to otherwise), whose payload shows the bytes of the data and keeps
    showing them whatever the caller later writes to any array that
    existed at the call, whose restriction is the string [restricted],
    and whose [v], [r] and [s] are zero. *)
Theorem newTransaction_fields σ nonce to amount gasLimit gasPrice
    data privateFrom privateFor :
  (amount = None ∨ is_Some (big_value σ amount)) →
  (gasPrice = None ∨ is_Some (big_value σ gasPrice)) →
  ∃ tx σ' d,
    newTransaction nonce to amount gasLimit gasPrice data privateFrom privateFor σ
    = Done (Some tx, σ')
    ∧ txs σ' !! tx = Some d
    ∧ big_value σ' (Amount d) = Some (default 0 (big_value σ amount))
    ∧ big_value σ' (Price d) = Some (default 0 (big_value σ gasPrice))
    ∧ slice_bytes σ' (Payload d) = slice_bytes σ data
    ∧ (∀ ws, Forall (λ w : loc * nat * byte, (w.1.1 < length (arrays σ))%nat) ws →
         slice_bytes (write_arrays ws σ') (Payload d) = slice_bytes σ data)
    ∧ Restriction d = "restricted"
    ∧ big_value σ' (V d) = Some 0
    ∧ big_value σ' (R d) = Some 0
    ∧ big_value σ' (S d) = Some 0.
Proof.
  intros Hamount Hprice.
  destruct (newTransaction_data σ data)
    as (s & σ1 & Hdata & Hbigs & Hvecs & Htxs & Harr & Hread & Hstable).
  unfold newTransaction. unfold mbind at 1. unfold M_bind at 1.
  rewrite Hdata.
  unfold mbind, M_bind, new_big, mret, M_ret. simpl.
  rewrite <- !app_assoc, !length_app, Hbigs. simpl.
  set (n := length (bigs σ)).
  pose proof (big_value_default_app σ amount [0; 0; 0; 0; 0]
                (arrays σ1) (vectors σ1) (txs σ1) Hamount) as [Ea _].
  pose proof (big_value_default_app σ gasPrice [0; 0; 0; 0; 0]
                (arrays σ1) (vectors σ1) (txs σ1) Hprice) as [_ Ep].
  specialize (Ep n (default 0 (big_value σ amount)) ltac:(lia)).
  rewrite big_Set_guarded.
  2:{ simpl. rewrite lookup_app_r by lia. by rewrite Nat.sub_diag. }
  2:{ rewrite Ea. exact Hamount. }
  rewrite Ea.
  rewrite big_Set_guarded.
  2:{ simpl. rewrite list_lookup_insert_ne by lia. rewrite lookup_app_r by lia.
      by replace (n + 1 - length (bigs σ))%nat with 1%nat by lia. }
  2:{ cbn [bigs arrays vectors txs]. rewrite Ep. exact Hprice. }
  cbn [bigs arrays vectors txs]. rewrite Ep.
  eexists _, _, _. split; [reflexivity|]. simpl.
  split; [apply lookup_snoc|]. simpl.
  assert (∀ i z, (bigs σ ++ [0; 0; 0; 0; 0]) !! (n + i)%nat = Some z →
            i ≠ 0%nat → i ≠ 1%nat →
            <[(n + 1)%nat := default 0 (big_value σ gasPrice)]>
              (<[n := default 0 (big_value σ amount)]>
                 (bigs σ ++ [0; 0; 0; 0; 0])) !! (n + i)%nat = Some z) as Hother.
  { intros i z Hz ? ?. by rewrite !list_lookup_insert_ne by lia. }
  assert (length (bigs σ ++ [0; 0; 0; 0; 0]) = (n + 5)%nat) as Hlen
    by (rewrite length_app; simpl; lia).
  assert (∀ i : nat, (2 ≤ i < 5)%nat →
            (bigs σ ++ [0; 0; 0; 0; 0]) !! (n + i)%nat = Some 0) as Hzero.
  { intros i Hi. rewrite lookup_app_r by lia.
    replace (n + i - length (bigs σ))%nat with i by lia.
    destruct i as [|[|[|[|[|i]]]]]; try done; lia. }
  repeat split.
  - rewrite list_lookup_insert_ne by lia.
    by rewrite list_lookup_insert_eq by lia.
  - by rewrite list_lookup_insert_eq by (rewrite length_insert; lia).
  - rewrite <- Hread. by apply slice_bytes_ext.
  - intros ws Hws. rewrite <- (Hstable ws Hws).
    by apply slice_bytes_ext, write_arrays_ext.
  - apply Hother; [apply Hzero|..]; lia.
  - apply Hother; [apply Hzero|..]; lia.
  - apply Hother; [apply Hzero|..]; lia.
Qed.

(** The call of the README, [gasPrice] a zero and [value] nil, and a
    caller that then overwrites the first byte of its data. *)
Lemma newTransaction_fields_witness :
  ∃ tx σ' d,
    newTransaction 0 None None 3000000 (Some 1%nat) sample.data_slice
      sample.privateFrom_slice sample.privateFor_slice sample.caller_store
    = Done (Some tx, σ')
    ∧ txs σ' !! tx = Some d
    ∧ big_value σ' (Amount d) = Some 0
    ∧ big_value σ' (Price d) = Some 0
    ∧ slice_bytes σ' (Payload d) = sample.data
    ∧ slice_bytes (write_arrays [(0%nat, 0%nat, xff)] σ') (Payload d)
      = sample.data
    ∧ slice_bytes (write_arrays [(0%nat, 0%nat, xff)] σ') sample.data_slice
      ≠ sample.data
    ∧ Restriction d = "restricted".
Proof.
  destruct (newTransaction_fields sample.caller_store 0 None None 3000000
              (Some 1%nat) sample.data_slice sample.privateFrom_slice
              sample.privateFor_slice)
    as (tx & σ' & d & Hrun & Hd & Ha & Hp & Hpay & Hstable & Hr & _).
  { by left. }
  { right. by eexists. }
  exists tx, σ', d.
  split; [exact Hrun|]. split; [exact Hd|]. split; [exact Ha|].
  split; [exact Hp|]. split; [exact Hpay|].
  split; [apply (Hstable [(0%nat, 0%nat, xff)]); repeat constructor|].
  split; [|exact Hr].
  vm_compute in Hrun. injection Hrun as <- <-. vm_compute. discriminate.
Defined.

End construction_claims.

(** ** The signing digest *)

Section digest_claims.
Import types.

Lemma hash_Done σ tx chainID d :
  txs σ !! tx = Some d →
  hash (Some tx) chainID σ = Done (digest σ d chainID, σ).
Proof.
  intros Htx. unfold hash, mbind, M_bind, load_tx, get_store, mret, M_ret.
  simpl. by rewrite Htx.
Qed.

Lemma encode_BigIntPtr p :
  0 ≤ default 0 p →
  rlp.encode (rlp.BigIntPtr p) = inr (RLP.encode (RLP.of_int (default 0 p))).
Proof.
  destruct p as [i|]; simpl; [apply writeBigInt_of_int|done].
Qed.

Lemma encode_AddressPtr p :
  rlp.encode (rlp.AddressPtr p) = inr (RLP.encode (RLP.of_optional p)).
Proof.
  destruct p as [a|]; [|done]. simpl. by rewrite writeBytes_encode_str.
Qed.

(** C3. The signing digest is the Keccak-256 hash of the canonical
    encoding of the field sequence nonce, gasPrice, gasLimit, recipient
    (or the empty marker), value, payload, chainId, 0, 0, privateFrom,
    privateFor as a nested list of byte strings, restriction, in this
    order. The integers are those the canonical encoding is defined on:
    the nonce and the gas limit are [uint64] values and gasPrice, value
    and chainId are not negative (a nil pointer counts as zero). *)
Theorem hash_signing_fields σ tx chainID d :
  txs σ !! tx = Some d →
  0 ≤ AccountNonce d < 2 ^ 64 → 0 ≤ GasLimit d < 2 ^ 64 →
  0 ≤ default 0 (big_value σ (Price d)) →
  0 ≤ default 0 (big_value σ (Amount d)) →
  0 ≤ default 0 (big_value σ chainID) →
  hash (Some tx) chainID σ
  = Done (spec.signingDigest
            (spec.signing_fields
               (AccountNonce d)
               (default 0 (big_value σ (Price d)))
               (GasLimit d)
               (array_value σ (Recipient d))
               (default 0 (big_value σ (Amount d)))
               (slice_bytes σ (Payload d))
               (default 0 (big_value σ chainID))
               (slice_bytes σ (PrivateFrom d))
               (slices_bytes σ (PrivateFor d))
               (Restriction d)),
          σ).
Proof.
  intros Htx Hnonce Hgas Hprice Hamount Hchain.
  rewrite (hash_Done _ _ _ _ Htx). f_equal. f_equal.
  unfold digest, rlpHash, rlp.Encode, spec.signingDigest, spec.signing_fields.
  rewrite (encode_Slice _
    [ RLP.of_int (AccountNonce d);
      RLP.of_int (default 0 (big_value σ (Price d)));
      RLP.of_int (GasLimit d);
      RLP.of_optional (array_value σ (Recipient d));
      RLP.of_int (default 0 (big_value σ (Amount d)));
      RLP.Str (slice_bytes σ (Payload d));
      RLP.of_int (default 0 (big_value σ chainID));
      RLP.of_int 0; RLP.of_int 0;
      RLP.Str (slice_bytes σ (PrivateFrom d));
      RLP.List (RLP.Str <$> slices_bytes σ (PrivateFor d));
      RLP.Str (bytes_of_string (Restriction d)) ]); [done|].
  unfold hash_fields.
  repeat (apply Forall2_cons; split); try apply Forall2_nil.
  - simpl. f_equal. by apply writeUint_of_int.
  - by apply encode_BigIntPtr.
  - simpl. f_equal. by apply writeUint_of_int.
  - apply encode_AddressPtr.
  - by apply encode_BigIntPtr.
  - simpl. f_equal. apply writeBytes_encode_str.
  - by apply encode_BigIntPtr.
  - reflexivity.
  - reflexivity.
  - simpl. f_equal. apply writeBytes_encode_str.
  - apply encode_Bytes_slice.
  - simpl. f_equal. apply writeBytes_encode_str.
  - done.
Qed.

(** The transaction of the README and the chain id 2018. *)
Lemma hash_signing_fields_witness :
  hash (Some 0%nat) (Some 0%nat) sample.besutx_store
  = Done (spec.signingDigest
            (spec.signing_fields 0 0 3000000 None 0 sample.data 2018
               sample.privateFrom [sample.privateFor1; sample.privateFor2]
               "restricted"),
          sample.besutx_store).
Proof.
  apply (hash_signing_fields sample.besutx_store 0%nat (Some 0%nat)
           sample.besutx);
    try reflexivity; try (vm_compute; split; congruence);
    try (vm_compute; congruence).
Defined.

(** A slice with an element the encoder rejects is rejected, when the
    elements before it are written. *)
Lemma encode_Slice_error (pre post : list rlp.value) v e :
  Forall (λ v, ∃ bs, rlp.encode v = inr bs) pre →
  rlp.encode v = inl e →
  rlp.encode (rlp.Slice (pre ++ v :: post)) = inl e.
Proof.
  intros Hpre Hv.
  assert ((fix elements (l : list rlp.value) : error + list byte :=
             match l with
             | [] => inr []
             | x :: l' =>
                 match rlp.encode x with
                 | inl e => inl e
                 | inr bx =>
                     match elements l' with
                     | inl e => inl e
                     | inr bl => inr (bx ++ bl)
                     end
                 end
             end) (pre ++ v :: post) = inl e) as E.
  { induction Hpre as [|x pre [bs Hx] _ IH]; simpl.
    - by rewrite Hv.
    - by rewrite Hx, IH. }
  simpl. by rewrite E.
Qed.

(** With a negative chain id the encoder fails, writes nothing, and the
    digest is that of the empty input. *)
Lemma hash_negative_chain_id σ tx chainID d c :
  txs σ !! tx = Some d →
  0 ≤ default 0 (big_value σ (Price d)) →
  0 ≤ default 0 (big_value σ (Amount d)) →
  big_value σ chainID = Some c → c < 0 →
  hash (Some tx) chainID σ = Done (sha3.Keccak256 [], σ).
Proof.
  intros Htx Hprice Hamount Hc Hneg.
  rewrite (hash_Done _ _ _ _ Htx). f_equal. f_equal.
  unfold digest, rlpHash, rlp.Encode, hash_fields.
  pose proof (encode_Slice_error (take 6 (hash_fields σ d chainID))
                (drop 7 (hash_fields σ d chainID))
                (rlp.BigIntPtr (big_value σ chainID))
                "rlp: cannot encode negative *big.Int") as E.
  unfold hash_fields in E. cbn [take drop app] in E.
  rewrite E; [done| |].
  - repeat (apply Forall_cons; split); try apply Forall_nil_2;
      try (by eexists); try (eexists; by apply encode_BigIntPtr).
    destruct (array_value σ (Recipient d)); by eexists.
  - rewrite Hc. simpl. unfold rlp.writeBigInt. by rewrite decide_True by lia.
Qed.

End digest_claims.

(** ** The receipt mapping *)

Section receipt.
Import types.
Context `{Base64Decoder, Geth}.

Lemma bind_Done {A B} (m : result A) (k : A → result B) b :
  m ≫= k = Done b → ∃ a, m = Done a ∧ k a = Done b.
Proof. destruct m as [a|p]; [by exists a|done]. Qed.

Lemma index_Some (r : gmap string iface) key v :
  r !! key = Some v → index r key = v.
Proof. intros E. unfold index. by rewrite E. Qed.

Lemma assert_list_Done v vs : assert_list v = Done vs → v = IList vs.
Proof. destruct v; simpl; congruence. Qed.

Lemma assert_bytes_Done v b : assert_bytes v = Done b → v = IBytes b.
Proof. destruct v; simpl; congruence. Qed.

(** A receipt comes out only past the check of [logs] and the loop over
    its entries, with the logs that loop returns. *)
Lemma MarshalPrivateReceipt_receipt r receipt :
  MarshalPrivateReceipt r = Done (inr receipt) →
  ∃ vs, r !! "logs" = Some (IList vs) ∧ decode_logs vs [] = Done (Logs receipt).
Proof.
  unfold MarshalPrivateReceipt. intros Hrun.
  apply bind_Done in Hrun as (contractAddress & _ & Hrun).
  apply bind_Done in Hrun as (output & _ & Hrun).
  destruct (decide (r !! "commitmentHash" = None)); [discriminate Hrun|].
  apply bind_Done in Hrun as (s1 & _ & Hrun).
  destruct (decide (r !! "transactionHash" = None)); [discriminate Hrun|].
  apply bind_Done in Hrun as (s2 & _ & Hrun).
  destruct (decide (r !! "privateFrom" = None)); [discriminate Hrun|].
  apply bind_Done in Hrun as (s3 & _ & Hrun).
  destruct (privacy.ToPublicKey s3) as [err|privateFrom]; [discriminate Hrun|].
  destruct (decide (r !! "privateFor" = None)); [discriminate Hrun|].
  apply bind_Done in Hrun as (vs' & _ & Hrun).
  apply bind_Done in Hrun as (privateFor & _ & Hrun).
  apply bind_Done in Hrun as (status & _ & Hrun).
  destruct (decide (r !! "logs" = None)) as [|Hlogs]; [discriminate Hrun|].
  apply bind_Done in Hrun as (vs & Hvs & Hrun).
  apply bind_Done in Hrun as (logs & Hloop & Hrun).
  destruct (decide (r !! "logsBloom" = None)); [discriminate Hrun|].
  apply bind_Done in Hrun as (logsBloomString & _ & Hrun).
  destruct (hexutil_Decode logsBloomString); [discriminate Hrun|].
  apply bind_Done in Hrun as (logsBloom & _ & Hrun).
  apply bind_Done in Hrun as (blockHash & _ & Hrun).
  apply bind_Done in Hrun as (blockNumber & _ & Hrun).
  apply bind_Done in Hrun as (transactionIndex & _ & Hrun).
  injection Hrun as <-. simpl.
  exists vs. split; [|done].
  apply assert_list_Done in Hvs. unfold index in Hvs.
  destruct (r !! "logs"); [|done]. simpl in Hvs. by subst.
Qed.

(** The loop over the log entries returns only when it has skipped every
    entry, and then returns the logs it started with. *)
Lemma decode_logs_Done vs logs res :
  decode_logs vs logs = Done res → res = logs ∧ Forall skipped vs.
Proof.
  revert logs. induction vs as [|v vs IH]; intros logs Hrun; simpl in Hrun.
  - injection Hrun as <-. by split.
  - apply bind_Done in Hrun as (input & Hv%assert_bytes_Done & Hrun).
    unfold Log_UnmarshalJSON in Hrun.
    destruct (json_decode_Log input) as [err|dec] eqn:Hdec; [|done].
    simpl in Hrun. apply IH in Hrun as [-> Hvs]. split; [done|].
    constructor; [|done]. by exists input, err.
Qed.

Lemma decode_logs_skipped vs logs :
  Forall skipped vs → decode_logs vs logs = Done logs.
Proof.
  induction 1 as [|v vs (b & e & -> & Hb) _ IH]; [done|].
  simpl. unfold Log_UnmarshalJSON. rewrite Hb. simpl. exact IH.
Qed.

(** An entry that is no byte slice stops the loop at the type assertion;
    a byte slice that decodes stops it at the nil receiver. *)
Lemma decode_logs_panics pre v post logs :
  Forall skipped pre →
  ((∀ b, v ≠ IBytes b) →
   decode_logs (pre ++ v :: post) logs = Panic (PanicTypeAssertion "[]uint8"))
  ∧ (∀ b dec, v = IBytes b → json_decode_Log b = inr dec →
     decode_logs (pre ++ v :: post) logs = Panic PanicNilDereference).
Proof.
  induction 1 as [|w pre (b & e & -> & Hb) _ IH]; simpl.
  - split.
    + intros Hv. destruct v; try done. by destruct (Hv b).
    + intros b dec -> Hb. simpl. unfold Log_UnmarshalJSON. by rewrite Hb.
  - unfold Log_UnmarshalJSON. rewrite Hb. simpl. exact IH.
Qed.

Lemma optional_step {A} (r : gmap string iface) key (f : string → A) z :
  optional_string r key →
  ∃ a, match r !! key with
       | Some v => s ← assert_string v; Done (f s)
       | None => Done z
       end = Done a.
Proof.
  intros Hk. destruct (r !! key) as [v|] eqn:E; [|by eexists].
  destruct (Hk v E) as [s ->]. by eexists.
Qed.

Lemma decode_privateFor_strings vs keys :
  Forall (λ v, ∃ s, v = IString s) vs →
  ∃ keys', decode_privateFor vs keys = Done keys'.
Proof.
  intros Hvs. revert keys.
  induction Hvs as [|v vs [s ->] _ IH]; intros keys; [by eexists|].
  simpl. destruct (privacy.ToPublicKey s); apply IH.
Qed.

(** Up to the check of [commitmentHash]. *)
Lemma MarshalPrivateReceipt_no_commitmentHash r :
  passes_before_commitmentHash r → r !! "commitmentHash" = None →
  MarshalPrivateReceipt r = Done (inl "commitmentHash not found").
Proof.
  intros [Hc Ho] Hmiss. unfold MarshalPrivateReceipt.
  destruct (optional_step r "contractAddress" common_HexToAddress
              zero_Address Hc) as [a ->].
  destruct (optional_step r "output"
              (λ s, match hexutil_Decode s with inr b => b | inl _ => [] end)
              [] Ho) as [o ->].
  simpl. by rewrite decide_True.
Qed.

(** Up to the check of [transactionHash]. *)
Lemma MarshalPrivateReceipt_no_transactionHash r :
  passes_before_transactionHash r → r !! "transactionHash" = None →
  MarshalPrivateReceipt r = Done (inl "transactionHash not found").
Proof.
  intros [[Hc Ho] [s1 Hs1]] Hmiss. unfold MarshalPrivateReceipt.
  destruct (optional_step r "contractAddress" common_HexToAddress
              zero_Address Hc) as [a ->].
  destruct (optional_step r "output"
              (λ s, match hexutil_Decode s with inr b => b | inl _ => [] end)
              [] Ho) as [o ->].
  simpl. rewrite decide_False by congruence.
  rewrite (index_Some _ _ _ Hs1). simpl. by rewrite decide_True.
Qed.

(** Up to the loop over [logs]: the mapping is what follows the loop, or
    the error that [logs] is missing. *)
Lemma MarshalPrivateReceipt_logs r :
  passes_before_logs r →
  (r !! "logs" = None →
   MarshalPrivateReceipt r = Done (inl "logs not found"))
  ∧ (∀ vs p, r !! "logs" = Some (IList vs) → decode_logs vs [] = Panic p →
     MarshalPrivateReceipt r = Panic p).
Proof.
  intros ([[Hc Ho] [s1 Hs1]] & [s2 Hs2] & (s3 & key & Hs3 & Hkey)
          & (vs' & Hfor & Hvs') & Hstatus).
  unfold MarshalPrivateReceipt.
  destruct (optional_step r "contractAddress" common_HexToAddress
              zero_Address Hc) as [a ->].
  destruct (optional_step r "output"
              (λ s, match hexutil_Decode s with inr b => b | inl _ => [] end)
              [] Ho) as [o ->].
  simpl. rewrite decide_False by congruence.
  rewrite (index_Some _ _ _ Hs1). simpl.
  rewrite decide_False by congruence.
  rewrite (index_Some _ _ _ Hs2). simpl.
  rewrite decide_False by congruence.
  rewrite (index_Some _ _ _ Hs3). simpl. rewrite Hkey.
  rewrite decide_False by congruence.
  rewrite (index_Some _ _ _ Hfor). simpl.
  destruct (decode_privateFor_strings vs' [] Hvs') as [keys ->]. simpl.
  destruct (optional_step r "status"
              (λ s, if decide (s = "0x1") then 1 else 0) 0 Hstatus) as [st ->].
  simpl. split.
  - intros Hmiss. by rewrite decide_True.
  - intros vs p Hlogs Hloop. rewrite decide_False by congruence.
    rewrite (index_Some _ _ _ Hlogs). simpl. by rewrite Hloop.
Qed.

End receipt.

(** ** Claims on the receipt mapping *)

Section receipt_claims.
Import types.

(** C9, as stated, fails: the empty map lacks [logs], and the error it
    gets is [commitmentHash not found], which does not name [logs]. *)
Lemma MarshalPrivateReceipt_missing_logs_counterexample :
  ¬ (∀ (decoder : Base64Decoder) (geth : Geth) (r : gmap string iface),
       r !! "logs" = None →
       ∃ msg, MarshalPrivateReceipt r = Done (inl msg)
              ∧ names "logs" msg = true).
Proof.
  intros H.
  destruct (H sample.canonical_base64 sample.stub_geth ∅ (lookup_empty _))
    as (msg & Hrun & Hnames).
  rewrite (@MarshalPrivateReceipt_no_commitmentHash sample.canonical_base64
             sample.stub_geth ∅) in Hrun.
  - injection Hrun as <-. vm_compute in Hnames. discriminate Hnames.
  - split; intros v Hv; by rewrite lookup_empty in Hv.
  - apply lookup_empty.
Qed.

(** C9, amended. A receipt response map that lacks [logs] never yields a
    receipt, with an empty log list or otherwise. It yields the error
    [logs not found] when it passes what is checked before [logs]: the
    optional [contractAddress], [output] and [status] are strings where
    present, [commitmentHash], [transactionHash] and [privateFrom] are
    strings, [privateFrom] decodes, and [privateFor] is a list of
    strings. Likewise a map that lacks [commitmentHash], or
    [transactionHash], yields the error that names that field when it
    passes what is checked before it. *)
Theorem MarshalPrivateReceipt_missing_field `{Base64Decoder, Geth}
    (r : gmap string iface) :
  (r !! "logs" = None →
   ∀ receipt, MarshalPrivateReceipt r ≠ Done (inr receipt))
  ∧ (passes_before_logs r → r !! "logs" = None →
     MarshalPrivateReceipt r = Done (inl "logs not found")
     ∧ names "logs" "logs not found" = true)
  ∧ (passes_before_commitmentHash r → r !! "commitmentHash" = None →
     MarshalPrivateReceipt r = Done (inl "commitmentHash not found")
     ∧ names "commitmentHash" "commitmentHash not found" = true)
  ∧ (passes_before_transactionHash r → r !! "transactionHash" = None →
     MarshalPrivateReceipt r = Done (inl "transactionHash not found")
     ∧ names "transactionHash" "transactionHash not found" = true).
Proof.
  repeat split.
  - intros Hmiss receipt Hrun.
    apply MarshalPrivateReceipt_receipt in Hrun as (vs & Hlogs & _).
    congruence.
  - by apply MarshalPrivateReceipt_logs.
  - by apply MarshalPrivateReceipt_no_commitmentHash.
  - by apply MarshalPrivateReceipt_no_transactionHash.
Qed.

Lemma sample_passes_before_logs logs :
  @passes_before_logs sample.canonical_base64 (sample.response_with_logs logs)
  ∧ @passes_before_logs sample.canonical_base64 sample.response_without_logs.
Proof.
  assert (@passes_before_logs sample.canonical_base64
            sample.response_without_logs) as Hp.
  { repeat split.
    - intros v. vm_compute. intros [= <-]. by eexists.
    - intros v. vm_compute. intros [= <-]. by eexists.
    - eexists. vm_compute. reflexivity.
    - eexists. vm_compute. reflexivity.
    - eexists _, _. split; vm_compute; reflexivity.
    - eexists. split; [vm_compute; reflexivity|].
      repeat constructor. by eexists.
    - intros v. vm_compute. intros [= <-]. by eexists. }
  split; [|exact Hp].
  assert (∀ key, key ≠ "logs" →
            sample.response_with_logs logs !! key
            = sample.response_without_logs !! key) as Hsame.
  { intros key Hne. unfold sample.response_with_logs.
    by rewrite lookup_insert_ne. }
  destruct Hp as ([[Hc Ho] [s1 Hs1]] & [s2 Hs2] & (s3 & key & Hs3 & Hkey)
                  & (vs' & Hfor & Hvs') & Hstatus).
  unfold passes_before_logs, passes_before_transactionHash,
    passes_before_commitmentHash, optional_string, has_string.
  rewrite !Hsame by discriminate. repeat split; eauto.
Qed.

(** The response of the sample without [logs]. *)
Lemma MarshalPrivateReceipt_missing_field_witness :
  @MarshalPrivateReceipt sample.canonical_base64 sample.stub_geth
     sample.response_without_logs
  = Done (inl "logs not found").
Proof.
  apply (@MarshalPrivateReceipt_missing_field sample.canonical_base64
           sample.stub_geth sample.response_without_logs).
  - exact (proj2 (sample_passes_before_logs [])).
  - vm_compute. reflexivity.
Defined.

Lemma returns_receipt_true `{Geth} (res : result (error + PrivateReceipt)) :
  returns_receipt res = true → ∃ receipt, res = Done (inr receipt).
Proof. destruct res as [[e|receipt]|p]; try done. by exists receipt. Qed.

(** C10, as stated, fails: a log entry that is a byte slice and no JSON
    makes [UnmarshalJSON] return its decoding error before it touches
    the nil receiver; the entry is skipped and the mapping returns a
    receipt. *)
Lemma MarshalPrivateReceipt_log_entries_counterexample :
  ¬ (∀ (decoder : Base64Decoder) (geth : Geth) (r : gmap string iface) vs,
       passes_before_logs r → has_string r "logsBloom" →
       r !! "logs" = Some (IList vs) → vs ≠ [] →
       ∀ res, MarshalPrivateReceipt r ≠ Done res).
Proof.
  intros H.
  assert (@returns_receipt sample.stub_geth
            (@MarshalPrivateReceipt sample.canonical_base64 sample.stub_geth
               (sample.response_with_logs [IBytes [x78]])) = true) as Hret
    by (vm_compute; reflexivity).
  apply returns_receipt_true in Hret as [res Hrun].
  apply (H sample.canonical_base64 sample.stub_geth
           (sample.response_with_logs [IBytes [x78]]) [IBytes [x78]]
           (proj1 (sample_passes_before_logs _))) with (inr res).
  - eexists. vm_compute. reflexivity.
  - apply lookup_insert_eq.
  - discriminate.
  - exact Hrun.
Qed.

(** C10, amended. For a receipt response map whose [logs] entry is a
    list, no log entry ever reaches the result. The loop returns
    normally only when each entry is a byte slice for which
    [UnmarshalJSON] returns an error; those entries are skipped and the
    receipt, if one is returned, has no logs. The first entry that is
    not skipped stops a map that passes the checks before [logs] with a
    panic: at the type assertion when the entry is no byte slice (as for
    every entry decoded from JSON), and at the nil log pointer when the
    byte slice decodes. *)
Theorem MarshalPrivateReceipt_log_entries `{Base64Decoder, Geth}
    (r : gmap string iface) (vs : list iface) :
  r !! "logs" = Some (IList vs) →
  (∀ receipt, MarshalPrivateReceipt r = Done (inr receipt) →
     Forall skipped vs ∧ Logs receipt = [])
  ∧ (decode_logs vs [] = Done [] ↔ Forall skipped vs)
  ∧ (passes_before_logs r →
     ∀ pre v post, vs = pre ++ v :: post → Forall skipped pre →
       ((∀ b, v ≠ IBytes b) →
        MarshalPrivateReceipt r = Panic (PanicTypeAssertion "[]uint8"))
       ∧ (∀ b dec, v = IBytes b → json_decode_Log b = inr dec →
          MarshalPrivateReceipt r = Panic PanicNilDereference)).
Proof.
  intros Hlogs. split; [|split].
  - intros receipt Hrun.
    apply MarshalPrivateReceipt_receipt in Hrun as (vs' & Hlogs' & Hloop).
    assert (vs' = vs) as -> by congruence.
    apply decode_logs_Done in Hloop as [-> ?]. done.
  - split; [by intros [_ ?]%decode_logs_Done|apply decode_logs_skipped].
  - intros Hpass pre v post -> Hpre.
    destruct (decode_logs_panics pre v post [] Hpre) as [Hassert Hnil].
    destruct (MarshalPrivateReceipt_logs r Hpass) as [_ Hpanic].
    split.
    + intros Hv. by apply (Hpanic _ _ Hlogs), Hassert.
    + intros b dec Hv Hb. apply (Hpanic _ _ Hlogs). by eapply Hnil.
Qed.

(** A response whose one log entry is a JSON object, as the node sends
    it: the mapping panics at the type assertion. *)
Lemma MarshalPrivateReceipt_log_entries_witness :
  @MarshalPrivateReceipt sample.canonical_base64 sample.stub_geth
     (sample.response_with_logs [IMap ∅])
  = Panic (PanicTypeAssertion "[]uint8").
Proof.
  apply (@MarshalPrivateReceipt_log_entries sample.canonical_base64
           sample.stub_geth (sample.response_with_logs [IMap ∅]) [IMap ∅]
           (lookup_insert_eq _ _ _))
    with (pre := []) (v := IMap ∅) (post := []).
  - exact (proj1 (sample_passes_before_logs _)).
  - reflexivity.
  - constructor.
  - discriminate.
Defined.

End receipt_claims.

(** ** Claims on the group lookup *)

Section lookup_claims.
Import privacy.

(** Keys that have bytes are written as their base64 strings. *)
Lemma mapM_marshal_key (keys : list PublicKey) :
  Forall (λ p, p ≠ []) keys →
  mapM marshal_key keys = Some (JString <$> (ToString <$> keys)).
Proof.
  induction 1 as [|p keys Hp _ IH]; [done|].
  cbn [mapM]. rewrite IH. unfold marshal_key at 1.
  by rewrite decide_False by done.
Qed.



End lookup_claims.

(** * Further properties of the code *)

(** ** The ordering, beyond the claims *)

Section ordering_more.
Import privacy.

Implicit Types (ps : list PublicKey).

Lemma NoDup_keys_of ps : NoDup (keys_of ps).
Proof. apply NoDup_fst_map_to_list. Qed.

(** The keys of the map are the hashes of the participants. *)
Lemma elem_of_keys_of_Hash ps h : h ∈ keys_of ps ↔ h ∈ Hash <$> ps.
Proof.
  rewrite elem_of_keys_of, hashMap_of_lookup, list_elem_of_fmap. split.
  - intros [q [? ?]%survivor_Some]. by exists q.
  - intros [p [-> Hp]]. by apply survivor_is_Some.
Qed.

Lemma NoDup_sort ps : NoDup (sort ps).
Proof.
  apply (NoDup_fmap_1 Hash). rewrite Hash_sort. unfold sort_Ints.
  rewrite merge_sort_Permutation. apply NoDup_keys_of.
Qed.

Lemma sort_subset ps q : q ∈ sort ps → q ∈ ps.
Proof. intros [h [_ ?]%survivor_Some]%elem_of_sort. done. Qed.

Lemma keys_of_NoDup_Hash ps : NoDup (Hash <$> ps) → keys_of ps ≡ₚ Hash <$> ps.
Proof.
  intros Hnd. apply NoDup_Permutation; [apply NoDup_keys_of|done|].
  apply elem_of_keys_of_Hash.
Qed.

Lemma sort_NoDup_Hash_Permutation ps : NoDup (Hash <$> ps) → sort ps ≡ₚ ps.
Proof.
  intros Hnd. apply NoDup_Permutation.
  - apply NoDup_sort.
  - by apply (NoDup_fmap_1 Hash).
  - intros q. split; [apply sort_subset|]. intros Hq.
    apply elem_of_sort. exists (Hash q).
    destruct (survivor_is_Some ps q Hq) as [q' Hq']. rewrite Hq'. f_equal.
    pose proof (survivor_Some _ _ _ Hq') as [? ?].
    by apply (NoDup_Hash_injective ps Hnd).
Qed.

(** The three keys of the README, enumerated in the reverse of the order
    in which the model enumerates the map. *)
Lemma sort_from_range_order_witness :
  sort_from [2130677321; 568079351; -487930036]
    [sample.privateFrom; sample.privateFor1; sample.privateFor2]
  = sort [sample.privateFrom; sample.privateFor1; sample.privateFor2].
Proof.
  apply sort_from_range_order.
  assert (keys_of [sample.privateFrom; sample.privateFor1; sample.privateFor2]
          = [-487930036; 568079351; 2130677321]) as -> by (vm_compute; reflexivity).
  exact (reverse_Permutation [-487930036; 568079351; 2130677321]).
Defined.

(** [sort] returns participants of its input, each at most once,
    and never more than it was given. It returns all of them, in some
    order, when their hashes are distinct, and it returns fewer whenever
    two participants share a hash. *)
Theorem sort_drops_only_collisions ps :
  sort ps ⊆+ ps
  ∧ (length (sort ps) ≤ length ps)%nat
  ∧ (NoDup (Hash <$> ps) → sort ps ≡ₚ ps)
  ∧ (length (sort ps) = length ps ↔ NoDup (Hash <$> ps)).
Proof.
  assert (sort ps ⊆+ ps) as Hsub
    by (apply NoDup_submseteq; [apply NoDup_sort|apply sort_subset]).
  split; [done|]. split; [by apply submseteq_length|].
  split; [apply sort_NoDup_Hash_Permutation|]. split.
  - intros Hlen.
    assert (keys_of ps ⊆+ Hash <$> ps) as Hk.
    { apply NoDup_submseteq; [apply NoDup_keys_of|].
      intros h. apply elem_of_keys_of_Hash. }
    apply submseteq_length_Permutation in Hk.
    + rewrite <- Hk. apply NoDup_keys_of.
    + rewrite length_fmap, <- Hlen, <- (length_fmap Hash (sort ps)), Hash_sort.
      unfold sort_Ints. by rewrite merge_sort_Permutation.
  - intros Hnd. by rewrite (sort_NoDup_Hash_Permutation ps Hnd).
Qed.

(** A list whose hashes ascend strictly is what [sort] returns for it. *)
Lemma sort_sorted ps : StronglySorted Z.lt (Hash <$> ps) → sort ps = ps.
Proof.
  intros Hs.
  assert (NoDup (Hash <$> ps)) as Hnd.
  { clear -Hs. induction Hs as [|h hs _ IH Hh]; constructor; [|done].
    intros Hin. rewrite Forall_forall in Hh. specialize (Hh h Hin). lia. }
  assert (Hash <$> sort ps = Hash <$> ps) as Hhash.
  { rewrite Hash_sort. unfold sort_Ints.
    apply (Sorted_unique Z.le); [apply Sorted_merge_sort; apply _| |].
    - apply StronglySorted_Sorted. clear -Hs.
      induction Hs as [|h hs _ IH Hh]; constructor; [done|].
      eapply Forall_impl; [exact Hh|]. intros ??. simpl in *. lia.
    - rewrite merge_sort_Permutation. by apply keys_of_NoDup_Hash. }
  apply list_eq. intros i.
  pose proof (f_equal (λ l, l !! i) Hhash) as Hi. simpl in Hi.
  rewrite !list_lookup_fmap in Hi.
  destruct (sort ps !! i) as [q|] eqn:Hq, (ps !! i) as [p|] eqn:Hp;
    simplify_eq/=; [|done].
  f_equal. apply (NoDup_Hash_injective ps Hnd); [|by eapply list_elem_of_lookup_2|done].
  apply sort_subset. by eapply list_elem_of_lookup_2.
Qed.

(** [sort] is idempotent: the list it returns is sorted, and sorting
    it again returns it unchanged. *)
Theorem sort_idempotent ps : sort (sort ps) = sort ps.
Proof.
  apply sort_sorted. rewrite Hash_sort.
  apply sort_Ints_strictly_ascending, NoDup_keys_of.
Qed.

Lemma hashMap_of_shadowed p ps :
  Hash p ∈ Hash <$> ps → hashMap_of (p :: ps) = hashMap_of ps.
Proof.
  intros Hin. apply map_eq. intros h. rewrite !hashMap_of_lookup.
  unfold spec.survivor. rewrite filter_cons.
  destruct (decide (Hash p = h)) as [<-|]; [|done].
  apply list_elem_of_fmap in Hin as [q [Hq Hin]].
  assert (q ∈ filter (λ p0, Hash p0 = Hash p) ps) as Hf
    by (by apply list_elem_of_filter).
  destruct (filter (λ p0, Hash p0 = Hash p) ps) as [|x l]; [|done].
  by apply not_elem_of_nil in Hf.
Qed.

(** A participant whose hash occurs again later in the list is
    overwritten: leaving it out changes neither the sorted list nor the
    root privacy group. This holds for a repeated key and for a distinct
    key that collides, alike. *)
Theorem sort_shadowed p ps :
  Hash p ∈ Hash <$> ps →
  sort (p :: ps) = sort ps
  ∧ FindRootPrivacyGroup (p :: ps) = FindRootPrivacyGroup ps.
Proof.
  intros Hin. pose proof (hashMap_of_shadowed p ps Hin) as E.
  assert (sort (p :: ps) = sort ps) as Hsort
    by (unfold sort, sort_from, keys_of; by rewrite E).
  split; [done|]. unfold FindRootPrivacyGroup. by rewrite Hsort.
Qed.

Lemma sort_shadowed_witness :
  sort [sample.colliding1; sample.colliding2] = sort [sample.colliding2]
  ∧ FindRootPrivacyGroup [sample.colliding1; sample.colliding2]
    = FindRootPrivacyGroup [sample.colliding2].
Proof.
  apply sort_shadowed. vm_compute. apply list_elem_of_here.
Defined.

End ordering_more.

(** ** The identifier of the root privacy group *)

Section identifier.
Import privacy.

Lemma rho_pi_fold_length (l : list (nat * Z)) (s : list sha3.lane) t :
  length
    (fold_left (λ '(s, t) '(j, r), (<[j := sha3.rotl t r]> s, sha3.get s j))
       l (s, t)).1 = length s.
Proof.
  revert s t. induction l as [|[j r] l IH]; intros s t; [done|].
  simpl. by rewrite IH, length_insert.
Qed.

Lemma round_length st c : length (sha3.round st c) = length st.
Proof.
  unfold sha3.round, sha3.iota, sha3.chi, sha3.rho_pi, sha3.theta.
  by rewrite length_insert, length_imap, rho_pi_fold_length, length_imap.
Qed.

Lemma fold_left_length {A B : Type} (f : list A → B → list A) :
  (∀ st c, length (f st c) = length st) →
  ∀ cs st, length (fold_left f cs st) = length st.
Proof.
  intros Hf. induction cs as [|c cs IH]; intros st; [done|].
  simpl. by rewrite IH.
Qed.

Lemma keccakF1600_length st : length (sha3.keccakF1600 st) = length st.
Proof. apply (fold_left_length sha3.round), round_length. Qed.

(** The absorbing loop, for any step that keeps the length of the state. *)
Lemma absorb_loop_length {A B : Type} (step : list A → list B → list A)
    (r : nat) :
  (∀ st block, length (step st block) = length st) →
  ∀ blocks msg st,
    length
      ((fix absorb (blocks : nat) (msg : list B) (st : list A) : list A :=
          match blocks with
          | O => st
          | S n => absorb n (drop r msg) (step st (take r msg))
          end) blocks msg st) = length st.
Proof.
  intros Hstep. induction blocks as [|n IH]; intros msg st; [done|].
  rewrite IH. apply Hstep.
Qed.

Lemma absorb_length blocks msg st :
  length (sha3.absorb blocks msg st) = length st.
Proof.
  apply (absorb_loop_length
           (λ st block, sha3.keccakF1600 (sha3.xor_block st block)) sha3.rate).
  intros st' block. rewrite keccakF1600_length. unfold sha3.xor_block.
  by rewrite length_imap.
Qed.

Lemma bytes_of_lanes_length (st : list sha3.lane) :
  length (concat (sha3.bytes_of_lane <$> st)) = (8 * length st)%nat.
Proof.
  induction st as [|x st IH]; [done|].
  rewrite fmap_cons. cbn [concat]. rewrite length_app, IH.
  unfold sha3.bytes_of_lane. rewrite length_fmap, length_seq. simpl. lia.
Qed.

(** The digest has 32 bytes, whatever the message. *)
Lemma Keccak256_length msg : length (sha3.Keccak256 msg) = 32%nat.
Proof.
  unfold sha3.Keccak256. cbv zeta.
  rewrite length_take, bytes_of_lanes_length, absorb_length, length_replicate.
  reflexivity.
Qed.

Lemma rlpHash_length x : length (rlpHash x) = 32%nat.
Proof.
  unfold rlpHash. destruct (rlp.Encode x) as [[e|] written].
  - reflexivity.
  - apply Keccak256_length.
Qed.

(** Three bytes give four characters, and a last group of one or two
    bytes is padded to four. *)
Lemma base64_encode_length (src : list byte) :
  length (base64.encode src) = (4 * ((length src + 2) / 3))%nat.
Proof.
  remember (length src) as n eqn:Hn. revert src Hn.
  induction n as [n IH] using lt_wf_ind. intros src ->.
  destruct src as [|a [|b [|c rest]]]; try reflexivity.
  cbn [base64.encode length]. rewrite (IH (length rest)) by (simpl; lia || done).
  assert ((S (S (S (length rest))) + 2) / 3 = S ((length rest + 2) / 3))%nat
    as ->; [|lia].
  replace (S (S (S (length rest))) + 2)%nat
    with ((length rest + 2) + 1 * 3)%nat by lia.
  rewrite Nat.div_add by done. lia.
Qed.

Lemma string_of_list_ascii_length (l : list ascii) :
  String.length (String.string_of_list_ascii l) = length l.
Proof. induction l as [|a l IH]; simpl; congruence. Qed.

(** The identifier [FindRootPrivacyGroup] computes always has the 44
    characters of the base64 text of 32 bytes, for every list of
    participants, the empty one included; the other fields of the group
    it returns are left at their zero values. *)
Theorem FindRootPrivacyGroup_ID_length (participants : list PublicKey) :
  String.length (ID (FindRootPrivacyGroup participants)) = 44%nat
  ∧ Name (FindRootPrivacyGroup participants) = ""
  ∧ Description (FindRootPrivacyGroup participants) = ""
  ∧ Type_ (FindRootPrivacyGroup participants) = ""
  ∧ Members (FindRootPrivacyGroup participants) = [].
Proof.
  split; [|done]. unfold FindRootPrivacyGroup. cbn [ID].
  unfold base64.EncodeToString.
  by rewrite string_of_list_ascii_length, base64_encode_length, rlpHash_length.
Qed.

End identifier.

(** ** The operations on the node *)

Section node_operations.
Import privacy.

Lemma assert_string_cases v :
  (∃ s, v = IString s ∧ assert_string v = Done s)
  ∨ assert_string v = Panic (PanicTypeAssertion "string").
Proof. destruct v; simpl; eauto. Qed.

Lemma decode_members_strings `{Base64Decoder} (strs : list string)
    (members : list PublicKey) :
  decode_members (IString <$> strs) members
  = Done (members
          ++ omap (λ s, match ToPublicKey s with
                        | inr m => Some m
                        | inl _ => None
                        end) strs).
Proof.
  revert members. induction strs as [|s strs IH]; intros members.
  - simpl. by rewrite app_nil_r.
  - simpl. destruct (ToPublicKey s) as [e|m]; rewrite IH; [done|].
    by rewrite <- app_assoc.
Qed.

Lemma decode_members_cases `{Base64Decoder} (ms : list iface)
    (members : list PublicKey) :
  (∃ members', decode_members ms members = Done members')
  ∨ decode_members ms members = Panic (PanicTypeAssertion "string").
Proof.
  revert members. induction ms as [|v ms IH]; intros members; [by eauto|].
  simpl. destruct (assert_string_cases v) as [(s & -> & _)|E].
  - simpl. destruct (ToPublicKey s); apply IH.
  - rewrite E. by right.
Qed.

(** [FindPrivacyGroup] builds the group from the first record of the
    response alone, whatever records follow it and whatever participants
    it was called with: the four strings are taken as they are, and the
    members are the entries that decode from base64, in their order, an
    entry that does not decode being left out without an error. *)
Theorem FindPrivacyGroup_first_record `{Base64Decoder}
    (client : string → list rpc_arg → error + iface)
    (participants : list PublicKey) (v : iface)
    (rsp0 : gmap string iface) (others : list (gmap string iface))
    (strs : list string) (id name description type : string) :
  client "priv_findPrivacyGroup" [ArgPublicKeys participants] = inr v →
  as_maps v = inr (rsp0 :: others) →
  rsp0 !! "members" = Some (IList (IString <$> strs)) →
  rsp0 !! "privacyGroupId" = Some (IString id) →
  rsp0 !! "name" = Some (IString name) →
  rsp0 !! "description" = Some (IString description) →
  rsp0 !! "type" = Some (IString type) →
  run client (FindPrivacyGroup participants)
  = Done (Some {| ID := id; Name := name; Description := description;
                  Type_ := type;
                  Members := omap (λ s, match ToPublicKey s with
                                        | inr m => Some m
                                        | inl _ => None
                                        end) strs |}, None).
Proof.
  intros Hc Hv Hm Hi Hn Hd Ht. unfold FindPrivacyGroup. cbn [run].
  rewrite Hc, Hv.
  rewrite (index_Some _ _ _ Hm), (index_Some _ _ _ Hi), (index_Some _ _ _ Hn),
    (index_Some _ _ _ Hd), (index_Some _ _ _ Ht).
  cbn [assert_list mbind result_bind]. rewrite decode_members_strings.
  reflexivity.
Qed.

(** A response of two records: of the three members of the first, the
    second is no base64 and is left out. *)
Lemma FindPrivacyGroup_first_record_witness :
  run (sample.node (inr (IList [IMap sample.group_record; IMap ∅])))
    (@FindPrivacyGroup sample.canonical_base64 [])
  = Done (Some {| ID := "DyAOiF/ynpc+JXa2YAGB0bCitSlOMNm+ShmB/7M6C4w=";
                  Name := "Group"; Description := "two nodes";
                  Type_ := "PANTHEON";
                  Members := [sample.privateFrom; sample.privateFor1] |},
          None).
Proof.
  refine (eq_trans
    (@FindPrivacyGroup_first_record sample.canonical_base64
       (sample.node (inr (IList [IMap sample.group_record; IMap ∅]))) []
       (IList [IMap sample.group_record; IMap ∅]) sample.group_record [∅]
       ["A1aVtMxLCUHmBVHXoZzzBgPbW/wj5axDpW9X8l91SGo="; "not base64";
        "Ko2bVqD+nNlNYL5EE7y3IdOnviftjiizpjRt+HTuFBs="]
       "DyAOiF/ynpc+JXa2YAGB0bCitSlOMNm+ShmB/7M6C4w=" "Group" "two nodes"
       "PANTHEON" _ _ _ _ _ _ _) _);
    vm_compute; reflexivity.
Defined.

(** A first record that lacks one of the five keys makes
    [FindPrivacyGroup] panic on the type assertion: an incomplete record
    is not reported as an error. *)
Theorem FindPrivacyGroup_missing_key_panics `{Base64Decoder}
    (client : string → list rpc_arg → error + iface)
    (participants : list PublicKey) (v : iface)
    (rsp0 : gmap string iface) (others : list (gmap string iface))
    (key : string) :
  client "priv_findPrivacyGroup" [ArgPublicKeys participants] = inr v →
  as_maps v = inr (rsp0 :: others) →
  key ∈ ["members"; "privacyGroupId"; "name"; "description"; "type"] →
  rsp0 !! key = None →
  ∃ want, run client (FindPrivacyGroup participants)
          = Panic (PanicTypeAssertion want).
Proof.
  intros Hc Hv Hkey Hmiss. unfold FindPrivacyGroup. cbn [run].
  rewrite Hc, Hv.
  assert (index rsp0 key = INil) as Hnil by (unfold index; by rewrite Hmiss).
  destruct (index rsp0 "members") as [| | | |b|ms|m] eqn:Em;
    try (eexists; reflexivity).
  cbn [assert_list mbind result_bind].
  destruct (decode_members_cases ms []) as [[members ->]| ->];
    [|eexists; reflexivity].
  repeat (apply elem_of_cons in Hkey as [->|Hkey]; [congruence || idtac|]);
    [| | | |by apply not_elem_of_nil in Hkey];
    repeat
      match goal with
      | |- context [assert_string (index ?r ?k)] =>
          destruct (assert_string_cases (index r k)) as [(? & ? & ->)| ->];
          [try congruence; cbn [mbind result_bind]
          |cbn [mbind result_bind]; eexists; reflexivity]
      end.
Qed.

(** The record of the sample without its [type]. *)
Lemma FindPrivacyGroup_missing_key_panics_witness :
  ∃ want,
    run (sample.node (inr (IList [IMap (delete "type" sample.group_record)])))
      (@FindPrivacyGroup sample.canonical_base64 [sample.privateFrom])
    = Panic (PanicTypeAssertion want).
Proof.
  apply (@FindPrivacyGroup_missing_key_panics sample.canonical_base64 _
           [sample.privateFrom]
           (IList [IMap (delete "type" sample.group_record)])
           (delete "type" sample.group_record) [] "type").
  - reflexivity.
  - reflexivity.
  - vm_compute. do 4 apply list_elem_of_further. apply list_elem_of_here.
  - apply lookup_delete_eq.
Defined.

(** An empty response makes [FindPrivacyGroup] return no group and no
    error, and [PrivateNonce] on that result dereferences the nil group
    while it evaluates the arguments of its call: it panics, and no
    request is issued. *)
Theorem FindPrivacyGroup_none_then_PrivateNonce `{Base64Decoder} `{Hexutil}
    (client : string → list rpc_arg → error + iface)
    (account : list byte) (participants : list PublicKey) (v : iface) :
  client "priv_findPrivacyGroup" [ArgPublicKeys participants] = inr v →
  as_maps v = inr [] →
  ∃ group,
    run client (FindPrivacyGroup participants) = Done (group, None)
    ∧ group = None
    ∧ run client (PrivateNonce account group) = Panic PanicNilDereference
    ∧ requests client (PrivateNonce account group) = [].
Proof.
  intros Hc Hv. exists None. unfold FindPrivacyGroup. cbn [run].
  by rewrite Hc, Hv.
Qed.

Lemma FindPrivacyGroup_none_then_PrivateNonce_witness :
  ∃ group,
    run (sample.node (inr (IList [])))
      (@FindPrivacyGroup sample.canonical_base64 [sample.privateFrom])
    = Done (group, None)
    ∧ group = None
    ∧ run (sample.node (inr (IList [])))
        (@PrivateNonce sample.stub_hexutil sample.fromAddress group)
      = Panic PanicNilDereference
    ∧ requests (sample.node (inr (IList [])))
        (@PrivateNonce sample.stub_hexutil sample.fromAddress group) = [].
Proof.
  apply (@FindPrivacyGroup_none_then_PrivateNonce sample.canonical_base64
           sample.stub_hexutil _ sample.fromAddress [sample.privateFrom]
           (IList [])); reflexivity.
Defined.

(** [PrivateNonceByParticipants] issues one request,
    [priv_getTransactionCount], with the account and the identifier of the
    root group, and never a nil group. Participants no two of which
    collide give the same request and the same result in every order. *)
Theorem PrivateNonceByParticipants_request `{Hexutil}
    (client : string → list rpc_arg → error + iface)
    (account : list byte) (ps ps' : list PublicKey) :
  NoDup (Hash <$> ps) → ps ≡ₚ ps' →
  requests client (PrivateNonceByParticipants account ps)
  = [("priv_getTransactionCount",
      [ArgString (common_Address_Hex account);
       ArgString (ID (FindRootPrivacyGroup ps))])]
  ∧ requests client (PrivateNonceByParticipants account ps')
    = requests client (PrivateNonceByParticipants account ps)
  ∧ run client (PrivateNonceByParticipants account ps')
    = run client (PrivateNonceByParticipants account ps).
Proof.
  intros Hnd Hp. split; [reflexivity|].
  assert (FindRootPrivacyGroup ps' = FindRootPrivacyGroup ps) as E.
  { unfold FindRootPrivacyGroup.
    by rewrite (sort_Permutation ps ps' (NoDup_Hash_injective ps Hnd) Hp). }
  unfold PrivateNonceByParticipants. by rewrite E.
Qed.

(** The account and the three keys of the README, in two orders, against
    a node that answers [0x2a]. *)
Lemma PrivateNonceByParticipants_request_witness :
  requests (sample.node (inr (IString "0x2a")))
    (@PrivateNonceByParticipants sample.stub_hexutil sample.fromAddress
       [sample.privateFrom; sample.privateFor1; sample.privateFor2])
  = [("priv_getTransactionCount",
      [ArgString (@common_Address_Hex sample.stub_hexutil sample.fromAddress);
       ArgString (ID (FindRootPrivacyGroup
          [sample.privateFrom; sample.privateFor1; sample.privateFor2]))])]
  ∧ requests (sample.node (inr (IString "0x2a")))
      (@PrivateNonceByParticipants sample.stub_hexutil sample.fromAddress
         [sample.privateFor1; sample.privateFrom; sample.privateFor2])
    = requests (sample.node (inr (IString "0x2a")))
        (@PrivateNonceByParticipants sample.stub_hexutil sample.fromAddress
           [sample.privateFrom; sample.privateFor1; sample.privateFor2])
  ∧ run (sample.node (inr (IString "0x2a")))
      (@PrivateNonceByParticipants sample.stub_hexutil sample.fromAddress
         [sample.privateFor1; sample.privateFrom; sample.privateFor2])
    = run (sample.node (inr (IString "0x2a")))
        (@PrivateNonceByParticipants sample.stub_hexutil sample.fromAddress
           [sample.privateFrom; sample.privateFor1; sample.privateFor2]).
Proof.
  apply PrivateNonceByParticipants_request.
  - assert (Hash <$> [sample.privateFrom; sample.privateFor1; sample.privateFor2]
            = [-487930036; 2130677321; 568079351]) as ->
      by (vm_compute; reflexivity).
    apply (bool_decide_unpack _). vm_compute. exact I.
  - apply Permutation_swap.
Defined.

End node_operations.

(** ** Signing, beyond the claims *)

Section signing_more.
Import types.

Lemma be_value_bounds (l : list byte) :
  0 ≤ be_value l < 256 ^ Z.of_nat (length l).
Proof.
  induction l as [|b l IH] using rev_ind; [done|].
  rewrite be_value_app, length_app, Nat2Z.inj_add, Z.pow_add_r by lia.
  pose proof (byte_to_Z_range b).
  assert (be_value [b] = byte_to_Z b) as -> by (unfold be_value; simpl; lia).
  simpl length. change (256 ^ Z.of_nat 1) with 256. nia.
Qed.

(** The signature [SignTx] hands to [withSignature] shows the bytes the
    signing primitive returned. *)
Lemma signature_slice_bytes σ (bs : list byte) :
  slice_bytes (mkStore (bigs σ) (arrays σ ++ [bs]) (vectors σ) (txs σ))
    (mkSlice (Some (length (arrays σ))) 0 (length bs) (length bs))
  = bs.
Proof.
  unfold slice_bytes, array_value. simpl.
  rewrite lookup_snoc. simpl. by rewrite take_ge.
Qed.

Lemma signed_store_R σ d c sig :
  big_value (signed_store σ d c sig) (R (signed_txdata d (length (bigs σ))))
  = Some (sig_r sig).
Proof.
  unfold signed_store, signed_txdata, big_value. simpl.
  rewrite lookup_app_r by lia. by rewrite Nat.sub_diag.
Qed.

Lemma signed_store_S σ d c sig :
  big_value (signed_store σ d c sig) (S (signed_txdata d (length (bigs σ))))
  = Some (sig_s sig).
Proof.
  unfold signed_store, signed_txdata, big_value. simpl.
  rewrite lookup_app_r by lia.
  by replace (length (bigs σ) + 1 - length (bigs σ))%nat with 1%nat by lia.
Qed.

(** When the signing primitive returns 65 bytes, the transaction
    [SignTx] returns holds in [r] the big-endian number of bytes 0 to 31
    of the signature and in [s] that of bytes 32 to 63, both below
    [2^256], in two objects that did not exist before the call; the 64
    bytes read as one number are [r * 2^256 + s]. *)
Theorem SignTx_stores_r_s `{Signer} σ tx chainID (prv : PrivateKey) d c bs :
  txs σ !! tx = Some d → big_value σ chainID = Some c →
  crypto_Sign (digest σ d chainID) prv = inr bs →
  length bs = SignatureLength →
  ∃ cpy σ' d' r s,
    SignTx (Some tx) chainID prv σ = Done ((Some cpy, None), σ')
    ∧ txs σ' !! cpy = Some d'
    ∧ big_value σ' (R d') = Some r ∧ big_value σ' (S d') = Some s
    ∧ r = be_value (take 32 bs) ∧ s = be_value (take 32 (drop 32 bs))
    ∧ 0 ≤ r < 2 ^ 256 ∧ 0 ≤ s < 2 ^ 256
    ∧ be_value (take 64 bs) = r * 2 ^ 256 + s
    ∧ big_value σ (R d') = None ∧ big_value σ (S d') = None
    ∧ R d' ≠ S d'.
Proof.
  intros Htx Hc Hsig Hlen.
  rewrite (SignTx_unfold _ _ _ _ _ Htx), Hsig.
  eexists _, _, _, _, _. split.
  { apply withSignature_Done; [exact Htx|exact Hlen|].
    destruct chainID; exact Hc. }
  split; [apply signed_store_tx|].
  rewrite signed_store_R, signed_store_S, signature_slice_bytes.
  unfold sig_r, sig_s. unfold SignatureLength in Hlen.
  assert (length (take 32 bs) = 32%nat) as Hr by (rewrite length_take; lia).
  assert (length (take 32 (drop 32 bs)) = 32%nat) as Hs
    by (rewrite length_take, length_drop; lia).
  pose proof (be_value_bounds (take 32 bs)) as Br.
  pose proof (be_value_bounds (take 32 (drop 32 bs))) as Bs.
  rewrite Hr in Br. rewrite Hs in Bs.
  change (256 ^ Z.of_nat 32) with (2 ^ 256) in *.
  repeat split; try done; try lia.
  - replace (take 64 bs) with (take 32 bs ++ take 32 (drop 32 bs)).
    + rewrite be_value_app, Hs. reflexivity.
    + rewrite <- (take_drop 32 (take 64 bs)) at 1.
      rewrite take_take, skipn_firstn_comm. f_equal.
  - simpl. apply lookup_ge_None_2. lia.
  - simpl. apply lookup_ge_None_2. lia.
  - simpl. intros [=]. lia.
Qed.

(** The transaction of the README, chain id 2018, signed by the stand-in
    signer. *)
Lemma SignTx_stores_r_s_witness :
  ∃ cpy σ' d' r s,
    @SignTx sample.stub_signer (Some 0%nat) (Some 0%nat) () sample.besutx_store
    = Done ((Some cpy, None), σ')
    ∧ txs σ' !! cpy = Some d'
    ∧ big_value σ' (R d') = Some r ∧ big_value σ' (S d') = Some s
    ∧ r = be_value
            (take 32
               (take 64
                  (digest sample.besutx_store sample.besutx (Some 0%nat)
                   ++ digest sample.besutx_store sample.besutx (Some 0%nat))
                ++ [x00]))
    ∧ s = be_value
            (take 32 (drop 32
               (take 64
                  (digest sample.besutx_store sample.besutx (Some 0%nat)
                   ++ digest sample.besutx_store sample.besutx (Some 0%nat))
                ++ [x00])))
    ∧ 0 ≤ r < 2 ^ 256 ∧ 0 ≤ s < 2 ^ 256
    ∧ be_value
        (take 64
           (take 64
              (digest sample.besutx_store sample.besutx (Some 0%nat)
               ++ digest sample.besutx_store sample.besutx (Some 0%nat))
            ++ [x00]))
      = r * 2 ^ 256 + s
    ∧ big_value sample.besutx_store (R d') = None
    ∧ big_value sample.besutx_store (S d') = None
    ∧ R d' ≠ S d'.
Proof.
  apply (@SignTx_stores_r_s sample.stub_signer sample.besutx_store 0%nat
           (Some 0%nat) () sample.besutx 2018).
  - reflexivity.
  - reflexivity.
  - reflexivity.
  - vm_compute. reflexivity.
Defined.

(** With a nil chain id the digest is still computed, the chain id being
    written as the empty string, and the signing primitive is called on
    it; its error is returned as it is, but a signature of 65 bytes makes
    [SignTx] panic on [chainID.Uint64()]. *)
Theorem SignTx_nil_chain_id `{Signer} σ tx (prv : PrivateKey) d :
  txs σ !! tx = Some d →
  hash (Some tx) None σ = Done (digest σ d None, σ)
  ∧ (∀ err, crypto_Sign (digest σ d None) prv = inl err →
       SignTx (Some tx) None prv σ = Done ((None, Some err), σ))
  ∧ (∀ bs, crypto_Sign (digest σ d None) prv = inr bs →
       length bs = SignatureLength →
       SignTx (Some tx) None prv σ = Panic PanicNilDereference).
Proof.
  intros Htx. split; [by apply hash_Done|].
  rewrite (SignTx_unfold _ _ _ _ _ Htx).
  split; [by intros err ->|].
  intros bs -> Hlen.
  unfold withSignature, signatureValues. cbn [len].
  rewrite decide_False by (intros ?; done).
  unfold mbind, M_bind, get_store, new_big, mret, M_ret. simpl.
  unfold load_big at 1. unfold big_value at 1. simpl.
  by rewrite lookup_snoc.
Qed.

(** The transaction of the README signed without a chain id. *)
Lemma SignTx_nil_chain_id_witness :
  hash (Some 0%nat) None sample.besutx_store
  = Done (digest sample.besutx_store sample.besutx None, sample.besutx_store)
  ∧ @SignTx sample.stub_signer (Some 0%nat) None () sample.besutx_store
    = Panic PanicNilDereference.
Proof.
  destruct (@SignTx_nil_chain_id sample.stub_signer sample.besutx_store 0%nat
              () sample.besutx eq_refl) as (Hhash & _ & Hpanic).
  split; [exact Hhash|].
  apply (Hpanic
           (take 64
              (digest sample.besutx_store sample.besutx None
               ++ digest sample.besutx_store sample.besutx None) ++ [x00])).
  - reflexivity.
  - vm_compute. reflexivity.
Defined.

End signing_more.

(** ** What the digest reads *)

Section digest_more.
Import types.

Lemma big_value_grow σ σ' p :
  valid_big σ p → bigs σ `prefix_of` bigs σ' →
  big_value σ' p = big_value σ p.
Proof.
  intros Hp [more E]. destruct p as [l|]; [|done]. simpl in *.
  rewrite E. by apply lookup_app_l.
Qed.

Lemma array_value_grow σ σ' p :
  valid_array σ p → arrays σ `prefix_of` arrays σ' →
  array_value σ' p = array_value σ p.
Proof.
  intros Hp [more E]. destruct p as [l|]; [|done]. simpl in *.
  rewrite E. by apply lookup_app_l.
Qed.

Lemma slice_bytes_grow σ σ' s :
  valid_slice σ s → arrays σ `prefix_of` arrays σ' →
  slice_bytes σ' s = slice_bytes σ s.
Proof.
  intros Hs Hpre. unfold slice_bytes.
  by rewrite (array_value_grow σ σ' (base s) Hs Hpre).
Qed.

Lemma slices_bytes_grow σ σ' s :
  valid_slices σ s → arrays σ `prefix_of` arrays σ' →
  vectors σ `prefix_of` vectors σ' →
  slices_bytes σ' s = slices_bytes σ s.
Proof.
  intros Hs Hpre [more E]. unfold slices_bytes, valid_slices in *.
  destruct (base s) as [l|]; [|simpl; by rewrite drop_nil, take_nil]. simpl.
  destruct Hs as (v & Hv & Hall).
  rewrite E, (lookup_app_Some _ more _ _ Hv), Hv. simpl.
  apply Forall_fmap_ext, Forall_take, Forall_drop.
  eapply Forall_impl; [exact Hall|].
  intros x Hx. by apply slice_bytes_grow.
Qed.

(** The values the digest is taken of are the same in a store that has
    grown, for a transaction whose pointers point into the store. *)
Lemma hash_fields_grow σ σ' d chainID :
  valid_txdata σ d → valid_big σ chainID → preserved σ σ' →
  hash_fields σ' d chainID = hash_fields σ d chainID.
Proof.
  intros (Hp & Ha & Hr & Hpay & Hfrom & Hfor) Hc (Hb & Harr & Hvec & _).
  unfold hash_fields.
  rewrite !(big_value_grow σ σ') by done.
  rewrite (array_value_grow σ σ') by done.
  rewrite !(slice_bytes_grow σ σ') by done.
  by rewrite (slices_bytes_grow σ σ') by done.
Qed.

(** The digest does not read the signature: the signed copy [SignTx]
    returns has the digest of the transaction it was made from, and so
    has that transaction itself after the call. Signing a signed
    transaction again signs the same digest. *)
Theorem SignTx_digest_unchanged `{Signer} σ tx chainID (prv : PrivateKey)
    d c bs :
  txs σ !! tx = Some d → valid_txdata σ d →
  big_value σ chainID = Some c →
  crypto_Sign (digest σ d chainID) prv = inr bs →
  length bs = SignatureLength →
  ∃ cpy σ',
    SignTx (Some tx) chainID prv σ = Done ((Some cpy, None), σ')
    ∧ hash (Some cpy) chainID σ' = Done (digest σ d chainID, σ')
    ∧ hash (Some tx) chainID σ' = Done (digest σ d chainID, σ').
Proof.
  intros Htx Hvalid Hc Hsig Hlen.
  rewrite (SignTx_unfold _ _ _ _ _ Htx), Hsig.
  eexists _, _. split.
  { apply withSignature_Done; [exact Htx|exact Hlen|].
    destruct chainID; exact Hc. }
  set (σ1 := mkStore (bigs σ) (arrays σ ++ [bs]) (vectors σ) (txs σ)).
  set (σ' := signed_store σ1 d c _).
  assert (preserved σ σ') as Hpre.
  { unfold preserved, σ', signed_store, σ1. simpl.
    repeat split; try done; by eexists. }
  assert (valid_big σ chainID) as Hvc.
  { destruct chainID as [l|]; [|done]. simpl in *.
    by eapply lookup_lt_Some. }
  assert (digest σ' d chainID = digest σ d chainID) as E.
  { unfold digest. by rewrite (hash_fields_grow σ σ'). }
  split.
  - rewrite (hash_Done σ' _ chainID (signed_txdata d (length (bigs σ1)))).
    + by rewrite <- E.
    + apply signed_store_tx.
  - rewrite (hash_Done σ' _ chainID d); [by rewrite E|].
    unfold σ', signed_store. simpl. by apply lookup_app_Some.
Qed.

(** The transaction of the README, signed for chain id 2018. *)
Lemma SignTx_digest_unchanged_witness :
  ∃ cpy σ',
    @SignTx sample.stub_signer (Some 0%nat) (Some 0%nat) () sample.besutx_store
    = Done ((Some cpy, None), σ')
    ∧ hash (Some cpy) (Some 0%nat) σ'
      = Done (digest sample.besutx_store sample.besutx (Some 0%nat), σ')
    ∧ hash (Some 0%nat) (Some 0%nat) σ'
      = Done (digest sample.besutx_store sample.besutx (Some 0%nat), σ').
Proof.
  apply (@SignTx_digest_unchanged sample.stub_signer sample.besutx_store
           0%nat (Some 0%nat) () sample.besutx 2018
           (take 64
              (digest sample.besutx_store sample.besutx (Some 0%nat)
               ++ digest sample.besutx_store sample.besutx (Some 0%nat))
            ++ [x00])).
  - reflexivity.
  - do 5 (split; [vm_compute; first [exact I|lia]|]).
    eexists. split; [reflexivity|].
    repeat constructor; vm_compute; lia.
  - reflexivity.
  - reflexivity.
  - vm_compute. reflexivity.
Defined.

Lemma encode_Slice_Exists_error (vs : list rlp.value) :
  Exists (λ v, ∃ e, rlp.encode v = inl e) vs →
  ∃ e, rlp.encode (rlp.Slice vs) = inl e.
Proof.
  intros Hex.
  assert (∃ e,
    (fix elements (l : list rlp.value) : error + list byte :=
       match l with
       | [] => inr []
       | x :: l' =>
           match rlp.encode x with
           | inl e => inl e
           | inr bx =>
               match elements l' with
               | inl e => inl e
               | inr bl => inr (bx ++ bl)
               end
           end
       end) vs = inl e) as [e E].
  { induction Hex as [v vs [e Hv]|v vs _ [e IH]].
    - rewrite Hv. by eexists.
    - rewrite IH. destruct (rlp.encode v); by eexists. }
  exists e. simpl. by rewrite E.
Qed.

(** A negative gasPrice, value or chain id makes the encoder fail, and
    the error is dropped: the digest is then the digest of the empty
    input, the same for every such transaction. *)
Theorem hash_negative_integer σ tx chainID d z :
  txs σ !! tx = Some d → z < 0 →
  big_value σ (Price d) = Some z ∨ big_value σ (Amount d) = Some z
  ∨ big_value σ chainID = Some z →
  hash (Some tx) chainID σ = Done (sha3.Keccak256 [], σ).
Proof.
  intros Htx Hneg Hz.
  rewrite (hash_Done _ _ _ _ Htx). f_equal. f_equal.
  unfold digest, rlpHash, rlp.Encode.
  destruct (encode_Slice_Exists_error (hash_fields σ d chainID)) as [e ->];
    [|done].
  assert (rlp.encode (rlp.BigIntPtr (Some z))
          = inl "rlp: cannot encode negative *big.Int") as Hfail.
  { simpl. unfold rlp.writeBigInt. by rewrite decide_True by lia. }
  unfold hash_fields. rewrite !Exists_cons.
  destruct Hz as [E|[E|E]]; rewrite E; eauto 10.
Qed.

(** The transaction of the README with the value [-1]. *)
Lemma hash_negative_integer_witness :
  hash (Some 0%nat) (Some 0%nat) (write_big 2 (-1) sample.besutx_store)
  = Done (sha3.Keccak256 [], write_big 2 (-1) sample.besutx_store).
Proof.
  apply (hash_negative_integer (write_big 2 (-1) sample.besutx_store) 0%nat
           (Some 0%nat) sample.besutx (-1)).
  - reflexivity.
  - lia.
  - right. left. reflexivity.
Defined.

End digest_more.

(** ** Construction, beyond the claims *)

Section construction_more.
Import types.

Lemma insert_app_tail {A} (l more : list A) (i : nat) x :
  <[(length l + i)%nat := x]> (l ++ more) = l ++ <[i := x]> more.
Proof.
  rewrite insert_app_r_alt by lia. f_equal. f_equal. lia.
Qed.

(** [newTransaction] copies the numbers behind [amount] and [gasPrice]
    into objects of its own and leaves every object of the caller as it
    was, but it keeps [to], [privateFrom] and [privateFor] as the
    pointers and slices it was given: the transaction it returns is new,
    a later write of the caller to one of its numbers does not reach the
    transaction, and a later write to the array behind [privateFrom]
    does. *)
Theorem newTransaction_shares σ nonce to amount gasLimit gasPrice
    data privateFrom privateFor :
  (amount = None ∨ is_Some (big_value σ amount)) →
  (gasPrice = None ∨ is_Some (big_value σ gasPrice)) →
  ∃ tx σ' d,
    newTransaction nonce to amount gasLimit gasPrice data privateFrom privateFor σ
    = Done (Some tx, σ')
    ∧ txs σ !! tx = None ∧ txs σ' !! tx = Some d
    ∧ preserved σ σ'
    ∧ AccountNonce d = nonce ∧ GasLimit d = gasLimit
    ∧ Recipient d = to
    ∧ PrivateFrom d = privateFrom ∧ PrivateFor d = privateFor
    ∧ big_value σ (Amount d) = None ∧ big_value σ (Price d) = None
    ∧ (∀ l z, (l < length (bigs σ))%nat →
         big_value (write_big l z σ') (Amount d) = big_value σ' (Amount d)
         ∧ big_value (write_big l z σ') (Price d) = big_value σ' (Price d))
    ∧ (∀ l a i x, base privateFrom = Some l → arrays σ !! l = Some a →
         slice_bytes (write_array l i x σ') (PrivateFrom d)
         = take (len privateFrom) (drop (off privateFrom) (<[i := x]> a))).
Proof.
  intros Hamount Hprice.
  destruct (newTransaction_data σ data)
    as (s & σ1 & Hdata & Hbigs & Hvecs & Htxs & Harr & Hread & Hstable).
  unfold newTransaction. unfold mbind at 1. unfold M_bind at 1.
  rewrite Hdata.
  unfold mbind, M_bind, new_big, mret, M_ret. simpl.
  rewrite <- !app_assoc, !length_app, Hbigs. simpl.
  set (n := length (bigs σ)).
  pose proof (big_value_default_app σ amount [0; 0; 0; 0; 0]
                (arrays σ1) (vectors σ1) (txs σ1) Hamount) as [Ea _].
  pose proof (big_value_default_app σ gasPrice [0; 0; 0; 0; 0]
                (arrays σ1) (vectors σ1) (txs σ1) Hprice) as [_ Ep].
  specialize (Ep n (default 0 (big_value σ amount)) ltac:(lia)).
  rewrite big_Set_guarded.
  2:{ simpl. rewrite lookup_app_r by lia. by rewrite Nat.sub_diag. }
  2:{ rewrite Ea. exact Hamount. }
  rewrite Ea.
  rewrite big_Set_guarded.
  2:{ simpl. rewrite list_lookup_insert_ne by lia. rewrite lookup_app_r by lia.
      by replace (n + 1 - length (bigs σ))%nat with 1%nat by lia. }
  2:{ cbn [bigs arrays vectors txs]. rewrite Ep. exact Hprice. }
  cbn [bigs arrays vectors txs]. rewrite Ep.
  eexists _, _, _. split; [reflexivity|]. cbn [bigs arrays vectors txs].
  rewrite Htxs, Hvecs.
  split; [by apply lookup_ge_None_2|].
  split; [apply lookup_snoc|].
  split.
  { unfold preserved. cbn [bigs arrays vectors txs].
    repeat split; try done; [|by eexists].
    replace n with (length (bigs σ) + 0)%nat at 2 by lia.
    unfold n. rewrite !insert_app_tail. by eexists. }
  cbn [AccountNonce GasLimit Recipient PrivateFrom PrivateFor Amount Price].
  do 5 (split; [reflexivity|]).
  split; [simpl; apply lookup_ge_None_2; lia|].
  split; [simpl; apply lookup_ge_None_2; lia|].
  split.
  - intros l z Hl. unfold write_big, big_value. simpl.
    split; rewrite list_lookup_insert_ne by lia; reflexivity.
  - intros l a i x Hbase Ha. unfold slice_bytes, array_value, write_array.
    rewrite Hbase. cbn [arrays mbind option_bind].
    destruct Harr as [more Emore]. rewrite Emore.
    rewrite (lookup_app_Some _ more _ _ Ha). cbn [default].
    rewrite list_lookup_insert_eq; [done|].
    rewrite length_app. apply lookup_lt_Some in Ha. lia.
Qed.

(** The call of the README, and a caller that then overwrites the first
    byte of its [privateFrom] and sets its gasPrice to 7: the
    transaction shows the new byte and the old price. *)
Lemma newTransaction_shares_witness :
  ∃ tx σ' d,
    newTransaction 0 None None 3000000 (Some 1%nat) sample.data_slice
      sample.privateFrom_slice sample.privateFor_slice sample.caller_store
    = Done (Some tx, σ')
    ∧ txs sample.caller_store !! tx = None ∧ txs σ' !! tx = Some d
    ∧ preserved sample.caller_store σ'
    ∧ PrivateFrom d = sample.privateFrom_slice
    ∧ PrivateFor d = sample.privateFor_slice
    ∧ big_value (write_big 1 7 σ') (Price d) = big_value σ' (Price d)
    ∧ slice_bytes (write_array 1 0 xff σ') (PrivateFrom d)
      = xff :: drop 1 sample.privateFrom.
Proof.
  destruct (newTransaction_shares sample.caller_store 0 None None 3000000
              (Some 1%nat) sample.data_slice sample.privateFrom_slice
              sample.privateFor_slice)
    as (tx & σ' & d & Hrun & Hnew & Hd & Hpre & _ & _ & _ & Hfrom & Hfor
        & _ & _ & Hbig & Hwrite).
  { by left. }
  { right. by eexists. }
  exists tx, σ', d.
  split; [exact Hrun|]. split; [exact Hnew|]. split; [exact Hd|].
  split; [exact Hpre|]. split; [exact Hfrom|]. split; [exact Hfor|].
  split; [apply (Hbig 1%nat 7); simpl; lia|].
  apply (Hwrite 1%nat sample.privateFrom 0%nat xff); reflexivity.
Defined.


(** ** The encoding for the wire *)

(** The twelve fields of a transaction with non-negative integers are
    written as their canonical encoding, inside a list of one element. *)
Lemma encode_txdata_fields σ d :
  0 ≤ AccountNonce d < 2 ^ 64 → 0 ≤ GasLimit d < 2 ^ 64 →
  0 ≤ default 0 (big_value σ (Price d)) →
  0 ≤ default 0 (big_value σ (Amount d)) →
  0 ≤ default 0 (big_value σ (V d)) →
  0 ≤ default 0 (big_value σ (R d)) →
  0 ≤ default 0 (big_value σ (S d)) →
  rlp.encode (rlp.Slice [rlp.Slice (txdata_fields σ d)])
  = inr (RLP.encode (RLP.List [RLP.List
      [ RLP.of_int (AccountNonce d);
        RLP.of_int (default 0 (big_value σ (Price d)));
        RLP.of_int (GasLimit d);
        RLP.of_optional (array_value σ (Recipient d));
        RLP.of_int (default 0 (big_value σ (Amount d)));
        RLP.Str (slice_bytes σ (Payload d));
        RLP.of_int (default 0 (big_value σ (V d)));
        RLP.of_int (default 0 (big_value σ (R d)));
        RLP.of_int (default 0 (big_value σ (S d)));
        RLP.Str (slice_bytes σ (PrivateFrom d));
        RLP.List (RLP.Str <$> slices_bytes σ (PrivateFor d));
        RLP.Str (bytes_of_string (Restriction d)) ]])).
Proof.
  intros Hnonce Hgas Hprice Hamount Hv Hr Hs.
  apply encode_Slice. apply Forall2_cons. split; [|apply Forall2_nil_2].
  apply encode_Slice. unfold txdata_fields.
  repeat (apply Forall2_cons; split); try apply Forall2_nil.
  - simpl. f_equal. by apply writeUint_of_int.
  - by apply encode_BigIntPtr.
  - simpl. f_equal. by apply writeUint_of_int.
  - apply encode_AddressPtr.
  - by apply encode_BigIntPtr.
  - simpl. f_equal. apply writeBytes_encode_str.
  - by apply encode_BigIntPtr.
  - by apply encode_BigIntPtr.
  - by apply encode_BigIntPtr.
  - simpl. f_equal. apply writeBytes_encode_str.
  - apply encode_Bytes_slice.
  - simpl. f_equal. apply writeBytes_encode_str.
  - done.
Qed.

(** [rlp.EncodeToBytes] on a transaction writes a list of one element,
    the [Data] of the transaction, which is the list of the twelve
    fields with [v], [r] and [s] in the seventh to ninth place: the
    canonical encoding of the twelve fields preceded by the header of
    the outer list. *)
Theorem EncodeToBytes_wrapped σ tx d :
  txs σ !! tx = Some d →
  0 ≤ AccountNonce d < 2 ^ 64 → 0 ≤ GasLimit d < 2 ^ 64 →
  0 ≤ default 0 (big_value σ (Price d)) →
  0 ≤ default 0 (big_value σ (Amount d)) →
  0 ≤ default 0 (big_value σ (V d)) →
  0 ≤ default 0 (big_value σ (R d)) →
  0 ≤ default 0 (big_value σ (S d)) →
  ∃ fields,
    fields
    = RLP.List
        [ RLP.of_int (AccountNonce d);
          RLP.of_int (default 0 (big_value σ (Price d)));
          RLP.of_int (GasLimit d);
          RLP.of_optional (array_value σ (Recipient d));
          RLP.of_int (default 0 (big_value σ (Amount d)));
          RLP.Str (slice_bytes σ (Payload d));
          RLP.of_int (default 0 (big_value σ (V d)));
          RLP.of_int (default 0 (big_value σ (R d)));
          RLP.of_int (default 0 (big_value σ (S d)));
          RLP.Str (slice_bytes σ (PrivateFrom d));
          RLP.List (RLP.Str <$> slices_bytes σ (PrivateFor d));
          RLP.Str (bytes_of_string (Restriction d)) ]
    ∧ EncodeToBytes σ (Some tx) = inr (RLP.encode (RLP.List [fields]))
    ∧ EncodeToBytes σ (Some tx)
      = inr (RLP.header 192 247 (length (RLP.encode fields))
             ++ RLP.encode fields).
Proof.
  intros Htx Hnonce Hgas Hprice Hamount Hv Hr Hs.
  eexists. split; [reflexivity|].
  assert (∀ fields, RLP.encode (RLP.List [fields])
                    = RLP.header 192 247 (length (RLP.encode fields))
                      ++ RLP.encode fields) as Hone.
  { intros fields. cbn [RLP.encode map concat]. by rewrite app_nil_r. }
  rewrite <- Hone.
  match goal with |- ?P ∧ _ => assert P as E; [|by split] end.
  unfold EncodeToBytes. cbn [mbind option_bind]. rewrite Htx.
  by apply encode_txdata_fields.
Qed.

(** The signed transaction of the README. *)
Lemma EncodeToBytes_wrapped_witness :
  ∃ fields,
    EncodeToBytes sample.signed_besutx_store (Some 1%nat)
    = inr (RLP.encode (RLP.List [fields]))
    ∧ EncodeToBytes sample.signed_besutx_store (Some 1%nat)
      = inr (RLP.header 192 247 (length (RLP.encode fields))
             ++ RLP.encode fields).
Proof.
  edestruct (EncodeToBytes_wrapped sample.signed_besutx_store 1%nat)
    as (fields & _ & E1 & E2).
  - vm_compute. reflexivity.
  - vm_compute. split; [discriminate|reflexivity].
  - vm_compute. split; [discriminate|reflexivity].
  - vm_compute. discriminate.
  - vm_compute. discriminate.
  - vm_compute. discriminate.
  - vm_compute. discriminate.
  - vm_compute. discriminate.
  - exists fields. split; [exact E1|exact E2].
Defined.

End construction_more.

(** ** The receipt, beyond the claims *)

Section receipt_more.
Import types.
Context `{Base64Decoder, Geth}.

(** What an optional entry contributes: the function of the string when
    the entry is a string, the zero value when it is absent. *)
Lemma optional_value {A} (r : gmap string iface) key (f : string → A) z :
  optional_string r key →
  match r !! key with
  | Some v => s ← assert_string v; Done (f s)
  | None => Done z
  end = Done match r !! key with
             | Some (IString s) => f s
             | _ => z
             end.
Proof.
  intros Hk. destruct (r !! key) as [v|] eqn:E; [|done].
  by destruct (Hk v E) as [s ->].
Qed.

Lemma optional_Done {A} (r : gmap string iface) key (f : string → A) z a :
  match r !! key with
  | Some v => s ← assert_string v; Done (f s)
  | None => Done z
  end = Done a →
  optional_string r key
  ∧ a = match r !! key with
        | Some (IString s) => f s
        | _ => z
        end.
Proof.
  unfold optional_string. destruct (r !! key) as [v|]; [|by intros [= <-]].
  destruct v; try done. simpl. intros [= <-]. split; [|done].
  intros v [= <-]. by eexists.
Qed.

Lemma required_Done (r : gmap string iface) key s :
  assert_string (index r key) = Done s → r !! key = Some (IString s).
Proof.
  unfold index. destruct (r !! key) as [v|]; [|done].
  destruct v; try done. simpl. by intros [= <-].
Qed.

Lemma decode_privateFor_omap (strs : list string)
    (keys : list privacy.PublicKey) :
  decode_privateFor (IString <$> strs) keys
  = Done (keys
          ++ omap (λ s, match privacy.ToPublicKey s with
                        | inr key => Some key
                        | inl _ => None
                        end) strs).
Proof.
  revert keys. induction strs as [|s strs IH]; intros keys.
  - simpl. by rewrite app_nil_r.
  - simpl. destruct (privacy.ToPublicKey s) as [e|key]; rewrite IH; [done|].
    by rewrite <- app_assoc.
Qed.

Lemma decode_privateFor_Done vs keys res :
  decode_privateFor vs keys = Done res →
  ∃ strs, vs = IString <$> strs.
Proof.
  revert keys. induction vs as [|v vs IH]; intros keys Hrun.
  - by exists [].
  - simpl in Hrun. destruct v; try done. simpl in Hrun.
    destruct (privacy.ToPublicKey s); apply IH in Hrun as [strs ->];
      by exists (s :: strs).
Qed.

Lemma status_value (r : gmap string iface) :
  let status := match r !! "status" with
                | Some (IString s) => if decide (s = "0x1") then 1 else 0
                | _ => 0
                end in
  (status = 1 ↔ r !! "status" = Some (IString "0x1"))
  ∧ (status = 0 ∨ status = 1).
Proof.
  simpl. destruct (r !! "status") as [[| | |s| | |]|];
    try (split; [split; [lia|congruence]|by left]).
  destruct (decide (s = "0x1")) as [->|Hne].
  - split; [done|by right].
  - split; [split; [lia|congruence]|by left].
Qed.

(** A map with the six required entries well formed, optional entries
    that are strings when present, and log entries that all fail to
    decode is mapped to a receipt: the hashes are those of the strings,
    [privateFor] holds the entries that decode from base64, in their
    order, the status is 1 exactly when the entry is the string [0x1],
    the logs are empty, the restriction is [restricted], and an [output]
    that is no hexadecimal is read as empty, without an error. *)
Theorem MarshalPrivateReceipt_well_formed (r : gmap string iface)
    (commitmentHash transactionHash privateFrom logsBloom : string)
    (from : privacy.PublicKey) (strs : list string) (vs : list iface)
    (logsBloomBytes bloom : list byte) :
  optional_string r "contractAddress" → optional_string r "output" →
  r !! "commitmentHash" = Some (IString commitmentHash) →
  r !! "transactionHash" = Some (IString transactionHash) →
  r !! "privateFrom" = Some (IString privateFrom) →
  privacy.ToPublicKey privateFrom = inr from →
  r !! "privateFor" = Some (IList (IString <$> strs)) →
  optional_string r "status" →
  r !! "logs" = Some (IList vs) → Forall skipped vs →
  r !! "logsBloom" = Some (IString logsBloom) →
  hexutil_Decode logsBloom = inr logsBloomBytes →
  types_BytesToBloom logsBloomBytes = Done bloom →
  optional_string r "blockHash" → optional_string r "blockNumber" →
  optional_string r "transactionIndex" →
  ∃ receipt,
    MarshalPrivateReceipt r = Done (inr receipt)
    ∧ CommitmentHash receipt = common_HexToHash commitmentHash
    ∧ TxHash receipt = common_HexToHash transactionHash
    ∧ Receipt_PrivateFrom receipt = from
    ∧ Receipt_PrivateFor receipt
      = omap (λ s, match privacy.ToPublicKey s with
                   | inr key => Some key
                   | inl _ => None
                   end) strs
    ∧ (Status receipt = 1 ↔ r !! "status" = Some (IString "0x1"))
    ∧ (Status receipt = 0 ∨ Status receipt = 1)
    ∧ Logs receipt = [] ∧ Bloom receipt = bloom
    ∧ Receipt_Restriction receipt = "restricted" ∧ PostState receipt = []
    ∧ (r !! "contractAddress" = None → ContractAddress receipt = zero_Address)
    ∧ (r !! "blockNumber" = None → BlockNumber receipt = None)
    ∧ (∀ s, r !! "output" = Some (IString s) →
         Output receipt = match hexutil_Decode s with
                          | inr b => b
                          | inl _ => []
                          end).
Proof.
  intros Hc Ho Hch Hth Hpf Hfrom Hfor Hst Hlogs Hskip Hlb Hdec Hbloom
    Hbh Hbn Hti.
  unfold MarshalPrivateReceipt.
  rewrite (optional_value r "contractAddress" _ _ Hc).
  rewrite (optional_value r "output" _ _ Ho).
  cbn [mbind result_bind]. rewrite decide_False by congruence.
  rewrite (index_Some _ _ _ Hch). cbn [assert_string mbind result_bind].
  rewrite decide_False by congruence.
  rewrite (index_Some _ _ _ Hth). cbn [assert_string mbind result_bind].
  rewrite decide_False by congruence.
  rewrite (index_Some _ _ _ Hpf). cbn [assert_string mbind result_bind].
  rewrite Hfrom. rewrite decide_False by congruence.
  rewrite (index_Some _ _ _ Hfor). cbn [assert_list mbind result_bind].
  rewrite decode_privateFor_omap. cbn [mbind result_bind app].
  rewrite (optional_value r "status" _ _ Hst). cbn [mbind result_bind].
  rewrite decide_False by congruence.
  rewrite (index_Some _ _ _ Hlogs). cbn [assert_list mbind result_bind].
  rewrite (decode_logs_skipped vs [] Hskip). cbn [mbind result_bind].
  rewrite decide_False by congruence.
  rewrite (index_Some _ _ _ Hlb). cbn [assert_string mbind result_bind].
  rewrite Hdec, Hbloom. cbn [mbind result_bind].
  rewrite (optional_value r "blockHash" _ _ Hbh).
  rewrite (optional_value r "blockNumber" _ _ Hbn).
  rewrite (optional_value r "transactionIndex" _ _ Hti).
  cbn [mbind result_bind].
  eexists. split; [reflexivity|].
  cbn [CommitmentHash TxHash Receipt_PrivateFrom Receipt_PrivateFor Status
       Logs Bloom Receipt_Restriction PostState ContractAddress BlockNumber
       Output].
  pose proof (status_value r) as [Hs1 Hs2].
  repeat split; try done; try apply Hs1.
  - by intros ->.
  - by intros ->.
  - by intros s ->.
Qed.

(** Every way that is left for the mapping to return a receipt: what
    the theorem above asks of the map is also necessary. A receipt is
    returned only for a map whose optional entries are strings when
    present, whose required entries are present with the asserted type,
    whose [privateFrom] decodes, whose [privateFor] holds strings only and
    whose log entries are all skipped; its status is 1 exactly for the
    string [0x1]. *)
Theorem MarshalPrivateReceipt_receipt_requires (r : gmap string iface)
    (receipt : PrivateReceipt) :
  MarshalPrivateReceipt r = Done (inr receipt) →
  Forall (optional_string r)
    ["contractAddress"; "output"; "status"; "blockHash"; "blockNumber";
     "transactionIndex"]
  ∧ Forall (has_string r) ["commitmentHash"; "transactionHash"; "logsBloom"]
  ∧ (∃ s, r !! "privateFrom" = Some (IString s)
          ∧ privacy.ToPublicKey s = inr (Receipt_PrivateFrom receipt))
  ∧ (∃ strs, r !! "privateFor" = Some (IList (IString <$> strs)))
  ∧ (∃ vs, r !! "logs" = Some (IList vs) ∧ Forall skipped vs)
  ∧ (Status receipt = 1 ↔ r !! "status" = Some (IString "0x1"))
  ∧ Receipt_Restriction receipt = "restricted".
Proof.
  unfold MarshalPrivateReceipt. intros Hrun.
  apply bind_Done in Hrun as (contractAddress & [Hc _]%optional_Done & Hrun).
  apply bind_Done in Hrun as (output & [Ho _]%optional_Done & Hrun).
  destruct (decide (r !! "commitmentHash" = None)); [discriminate Hrun|].
  apply bind_Done in Hrun as (s1 & Hs1%required_Done & Hrun).
  destruct (decide (r !! "transactionHash" = None)); [discriminate Hrun|].
  apply bind_Done in Hrun as (s2 & Hs2%required_Done & Hrun).
  destruct (decide (r !! "privateFrom" = None)); [discriminate Hrun|].
  apply bind_Done in Hrun as (s3 & Hs3%required_Done & Hrun).
  destruct (privacy.ToPublicKey s3) as [err|privateFrom] eqn:Hfrom;
    [discriminate Hrun|].
  destruct (decide (r !! "privateFor" = None)); [discriminate Hrun|].
  apply bind_Done in Hrun as (vs' & Hvs' & Hrun).
  apply bind_Done in Hrun as (privateFor & Hfor & Hrun).
  apply bind_Done in Hrun as (status & [Hst ->]%optional_Done & Hrun).
  destruct (decide (r !! "logs" = None)); [discriminate Hrun|].
  apply bind_Done in Hrun as (vs & Hvs & Hrun).
  apply bind_Done in Hrun as (logs & Hloop & Hrun).
  destruct (decide (r !! "logsBloom" = None)); [discriminate Hrun|].
  apply bind_Done in Hrun as (logsBloomString & Hlb%required_Done & Hrun).
  destruct (hexutil_Decode logsBloomString); [discriminate Hrun|].
  apply bind_Done in Hrun as (logsBloom & _ & Hrun).
  apply bind_Done in Hrun as (blockHash & [Hbh _]%optional_Done & Hrun).
  apply bind_Done in Hrun as (blockNumber & [Hbn _]%optional_Done & Hrun).
  apply bind_Done in Hrun as (transactionIndex & [Hti _]%optional_Done & Hrun).
  injection Hrun as <-.
  cbn [Receipt_PrivateFrom Status Receipt_Restriction].
  split; [by repeat constructor|].
  split; [repeat constructor; by eexists|].
  split; [by exists s3|].
  apply decode_privateFor_Done in Hfor as [strs ->].
  apply assert_list_Done in Hvs', Hvs. unfold index in Hvs', Hvs.
  destruct (r !! "privateFor") as [v1|]; [|done].
  destruct (r !! "logs") as [v2|]; [|done]. simpl in Hvs', Hvs. subst v1 v2.
  split; [by exists strs|].
  split; [exists vs; split; [done|]; by apply decode_logs_Done in Hloop as [_ ?]|].
  split; [apply (status_value r)|done].
Qed.

(** An optional entry that is present but no string, such as a JSON
    [null] under [contractAddress], makes the mapping panic on the type
    assertion before any required entry is looked at. *)
Theorem MarshalPrivateReceipt_optional_not_string (r : gmap string iface)
    (v : iface) :
  (∀ s, v ≠ IString s) →
  (r !! "contractAddress" = Some v →
   MarshalPrivateReceipt r = Panic (PanicTypeAssertion "string"))
  ∧ (optional_string r "contractAddress" → r !! "output" = Some v →
     MarshalPrivateReceipt r = Panic (PanicTypeAssertion "string")).
Proof.
  intros Hv.
  assert (assert_string v = Panic (PanicTypeAssertion "string")) as E.
  { destruct v; try done. by destruct (Hv s). }
  unfold MarshalPrivateReceipt. split.
  - intros ->. by rewrite E.
  - intros Hc ->. rewrite (optional_value r "contractAddress" _ _ Hc).
    cbn [mbind result_bind]. by rewrite E.
Qed.

(** What the mapping returns at [privateFrom] and [privateFor]: the fixed
    message when [privateFrom] is absent, the error of the base64 decoder
    itself when it does not decode, and the fixed message when
    [privateFor] is absent. *)
Theorem MarshalPrivateReceipt_privateFrom_errors (r : gmap string iface) :
  passes_before_transactionHash r → has_string r "transactionHash" →
  (r !! "privateFrom" = None →
   MarshalPrivateReceipt r = Done (inl "privateFrom not found"))
  ∧ (∀ s err, r !! "privateFrom" = Some (IString s) →
       privacy.ToPublicKey s = inl err →
       MarshalPrivateReceipt r = Done (inl err))
  ∧ (∀ s key, r !! "privateFrom" = Some (IString s) →
       privacy.ToPublicKey s = inr key → r !! "privateFor" = None →
       MarshalPrivateReceipt r = Done (inl "privateFor not found")).
Proof.
  intros [[Hc Ho] [s1 Hs1]] [s2 Hs2].
  unfold MarshalPrivateReceipt.
  rewrite (optional_value r "contractAddress" _ _ Hc).
  rewrite (optional_value r "output" _ _ Ho).
  cbn [mbind result_bind]. rewrite decide_False by congruence.
  rewrite (index_Some _ _ _ Hs1). cbn [assert_string mbind result_bind].
  rewrite decide_False by congruence.
  rewrite (index_Some _ _ _ Hs2). cbn [assert_string mbind result_bind].
  split; [|split].
  - intros Hmiss. by rewrite decide_True.
  - intros s err Hs Herr. rewrite decide_False by congruence.
    rewrite (index_Some _ _ _ Hs). cbn [assert_string mbind result_bind].
    by rewrite Herr.
  - intros s key Hs Hkey Hmiss. rewrite decide_False by congruence.
    rewrite (index_Some _ _ _ Hs). cbn [assert_string mbind result_bind].
    rewrite Hkey. by rewrite decide_True.
Qed.

(** What the mapping returns at [logsBloom], once the log entries have
    all been skipped: the fixed message when it is absent, and a message
    that quotes the string and the error of the decoder when it is no
    hexadecimal. *)
Theorem MarshalPrivateReceipt_logsBloom_errors (r : gmap string iface)
    (vs : list iface) :
  passes_before_logs r → r !! "logs" = Some (IList vs) → Forall skipped vs →
  (r !! "logsBloom" = None →
   MarshalPrivateReceipt r = Done (inl "logsBloom not found"))
  ∧ (∀ s err, r !! "logsBloom" = Some (IString s) →
       hexutil_Decode s = inl err →
       MarshalPrivateReceipt r
       = Done (inl ("failed to Decode " +:+ s +:+ ", err: " +:+ err))).
Proof.
  intros ([[Hc Ho] [s1 Hs1]] & [s2 Hs2] & (s3 & key & Hs3 & Hkey)
          & (vs' & Hfor & Hvs') & Hstatus) Hlogs Hskip.
  unfold MarshalPrivateReceipt.
  rewrite (optional_value r "contractAddress" _ _ Hc).
  rewrite (optional_value r "output" _ _ Ho).
  cbn [mbind result_bind]. rewrite decide_False by congruence.
  rewrite (index_Some _ _ _ Hs1). cbn [assert_string mbind result_bind].
  rewrite decide_False by congruence.
  rewrite (index_Some _ _ _ Hs2). cbn [assert_string mbind result_bind].
  rewrite decide_False by congruence.
  rewrite (index_Some _ _ _ Hs3). cbn [assert_string mbind result_bind].
  rewrite Hkey. rewrite decide_False by congruence.
  rewrite (index_Some _ _ _ Hfor). cbn [assert_list mbind result_bind].
  destruct (decode_privateFor_strings vs' [] Hvs') as [keys ->].
  cbn [mbind result_bind].
  rewrite (optional_value r "status" _ _ Hstatus). cbn [mbind result_bind].
  rewrite decide_False by congruence.
  rewrite (index_Some _ _ _ Hlogs). cbn [assert_list mbind result_bind].
  rewrite (decode_logs_skipped vs [] Hskip). cbn [mbind result_bind].
  split.
  - intros Hmiss. by rewrite decide_True.
  - intros s err Hs Herr. rewrite decide_False by congruence.
    rewrite (index_Some _ _ _ Hs). cbn [assert_string mbind result_bind].
    by rewrite Herr.
Qed.

End receipt_more.

(** ** The receipt on the sample responses *)

Section receipt_samples.
Import types.

(** The shape of a concrete map, entry by entry. *)
Ltac concrete_shape :=
  repeat split;
  first
    [ by (intros ?; vm_compute; intros [= <-]; eexists)
    | by (intros ?; vm_compute; intros [=])
    | by (eexists; vm_compute; reflexivity)
    | by (eexists _, _; split; vm_compute; reflexivity)
    | by (eexists; split; [vm_compute; reflexivity|];
          repeat constructor; by eexists)
    | idtac ].

(** The response of the sample with one log entry that does not decode:
    the receipt has the status 1, one [privateFor] key and no logs. *)
Lemma MarshalPrivateReceipt_well_formed_witness :
  ∃ receipt,
    @MarshalPrivateReceipt sample.canonical_base64 sample.stub_geth
      (sample.response_with_logs [IBytes []])
    = Done (inr receipt)
    ∧ Receipt_PrivateFrom receipt = sample.privateFrom
    ∧ Receipt_PrivateFor receipt = [sample.privateFor1]
    ∧ Status receipt = 1
    ∧ Logs receipt = []
    ∧ Receipt_Restriction receipt = "restricted"
    ∧ BlockNumber receipt = None
    ∧ Output receipt = [].
Proof.
  destruct (@MarshalPrivateReceipt_well_formed sample.canonical_base64
              sample.stub_geth (sample.response_with_logs [IBytes []])
              "0x11" "0x22" "A1aVtMxLCUHmBVHXoZzzBgPbW/wj5axDpW9X8l91SGo="
              "0x00" sample.privateFrom
              ["Ko2bVqD+nNlNYL5EE7y3IdOnviftjiizpjRt+HTuFBs="]
              [IBytes []] [x00] (replicate 256 x00))
    as (receipt & Hrun & _ & _ & Hfrom & Hfor & Hstatus & _ & Hlogs & _
        & Hrestriction & _ & _ & Hnumber & Houtput);
    try (vm_compute; reflexivity);
    try (by (intros ?; vm_compute; intros [= <-]; eexists));
    try (by (intros ?; vm_compute; intros [=])).
  { repeat constructor. eexists _, _. split; vm_compute; reflexivity. }
  exists receipt. split; [exact Hrun|]. split; [exact Hfrom|].
  split; [rewrite Hfor; vm_compute; reflexivity|].
  split; [apply Hstatus; vm_compute; reflexivity|].
  split; [exact Hlogs|]. split; [exact Hrestriction|].
  split; [apply Hnumber; vm_compute; reflexivity|].
  rewrite (Houtput "0x") by (vm_compute; reflexivity).
  vm_compute. reflexivity.
Defined.

(** The same response, read back from the receipt it is mapped to. *)
Lemma MarshalPrivateReceipt_receipt_requires_witness :
  ∃ receipt,
    @MarshalPrivateReceipt sample.canonical_base64 sample.stub_geth
      (sample.response_with_logs [IBytes []])
    = Done (inr receipt)
    ∧ (∃ vs, sample.response_with_logs [IBytes []] !! "logs" = Some (IList vs)
             ∧ Forall (@skipped sample.stub_geth) vs)
    ∧ (Status receipt = 1
       ↔ sample.response_with_logs [IBytes []] !! "status"
         = Some (IString "0x1"))
    ∧ Receipt_Restriction receipt = "restricted".
Proof.
  destruct (@returns_receipt_true sample.stub_geth
              (@MarshalPrivateReceipt sample.canonical_base64 sample.stub_geth
                 (sample.response_with_logs [IBytes []])))
    as [receipt Hrun]; [vm_compute; reflexivity|].
  exists receipt. split; [exact Hrun|].
  destruct (@MarshalPrivateReceipt_receipt_requires sample.canonical_base64
              sample.stub_geth _ receipt Hrun)
    as (_ & _ & _ & _ & Hlogs & Hstatus & Hrestriction).
  split; [exact Hlogs|]. split; [exact Hstatus|exact Hrestriction].
Defined.

(** The response of the sample with a JSON [null] under
    [contractAddress]. *)
Lemma MarshalPrivateReceipt_optional_not_string_witness :
  @MarshalPrivateReceipt sample.canonical_base64 sample.stub_geth
    (<["contractAddress" := INil]> (sample.response_with_logs []))
  = Panic (PanicTypeAssertion "string").
Proof.
  apply (proj1 (@MarshalPrivateReceipt_optional_not_string
                  sample.canonical_base64 sample.stub_geth
                  (<["contractAddress" := INil]> (sample.response_with_logs []))
                  INil ltac:(discriminate))).
  apply lookup_insert_eq.
Defined.

(** The response of the sample with a [privateFrom] that is no base64:
    the error is the decoder's. *)
Lemma MarshalPrivateReceipt_privateFrom_errors_witness :
  @MarshalPrivateReceipt sample.canonical_base64 sample.stub_geth
    (<["privateFrom" := IString "not base64"]> (sample.response_with_logs []))
  = Done (inl "illegal base64 data").
Proof.
  destruct (@MarshalPrivateReceipt_privateFrom_errors sample.canonical_base64
              sample.stub_geth
              (<["privateFrom" := IString "not base64"]>
                 (sample.response_with_logs [])))
    as (_ & Hundecodable & _).
  - concrete_shape.
  - concrete_shape.
  - apply (Hundecodable "not base64").
    + apply lookup_insert_eq.
    + vm_compute. reflexivity.
Defined.

(** The response of the sample with a [logsBloom] that is no
    hexadecimal. *)
Lemma MarshalPrivateReceipt_logsBloom_errors_witness :
  @MarshalPrivateReceipt sample.canonical_base64 sample.stub_geth
    (<["logsBloom" := IString "0xzz"]> (sample.response_with_logs [IBytes []]))
  = Done (inl "failed to Decode 0xzz, err: invalid hex string").
Proof.
  destruct (@MarshalPrivateReceipt_logsBloom_errors sample.canonical_base64
              sample.stub_geth
              (<["logsBloom" := IString "0xzz"]>
                 (sample.response_with_logs [IBytes []]))
              [IBytes []])
    as (_ & Hhex).
  - concrete_shape.
  - vm_compute. reflexivity.
  - repeat constructor. eexists _, _. split; vm_compute; reflexivity.
  - apply (Hhex "0xzz" "invalid hex string").
    + apply lookup_insert_eq.
    + vm_compute. reflexivity.
Defined.

End receipt_samples.

(** ** From the constructor to the wire *)

Section flow.
Import types.

(** Everything the later steps need to know of the transaction
    [newTransaction] returns. *)
Lemma newTransaction_Done σ nonce to amount gasLimit gasPrice
    data privateFrom privateFor :
  (amount = None ∨ is_Some (big_value σ amount)) →
  (gasPrice = None ∨ is_Some (big_value σ gasPrice)) →
  valid_array σ to → valid_slice σ data →
  valid_slice σ privateFrom → valid_slices σ privateFor →
  ∃ tx σ' d,
    newTransaction nonce to amount gasLimit gasPrice data privateFrom privateFor σ
    = Done (Some tx, σ')
    ∧ txs σ' !! tx = Some d
    ∧ preserved σ σ' ∧ valid_txdata σ' d
    ∧ AccountNonce d = nonce ∧ GasLimit d = gasLimit ∧ Recipient d = to
    ∧ PrivateFrom d = privateFrom ∧ PrivateFor d = privateFor
    ∧ Restriction d = "restricted"
    ∧ big_value σ' (Amount d) = Some (default 0 (big_value σ amount))
    ∧ big_value σ' (Price d) = Some (default 0 (big_value σ gasPrice))
    ∧ slice_bytes σ' (Payload d) = slice_bytes σ data.
Proof.
  intros Hamount Hprice Hto Hdata Hfrom Hfor.
  destruct (newTransaction_data σ data)
    as (s & σ1 & Hrun & Hbigs & Hvecs & Htxs & Harr & Hread & Hstable).
  assert (valid_slice σ1 s) as Hs.
  { revert Hrun. destruct (decide (0 < len data)%nat) as [Hpos|Hpos].
    - unfold CopyBytes. destruct (base data) as [l|].
      + intros [= <- <-]. unfold valid_slice. simpl.
        rewrite length_app. simpl. lia.
      + by intros [= <- <-].
    - by intros [= <- <-]. }
  unfold newTransaction. unfold mbind at 1. unfold M_bind at 1.
  rewrite Hrun.
  unfold mbind, M_bind, new_big, mret, M_ret. simpl.
  rewrite <- !app_assoc, !length_app, Hbigs. simpl.
  set (n := length (bigs σ)).
  pose proof (big_value_default_app σ amount [0; 0; 0; 0; 0]
                (arrays σ1) (vectors σ1) (txs σ1) Hamount) as [Ea _].
  pose proof (big_value_default_app σ gasPrice [0; 0; 0; 0; 0]
                (arrays σ1) (vectors σ1) (txs σ1) Hprice) as [_ Ep].
  specialize (Ep n (default 0 (big_value σ amount)) ltac:(lia)).
  rewrite big_Set_guarded.
  2:{ simpl. rewrite lookup_app_r by lia. by rewrite Nat.sub_diag. }
  2:{ rewrite Ea. exact Hamount. }
  rewrite Ea.
  rewrite big_Set_guarded.
  2:{ simpl. rewrite list_lookup_insert_ne by lia. rewrite lookup_app_r by lia.
      by replace (n + 1 - length (bigs σ))%nat with 1%nat by lia. }
  2:{ cbn [bigs arrays vectors txs]. rewrite Ep. exact Hprice. }
  cbn [bigs arrays vectors txs]. rewrite Ep.
  eexists _, _, _. split; [reflexivity|]. cbn [bigs arrays vectors txs].
  rewrite Htxs, Hvecs.
  assert (length (bigs σ ++ [0; 0; 0; 0; 0]) = (n + 5)%nat) as Hlen
    by (rewrite length_app; simpl; lia).
  split; [apply lookup_snoc|].
  split.
  { unfold preserved. cbn [bigs arrays vectors txs].
    repeat split; try done; [|by eexists].
    replace n with (length (bigs σ) + 0)%nat at 2 by lia.
    unfold n. rewrite !insert_app_tail. by eexists. }
  split.
  { unfold valid_txdata, valid_big, valid_array, valid_slice, valid_slices.
    cbn [Price Amount Recipient Payload PrivateFrom PrivateFor
         bigs arrays vectors txs].
    rewrite !length_insert, Hlen.
    destruct Harr as [more Emore].
    assert (∀ p, valid_array σ p →
              match p with
              | Some l => (l < length (arrays σ1))%nat
              | None => True
              end) as Hgrow.
    { intros [l|]; [|done]. simpl. rewrite Emore, length_app. lia. }
    repeat split; try lia; try (by apply Hgrow); try exact Hs.
    unfold valid_slices in Hfor. destruct (base privateFor) as [l|]; [|done].
    destruct Hfor as (v & Hv & Hall). exists v. split; [done|].
    eapply Forall_impl; [exact Hall|]. intros x Hx. by apply Hgrow. }
  cbn [AccountNonce GasLimit Recipient PrivateFrom PrivateFor Restriction
       Amount Price Payload].
  do 6 (split; [reflexivity|]).
  split.
  { simpl. rewrite list_lookup_insert_ne by lia.
    by rewrite list_lookup_insert_eq by lia. }
  split.
  { simpl. by rewrite list_lookup_insert_eq by (rewrite length_insert; lia). }
  rewrite <- Hread. by apply slice_bytes_ext.
Qed.

Lemma preserved_trans σ1 σ2 σ3 :
  preserved σ1 σ2 → preserved σ2 σ3 → preserved σ1 σ3.
Proof.
  intros (? & ? & ? & ?) (? & ? & ? & ?).
  repeat split; by etrans.
Qed.

(** The flow of the README: [NewContractCreation], [SignTx] on what it
    returns, and [rlp.EncodeToBytes] on the signed transaction. With a
    nonce, a gas limit, a value and a gas price in range, a chain id,
    slices that point into the store and a signing primitive that
    returns 65 bytes for a digest, none of the three steps fails or
    panics, and the bytes that come out are the canonical encoding of
    the one-element list around the twelve fields: the arguments as they
    were at the construction, the empty string for the recipient, and
    the [v], [r] and [s] of the signature over the digest of the
    constructed transaction. *)
Theorem NewContractCreation_SignTx_EncodeToBytes `{Signer} σ nonce amount
    gasLimit gasPrice data privateFrom privateFor chainID
    (prv : PrivateKey) c :
  0 ≤ nonce < 2 ^ 64 → 0 ≤ gasLimit < 2 ^ 64 →
  (amount = None ∨ is_Some (big_value σ amount)) →
  0 ≤ default 0 (big_value σ amount) →
  (gasPrice = None ∨ is_Some (big_value σ gasPrice)) →
  0 ≤ default 0 (big_value σ gasPrice) →
  big_value σ chainID = Some c →
  valid_slice σ data → valid_slice σ privateFrom →
  valid_slices σ privateFor →
  (∀ h, length h = 32%nat →
     ∃ bs, crypto_Sign h prv = inr bs ∧ length bs = SignatureLength) →
  ∃ tx σ1 d bs cpy σ2,
    NewContractCreation nonce amount gasLimit gasPrice data privateFrom
      privateFor σ = Done (Some tx, σ1)
    ∧ txs σ1 !! tx = Some d
    ∧ crypto_Sign (digest σ1 d chainID) prv = inr bs
    ∧ SignTx (Some tx) chainID prv σ1 = Done ((Some cpy, None), σ2)
    ∧ EncodeToBytes σ2 (Some cpy)
      = inr (RLP.encode (RLP.List [RLP.List
          [ RLP.of_int nonce;
            RLP.of_int (default 0 (big_value σ gasPrice));
            RLP.of_int gasLimit;
            RLP.Str [];
            RLP.of_int (default 0 (big_value σ amount));
            RLP.Str (slice_bytes σ data);
            RLP.of_int (folded_v (sig_v bs) c);
            RLP.of_int (sig_r bs);
            RLP.of_int (sig_s bs);
            RLP.Str (slice_bytes σ privateFrom);
            RLP.List (RLP.Str <$> slices_bytes σ privateFor);
            RLP.Str (bytes_of_string "restricted") ]])).
Proof.
  intros Hnonce Hgas Hamount Ha0 Hprice Hp0 Hc Hdata Hfrom Hfor Hsigner.
  destruct (newTransaction_Done σ nonce None amount gasLimit gasPrice data
              privateFrom privateFor Hamount Hprice I Hdata Hfrom Hfor)
    as (tx & σ1 & d & Hrun & Hd & Hpre & Hvalid & Hn & Hg & Hto & Hpf & Hpfor
        & Hres & Ham & Hpr & Hpay).
  destruct (Hsigner (digest σ1 d chainID) (Keccak256_length _))
    as (bs & Hsig & Hlen).
  assert (valid_big σ chainID) as Hvc.
  { destruct chainID as [l|]; [|done]. simpl in *. by eapply lookup_lt_Some. }
  assert (big_value σ1 chainID = Some c) as Hc1.
  { rewrite (big_value_grow σ σ1); [done|done|apply Hpre]. }
  set (σ1' := mkStore (bigs σ1) (arrays σ1 ++ [bs]) (vectors σ1) (txs σ1)).
  set (σ2 := signed_store σ1' d c bs).
  assert (preserved σ1 σ2) as Hpre2.
  { unfold preserved, σ2, signed_store, σ1'. simpl.
    repeat split; try done; by eexists. }
  pose proof (preserved_trans _ _ _ Hpre Hpre2) as Hpre02.
  exists tx, σ1, d, bs, (length (txs σ1)), σ2.
  split; [exact Hrun|]. split; [exact Hd|]. split; [exact Hsig|].
  split.
  { rewrite (SignTx_unfold _ _ _ _ _ Hd), Hsig.
    rewrite (withSignature_Done _ _ _ _ d c).
    - by rewrite signature_slice_bytes.
    - exact Hd.
    - exact Hlen.
    - destruct chainID; exact Hc1. }
  destruct Hvalid as (Hvp & Hva & Hvr & Hvpay & Hvfrom & Hvfor).
  destruct Hpre2 as (Hb2 & Ha2 & Hv2 & _).
  destruct Hpre02 as (Hb02 & Ha02 & Hv02 & _).
  unfold EncodeToBytes. cbn [mbind option_bind].
  assert (txs σ2 !! length (txs σ1)
          = Some (signed_txdata d (length (bigs σ1)))) as ->
    by apply (signed_store_tx σ1' d c bs).
  assert (big_value σ2 (V (signed_txdata d (length (bigs σ1))))
          = Some (folded_v (sig_v bs) c)) as EV
    by apply (signed_store_V σ1' d c bs).
  assert (big_value σ2 (R (signed_txdata d (length (bigs σ1))))
          = Some (sig_r bs)) as ER
    by apply (signed_store_R σ1' d c bs).
  assert (big_value σ2 (S (signed_txdata d (length (bigs σ1))))
          = Some (sig_s bs)) as ES
    by apply (signed_store_S σ1' d c bs).
  pose proof (be_value_bounds (take 32 bs)) as Br.
  pose proof (be_value_bounds (take 32 (drop 32 bs))) as Bs.
  rewrite (encode_txdata_fields σ2 (signed_txdata d (length (bigs σ1)))).
  - rewrite EV, ER, ES.
    cbn [signed_txdata AccountNonce Price GasLimit Recipient Amount Payload
         PrivateFrom PrivateFor Restriction default].
    rewrite (big_value_grow σ1 σ2 (Price d)), Hpr by done.
    rewrite (big_value_grow σ1 σ2 (Amount d)), Ham by done.
    rewrite (slice_bytes_grow σ1 σ2 (Payload d)), Hpay by done.
    rewrite Hpf, Hpfor, Hto, Hn, Hg, Hres.
    rewrite (slice_bytes_grow σ σ2 privateFrom) by done.
    rewrite (slices_bytes_grow σ σ2 privateFor) by done.
    reflexivity.
  - cbn [signed_txdata AccountNonce]. by rewrite Hn.
  - cbn [signed_txdata GasLimit]. by rewrite Hg.
  - cbn [signed_txdata Price].
    by rewrite (big_value_grow σ1 σ2 (Price d)), Hpr by done.
  - cbn [signed_txdata Amount].
    by rewrite (big_value_grow σ1 σ2 (Amount d)), Ham by done.
  - rewrite EV. simpl. unfold folded_v, Int.uint64, Int.unsigned.
    apply Z.mod_pos_bound. lia.
  - rewrite ER. simpl. unfold sig_r. lia.
  - rewrite ES. simpl. unfold sig_s. lia.
Qed.

(** The call of the README with the stand-in signer and chain id 2018. *)
Lemma NewContractCreation_SignTx_EncodeToBytes_witness :
  ∃ tx σ1 d bs cpy σ2,
    NewContractCreation 0 None 3000000 (Some 1%nat) sample.data_slice
      sample.privateFrom_slice sample.privateFor_slice sample.caller_store
    = Done (Some tx, σ1)
    ∧ txs σ1 !! tx = Some d
    ∧ @crypto_Sign sample.stub_signer (digest σ1 d (Some 0%nat)) () = inr bs
    ∧ @SignTx sample.stub_signer (Some tx) (Some 0%nat) () σ1
      = Done ((Some cpy, None), σ2)
    ∧ EncodeToBytes σ2 (Some cpy)
      = inr (RLP.encode (RLP.List [RLP.List
          [ RLP.of_int 0; RLP.of_int 0; RLP.of_int 3000000; RLP.Str [];
            RLP.of_int 0; RLP.Str sample.data;
            RLP.of_int (folded_v (sig_v bs) 2018);
            RLP.of_int (sig_r bs); RLP.of_int (sig_s bs);
            RLP.Str sample.privateFrom;
            RLP.List [RLP.Str sample.privateFor1; RLP.Str sample.privateFor2];
            RLP.Str (bytes_of_string "restricted") ]])).
Proof.
  apply (@NewContractCreation_SignTx_EncodeToBytes sample.stub_signer
           sample.caller_store 0 None 3000000 (Some 1%nat) sample.data_slice
           sample.privateFrom_slice sample.privateFor_slice (Some 0%nat) ()
           2018).
  - lia.
  - lia.
  - by left.
  - reflexivity.
  - right. by eexists.
  - reflexivity.
  - reflexivity.
  - vm_compute. lia.
  - vm_compute. lia.
  - eexists. split; [reflexivity|]. repeat constructor; vm_compute; lia.
  - intros h Hh. eexists. split; [reflexivity|].
    rewrite length_app, length_take, length_app, Hh. reflexivity.
Defined.

End flow.

(** ** The root privacy group as a digest *)

Section root_group.
Import privacy.

(** The identifier of the root privacy group is the base64 text of the
    Keccak-256 digest of the canonical encoding of the list of the sorted
    participants, each a byte string: the encoder does not fail on a list
    of keys, so the zero hash that [rlpHash] returns on an error never
    becomes an identifier. *)
Theorem FindRootPrivacyGroup_digest (participants : list PublicKey) :
  ID (FindRootPrivacyGroup participants)
  = base64.EncodeToString
      (sha3.Keccak256 (RLP.encode (RLP.List (RLP.Str <$> sort participants))))
  ∧ rlp.Encode (rlp.Slice (rlp.Bytes <$> sort participants))
    = (None, RLP.encode (RLP.List (RLP.Str <$> sort participants))).
Proof.
  assert (rlp.Encode (rlp.Slice (rlp.Bytes <$> sort participants))
          = (None, RLP.encode (RLP.List (RLP.Str <$> sort participants))))
    as E by (unfold rlp.Encode; by rewrite encode_Bytes_slice).
  split; [|exact E].
  unfold FindRootPrivacyGroup, rlpHash. cbn [ID]. by rewrite E.
Qed.

End root_group.

(** ** Values and errors *)

Section value_or_error.
Import privacy.

(** What the three operations on the node can return. [CreatePrivacyGroup]
    returns a group or an error, never both and never neither: the
    group has the identifier the node answered, the name and the members
    as they were passed, in their order. [FindPrivacyGroup] never returns
    a group together with an error, but it returns neither when the
    response is empty. [PrivateNonce] returns the nonce 0 with every
    error. *)
Theorem node_operations_return `{Base64Decoder} `{Hexutil}
    (client : string → list rpc_arg → error + iface) :
  (∀ members name group err,
     run client (CreatePrivacyGroup members name) = Done (group, err) →
     (∃ id, client "priv_createPrivacyGroup"
              [ArgMap (getCreatePrivacyGroupArgs members name)]
            = inr (IString id)
            ∧ group = Some {| ID := id; Name := name; Description := "";
                              Type_ := ""; Members := members |}
            ∧ err = None)
     ∨ (∃ e, client "priv_createPrivacyGroup"
               [ArgMap (getCreatePrivacyGroupArgs members name)] = inl e
             ∧ group = None ∧ err = Some e))
  ∧ (∀ participants group err,
       run client (FindPrivacyGroup participants) = Done (group, err) →
       (group = None ∨ err = None)
       ∧ (group = None → err = None →
          ∃ v, client "priv_findPrivacyGroup" [ArgPublicKeys participants]
               = inr v ∧ as_maps v = inr []))
  ∧ (∀ account group nonce e,
       run client (PrivateNonce account group) = Done (nonce, Some e) →
       nonce = 0).
Proof.
  split; [|split].
  - intros members name group err. unfold CreatePrivacyGroup. cbn [run].
    destruct (client _ _) as [e|v].
    + intros [= <- <-]. right. by exists e.
    + destruct v; try done. simpl. intros [= <- <-]. left. by eexists.
  - intros participants group err. unfold FindPrivacyGroup. cbn [run].
    destruct (client _ _) as [e|v]; [intros [= <- <-]; by split; [left|]|].
    destruct (as_maps v) as [e|[|rsp0 others]] eqn:Ev.
    + intros [= <- <-]. by split; [left|].
    + intros [= <- <-]. split; [by left|]. intros _ _. by exists v.
    + intros Hrun.
      apply bind_Done in Hrun as (ms & _ & Hrun).
      apply bind_Done in Hrun as (members & _ & Hrun).
      apply bind_Done in Hrun as (id & _ & Hrun).
      apply bind_Done in Hrun as (name & _ & Hrun).
      apply bind_Done in Hrun as (description & _ & Hrun).
      apply bind_Done in Hrun as (type & _ & Hrun).
      injection Hrun as <- <-. by split; [right|].
  - intros account [group|] nonce e; [|done].
    unfold PrivateNonce. cbn [run].
    destruct (client _ _) as [e'|v]; [by intros [= <- _]|].
    destruct v; try done. simpl.
    destruct (hexutil_DecodeUint64 s); [by intros [= <- _]|done].
Qed.

End value_or_error.

Section sign_returns.
Import types.

(** What [SignTx] can return: on a nil transaction it panics, whatever
    the signing primitive does; when it returns, it returns a
    transaction and no error, or no transaction and the error of the
    signing primitive, and in that case it has allocated nothing. *)
Theorem SignTx_returns `{Signer} σ tx chainID (prv : PrivateKey) :
  (tx = None → SignTx tx chainID prv σ = Panic PanicNilDereference)
  ∧ (∀ res err σ', SignTx tx chainID prv σ = Done ((res, err), σ') →
       (∃ cpy, res = Some cpy ∧ err = None ∧ txs σ !! cpy = None)
       ∨ (∃ e d l, tx = Some l ∧ txs σ !! l = Some d
                   ∧ crypto_Sign (digest σ d chainID) prv = inl e
                   ∧ res = None ∧ err = Some e ∧ σ' = σ)).
Proof.
  split; [intros ->; by apply SignTx_nil|].
  intros res err σ' Hrun.
  destruct (l ← tx; txs σ !! l) as [d|] eqn:Htx;
    [|by rewrite SignTx_nil in Hrun].
  destruct tx as [l|]; [|done]. simpl in Htx.
  rewrite (SignTx_unfold _ _ _ _ _ Htx) in Hrun.
  destruct (crypto_Sign _ prv) as [e|bs] eqn:Hsig.
  - injection Hrun as <- <- <-. right. by exists e, d, l.
  - apply withSignature_returns
      in Hrun as (_ & l' & d0 & _ & _ & [= -> ->] & _).
    left. eexists. split; [done|]. split; [done|].
    by apply lookup_ge_None_2.
Qed.

End sign_returns.
